(** * sfc8-cycles: the cycle-detection engine of [sfc8-cycles.c]

    A shallow embedding of the C program: the sfc8 generator, the state
    encoding, the bit vectors, the cache of the longest cycles and the
    per-seed driver, followed by the properties proved about them.

    Unsigned C integers ([uint8_t], [uint32_t], [uint64_t], [size_t]) are
    modelled as [N]; a conversion to a narrower unsigned type is written out
    as a reduction modulo the type's range.  [size_t] is taken to be 64 bits
    wide, as the program needs it to be: [POSSIBLE_STATES] is [2^32].  Array
    positions and the record count (both at most 7) are [nat].  Pointers are
    block addresses, and the blocks obtained from [malloc] are kept in a map
    from addresses to contents. *)

From Stdlib Require Import NArith List Lia Sorted.
From stdpp Require Import base numbers list gmap fin_maps.

Local Open Scope N_scope.

(** ** Integer conversions *)

(** Conversion to [uint8_t]. *)
Definition to_uint8 (x : N) : N := x mod 256.

(** Conversion to [uint32_t]. *)
Definition to_uint32 (x : N) : N := x mod 2 ^ 32.

(** [static const size_t POSSIBLE_STATES = (size_t)UINT32_MAX + 1;] *)
Definition UINT32_MAX : N := 4294967295.
Definition POSSIBLE_STATES : N := UINT32_MAX + 1.

(** [static const size_t BIT_ARRAY_LENGTH = ((size_t)POSSIBLE_STATES+1)/64;] *)
Definition BIT_ARRAY_LENGTH : N := (POSSIBLE_STATES + 1) / 64.

(** ** Bit vectors

    A bit array is a block of [BIT_ARRAY_LENGTH] 64-bit words.  It is kept
    sparsely: a word that is absent from the map is zero.  Any contents of a
    block can be written this way, so a block handed out by [malloc] is an
    arbitrary map. *)

Abbreviation bitarray := (gmap N N).

(** [array[word_index]] *)
Definition read_word (array : bitarray) (word_index : N) : N :=
  default 0 (array !! word_index).

(** [size_t WORD_INDEX(const uint32_t value) { return value >> 6; }] *)
Definition WORD_INDEX (value : N) : N := N.shiftr value 6.

(** [uint8_t BIT_INDEX(const uint32_t value) { return value & 0x3F; }] *)
Definition BIT_INDEX (value : N) : N := to_uint8 (N.land value 63).

(** [test_and_set_bit]: the previous value of the bit, and the array with the
    bit set. *)
Definition test_and_set_bit (array : bitarray) (position : N) : bool * bitarray :=
  let bit_word := N.shiftl 1 (BIT_INDEX position) in
  let word_index := WORD_INDEX position in
  let array_word := read_word array word_index in
  let array' := <[word_index := N.lor array_word bit_word]> array in
  (negb (N.land array_word bit_word =? 0), array').

(** [test_bit] *)
Definition test_bit (array : bitarray) (position : N) : bool :=
  let bit_word := N.shiftl 1 (BIT_INDEX position) in
  let word_index := WORD_INDEX position in
  let array_word := read_word array word_index in
  negb (N.land array_word bit_word =? 0).

(** [memset(array, 0, BIT_ARRAY_SIZE)]: every word of the block is zero. *)
Definition zeroed : bitarray := ∅.

(** ** The generator *)

(** [typedef struct sfc8_s { uint8_t a; uint8_t b; uint8_t c; uint8_t d; } sfc8_t;] *)
Record sfc8_t : Type := mk_sfc8 { a : N; b : N; c : N; d : N }.

Definition set_a (v : N) (s : sfc8_t) : sfc8_t := mk_sfc8 v (b s) (c s) (d s).
Definition set_b (v : N) (s : sfc8_t) : sfc8_t := mk_sfc8 (a s) v (c s) (d s).
Definition set_c (v : N) (s : sfc8_t) : sfc8_t := mk_sfc8 (a s) (b s) v (d s).
Definition set_d (v : N) (s : sfc8_t) : sfc8_t := mk_sfc8 (a s) (b s) (c s) v.

(** Every field of the C struct is a [uint8_t]. *)
Definition valid_state (s : sfc8_t) : Prop :=
  a s < 256 /\ b s < 256 /\ c s < 256 /\ d s < 256.

(** [sfc8_advance], statement by statement.  The operands are promoted to
    [int], where none of the sums and shifts overflows; each assignment
    converts back to [uint8_t]. *)
Definition sfc8_advance (state : sfc8_t) : sfc8_t :=
  (* uint8_t temp = state->a + state->b + state->d++; *)
  let temp := to_uint8 (a state + b state + d state) in
  let state := set_d (to_uint8 (d state + 1)) state in
  (* state->a = state->b ^ (state->b >> 2); *)
  let state := set_a (to_uint8 (N.lxor (b state) (N.shiftr (b state) 2))) state in
  (* state->b = state->c + (state->c << 1); *)
  let state := set_b (to_uint8 (c state + N.shiftl (c state) 1)) state in
  (* state->c = temp + ((state->c << 3)|(state->c >> 5)); *)
  set_c (to_uint8 (temp + N.lor (N.shiftl (c state) 3) (N.shiftr (c state) 5))) state.

(** [encode_state].  The shifted fields are [int]s; or-ing one into the
    [uint32_t] result converts it to [uint32_t] ([d << 24] leaves the range of
    [int] for [d >= 128]; compilers for two's complement machines produce the
    bit pattern, which the conversion reads as [d * 2^24]). *)
Definition encode_state (state : sfc8_t) : N :=
  let result := a state in
  let result := N.lor result (to_uint32 (N.shiftl (b state) 8)) in
  let result := N.lor result (to_uint32 (N.shiftl (c state) 16)) in
  let result := N.lor result (to_uint32 (N.shiftl (d state) 24)) in
  result.

(** The transition as the specification words it: every field computed from
    the old fields, with 8-bit wraparound. *)
Definition rotate_left8 (x k : N) : N :=
  to_uint8 (N.lor (N.shiftl x k) (N.shiftr x (8 - k))).

Definition advance_spec (s : sfc8_t) : sfc8_t :=
  let t := (a s + b s + d s) mod 256 in
  {| a := N.lxor (b s) (N.shiftr (b s) 2);
     b := (c s + N.shiftl (c s) 1) mod 256;
     c := (t + rotate_left8 (c s) 3) mod 256;
     d := (d s + 1) mod 256 |}.

(** The inverse of the encoding, as the specification describes the packing:
    field [a] in bits 0-7, [b] in bits 8-15, [c] in bits 16-23, [d] in bits
    24-31.  The program has no such function. *)
Definition decode_state (key : N) : sfc8_t :=
  {| a := key mod 256;
     b := (key / 2 ^ 8) mod 256;
     c := (key / 2 ^ 16) mod 256;
     d := (key / 2 ^ 24) mod 256 |}.

(** ** Control flow *)

(** What a call does: it returns, it ends the process ([exit(1)], or
    [return 1] from [main]), or it reads or writes through a pointer that
    addresses no live block. *)
Inductive outcome (A : Type) : Type :=
| Returns (x : A)
| Exits (status : N)
| Faults.
Arguments Returns {A} x.
Arguments Exits {A} status.
Arguments Faults {A}.

(** One iteration of a loop body either goes on to the next iteration or
    leaves the loop ([break], [return], [exit]). *)
Inductive step (S R : Type) : Type :=
| Continue (s : S)
| Stop (r : R).
Arguments Continue {S R} s.
Arguments Stop {S R} r.

(** [for (i = first; i < first + 2^e; i++) body]: the body runs for
    [2^e] consecutive values of the counter unless an iteration stops the
    loop.  The range is split in halves, so that the loop runs on concrete
    inputs without a unary iteration bound. *)
Fixpoint for_pow2 {S R : Type} (body : N -> S -> step S R) (e : nat)
    (first : N) (s : S) : step S R :=
  match e with
  | O => body first s
  | Datatypes.S e' =>
      match for_pow2 body e' first s with
      | Continue s' => for_pow2 body e' (first + 2 ^ N.of_nat e') s'
      | Stop r => Stop r
      end
  end.

(** The same loop, one iteration at a time, for [count] iterations. *)
Fixpoint for_count {S R : Type} (body : N -> S -> step S R) (count : nat)
    (first : N) (s : S) : step S R :=
  match count with
  | O => Continue s
  | Datatypes.S count' =>
      match body first s with
      | Continue s' => for_count body count' (first + 1) s'
      | Stop r => Stop r
      end
  end.

(** ** The trace loop of [test_seed_for_cycle] *)

(** The body of
    [for (length_counter = 0; length_counter < POSSIBLE_STATES; length_counter++)]:
    mark the encoded state, [break] on a collision, otherwise advance. *)
Definition trace_body (length_counter : N) (s : bitarray * sfc8_t)
    : step (bitarray * sfc8_t) (N * bitarray) :=
  let '(array, state) := s in
  let '(collision, array) := test_and_set_bit array (encode_state state) in
  if collision then Stop (length_counter, array)
  else Continue (array, sfc8_advance state).

(** The loop from [length_counter = 0]: the value of [length_counter] after
    the loop, and the bit array it leaves.  [POSSIBLE_STATES] is [2^32]. *)
Definition trace_loop (array : bitarray) (state : sfc8_t) : N * bitarray :=
  match for_pow2 trace_body 32 0 (array, state) with
  | Stop r => r
  | Continue (array, _) => (POSSIBLE_STATES, array)
  end.

(** ** Global state *)

(** A pointer to a bit array is the address of its block; [NULL] is 0. *)
Definition NULL : N := 0.

(** [#define ARRAYS_TO_STORE 7] *)
Definition ARRAYS_TO_STORE : nat := 7.

(** The globals of the program, and the blocks obtained from [malloc] that
    have not been freed. *)
Record globals : Type := mk_globals {
  cycle_bit_array : N;
  tested_cycle_bit_arrays : list N;
  saved_cycle_lengths : list N;
  saved_array_count : nat;
  heap : gmap N bitarray
}.

(** [array[position]] for the two arrays of [ARRAYS_TO_STORE] entries. *)
Definition array_get (array : list N) (position : nat) : N :=
  default 0 (array !! position).

Definition set_cycle_bit_array (p : N) (g : globals) : globals :=
  mk_globals p (tested_cycle_bit_arrays g) (saved_cycle_lengths g)
    (saved_array_count g) (heap g).

Definition set_tested_cycle_bit_array (position : nat) (p : N) (g : globals)
    : globals :=
  mk_globals (cycle_bit_array g) (<[position := p]> (tested_cycle_bit_arrays g))
    (saved_cycle_lengths g) (saved_array_count g) (heap g).

Definition set_saved_cycle_length (position : nat) (len : N) (g : globals)
    : globals :=
  mk_globals (cycle_bit_array g) (tested_cycle_bit_arrays g)
    (<[position := len]> (saved_cycle_lengths g)) (saved_array_count g) (heap g).

Definition set_saved_array_count (n : nat) (g : globals) : globals :=
  mk_globals (cycle_bit_array g) (tested_cycle_bit_arrays g)
    (saved_cycle_lengths g) n (heap g).

Definition set_heap (h : gmap N bitarray) (g : globals) : globals :=
  mk_globals (cycle_bit_array g) (tested_cycle_bit_arrays g)
    (saved_cycle_lengths g) (saved_array_count g) h.

(** [free(p)] *)
Definition free (p : N) (g : globals) : globals :=
  set_heap (delete p (heap g)) g.

(** [malloc(BIT_ARRAY_SIZE)]: the allocator is a parameter of the program.
    From the live blocks it gives the address of the new block, or [NULL],
    and the contents the new block happens to have: [malloc] does not
    initialise it. *)
Definition allocator : Type := gmap N bitarray -> N * bitarray.

Definition malloc_block (malloc : allocator) (g : globals) : N * globals :=
  let '(p, contents) := malloc (heap g) in
  if p =? NULL then (p, g) else (p, set_heap (<[p := contents]> (heap g)) g).

(** The state before [main] runs: globals are zero-initialised
    ([static size_t saved_cycle_lengths[ARRAYS_TO_STORE] = {0}],
    [saved_array_count = 0]) and nothing is allocated. *)
Definition initial_globals : globals :=
  mk_globals NULL (replicate ARRAYS_TO_STORE NULL) (replicate ARRAYS_TO_STORE 0)
    0%nat ∅.

(** ** The cache of the longest cycles *)

(** The loop of [check_existing_arrays] over
    [array_idx = 0 .. saved_array_count - 1]; [ret_array_idx] is the value
    behind the result pointer. *)
Fixpoint check_loop (g : globals) (encoded_state : N) (indices : list nat)
    (ret_array_idx : nat) : outcome (bool * nat) :=
  match indices with
  | [] => Returns (false, ret_array_idx)
  | array_idx :: indices =>
      match heap g !! array_get (tested_cycle_bit_arrays g) array_idx with
      | None => Faults
      | Some array =>
          if test_bit array encoded_state then Returns (true, array_idx)
          else check_loop g encoded_state indices array_idx
      end
  end.

(** [check_existing_arrays]: the result and the final [*ret_array_idx]. *)
Definition check_existing_arrays (g : globals) (state : sfc8_t)
    (ret_array_idx : nat) : outcome (bool * nat) :=
  check_loop g (encode_state state) (seq 0 (saved_array_count g)) ret_array_idx.

(** The loop of [update_tested_cycles] over the remaining positions, with
    the locals [did_updates], [array_to_consider], [current_cycle_length]. *)
Fixpoint update_loop (positions : list nat) (did_updates : bool)
    (array_to_consider : N) (current_cycle_length : N) (g : globals)
    : bool * globals :=
  match positions with
  | [] => (did_updates, g)
  | position :: positions =>
      let compared_cycle_length := array_get (saved_cycle_lengths g) position in
      if compared_cycle_length <? current_cycle_length then
        let prev_bit_array := array_get (tested_cycle_bit_arrays g) position in
        let g := set_tested_cycle_bit_array position array_to_consider g in
        let g := set_saved_cycle_length position current_cycle_length g in
        if negb (prev_bit_array =? NULL) then
          if (position =? ARRAYS_TO_STORE - 1)%nat then
            update_loop positions true array_to_consider current_cycle_length
              (free prev_bit_array g)
          else
            update_loop positions true prev_bit_array compared_cycle_length g
        else
          (true, set_saved_array_count (Datatypes.S (saved_array_count g)) g)
      else
        update_loop positions did_updates array_to_consider
          current_cycle_length g
  end.

(** [update_tested_cycles]: the candidate fingerprint is the global
    [cycle_bit_array]. *)
Definition update_tested_cycles (cycle_length : N) (g : globals)
    : bool * globals :=
  if (saved_array_count g =? 0)%nat then
    let g := set_saved_array_count 1 g in
    let g := set_tested_cycle_bit_array 0 (cycle_bit_array g) g in
    let g := set_saved_cycle_length 0 cycle_length g in
    (true, g)
  else
    update_loop (seq 0 ARRAYS_TO_STORE) false (cycle_bit_array g) cycle_length g.

(** ** The per-seed driver *)

(** The initial state of a seed. *)
Definition seed_state (seed : N) : sfc8_t :=
  {| a := to_uint8 seed;
     b := to_uint8 (N.shiftr seed 8);
     c := to_uint8 (N.shiftr seed 16);
     d := 1 |}.

(** The part of [test_seed_for_cycle] before the trace: the cache lookup. *)
Definition lookup_seed (g : globals) (state : sfc8_t) : outcome (bool * nat) :=
  if (0 <? saved_array_count g)%nat then check_existing_arrays g state 0
  else Returns (false, 0%nat).

(** [memset(cycle_bit_array, 0, BIT_ARRAY_SIZE)] *)
Definition memset_scratch (g : globals) : outcome globals :=
  match heap g !! cycle_bit_array g with
  | None => Faults
  | Some _ => Returns (set_heap (<[cycle_bit_array g := zeroed]> (heap g)) g)
  end.

(** The trace loop on the block of [cycle_bit_array], the only block it
    reads and writes: the value of [length_counter] and the globals after
    the loop. *)
Definition run_trace (g : globals) (state : sfc8_t) : outcome (N * globals) :=
  match heap g !! cycle_bit_array g with
  | None => Faults
  | Some array =>
      let '(length_counter, array) := trace_loop array state in
      Returns (length_counter,
               set_heap (<[cycle_bit_array g := array]> (heap g)) g)
  end.

(** The part of [test_seed_for_cycle] between the lookup and the cache
    update: [memset], then the loop. *)
Definition trace_seed (g : globals) (state : sfc8_t) : outcome (N * globals) :=
  match memset_scratch g with
  | Faults => Faults
  | Exits status => Exits status
  | Returns g => run_trace g state
  end.

(** The part of [test_seed_for_cycle] after the loop: the cache update, and
    a new scratch array when the one just used went into the cache. *)
Definition finish_seed (malloc : allocator) (length_counter : N) (g : globals)
    : outcome (N * bool * globals) :=
  let '(updated, g) := update_tested_cycles length_counter g in
  if updated then
    let '(p, g) := malloc_block malloc g in
    let g := set_cycle_bit_array p g in
    if p =? NULL then Exits 1
    else Returns (length_counter, false, g)
  else Returns (length_counter, false, g).

(** [test_seed_for_cycle]: the returned length, [*was_on_known_cycle], and
    the globals. *)
Definition test_seed_for_cycle (malloc : allocator) (seed : N) (g : globals)
    : outcome (N * bool * globals) :=
  let state := seed_state seed in
  match lookup_seed g state with
  | Faults => Faults
  | Exits status => Exits status
  | Returns (true, return_index) =>
      Returns (array_get (saved_cycle_lengths g) return_index, true, g)
  | Returns (false, _) =>
      match trace_seed g state with
      | Faults => Faults
      | Exits status => Exits status
      | Returns (length_counter, g) => finish_seed malloc length_counter g
      end
  end.

(** ** [main] *)

(** The start of [main]: the slots are set to [NULL] and the first scratch
    array is allocated. *)
Definition main_init (malloc : allocator) : outcome globals :=
  let g := fold_left (fun g i => set_tested_cycle_bit_array i NULL g)
             (seq 0 ARRAYS_TO_STORE) initial_globals in
  let '(p, g) := malloc_block malloc g in
  let g := set_cycle_bit_array p g in
  if p =? NULL then Exits 1 else Returns g.

(** The body of the seed loop: the globals and the lines printed so far
    (seed and length, latest first). *)
Definition seed_body (malloc : allocator) (seed : N)
    (s : globals * list (N * N))
    : step (globals * list (N * N)) (outcome (list (N * N))) :=
  let '(g, printed) := s in
  match test_seed_for_cycle malloc seed g with
  | Faults => Stop Faults
  | Exits status => Stop (Exits status)
  | Returns (cycle_length, was_on_known_cycle, g) =>
      if was_on_known_cycle then Continue (g, printed)
      else Continue (g, (seed, cycle_length) :: printed)
  end.

(** [for (uint32_t seed = 0; seed < (1U << 24); seed++)] from the globals
    [g], with nothing printed yet. *)
Definition seed_loop (malloc : allocator) (g : globals)
    : step (globals * list (N * N)) (outcome (list (N * N))) :=
  for_pow2 (seed_body malloc) 24 0 (g, []).

(** [main]: the printed lines in order. *)
Definition main (malloc : allocator) : outcome (list (N * N)) :=
  match main_init malloc with
  | Faults => Faults
  | Exits status => Exits status
  | Returns g =>
      match seed_loop malloc g with
      | Stop r => r
      | Continue (g, printed) =>
          let g := free (cycle_bit_array g) g in
          let g := fold_left
                     (fun g i => free (array_get (tested_cycle_bit_arrays g) i) g)
                     (seq 0 (saved_array_count g)) g in
          Returns (rev printed)
      end
  end.

(** The scan of the first [count] seeds, one seed at a time. *)
Definition scan_seeds (malloc : allocator) (count : nat) (g : globals)
    : step (globals * list (N * N)) (outcome (list (N * N))) :=
  for_count (seed_body malloc) count 0 (g, []).

(** ** Trajectories

    The notions the properties of the trace are stated with. *)

(** The state reached from [s] after [i] transitions, and its key. *)
Definition orbit (s : sfc8_t) (i : N) : sfc8_t := N.iter i sfc8_advance s.
Definition orbit_key (s : sfc8_t) (i : N) : N := encode_state (orbit s i).

(** The array after the keys of the first [n] states of the trajectory of
    [state] were marked in [array]. *)
Fixpoint mark_orbit (array : bitarray) (state : sfc8_t) (n : nat) : bitarray :=
  match n with
  | O => array
  | Datatypes.S n' =>
      mark_orbit (snd (test_and_set_bit array (encode_state state)))
        (sfc8_advance state) n'
  end.

(** Iteration [i] of the trace loop finds the bit of its state clear. *)
Definition no_collision (array : bitarray) (s : sfc8_t) (i : nat) : Prop :=
  test_bit (mark_orbit array s i) (orbit_key s (N.of_nat i)) = false.

(** No bit of the array is set. *)
Definition all_clear (array : bitarray) : Prop :=
  forall k, test_bit array k = false.

(** The trajectory length [len] of [s] and the fingerprint [array] of the
    trajectory: the first [len] states have pairwise distinct keys, the
    state after them repeats one of these keys, and the bits set in the
    fingerprint are the keys of the first [len] states. *)
Definition trace_result (s : sfc8_t) (len : N) (array : bitarray) : Prop :=
  0 < len <= POSSIBLE_STATES /\
  (forall i j, i < j -> j < len -> orbit_key s i <> orbit_key s j) /\
  (exists i, i < len /\ orbit_key s i = orbit_key s len) /\
  (forall k, test_bit array k = true <-> exists i, i < len /\ k = orbit_key s i).

(** ** The cache as the specification sees it *)

(** The slots of the cache are consistent: both arrays have
    [ARRAYS_TO_STORE] entries, the slots below [saved_array_count] hold a
    fingerprint and the others hold [NULL] and length 0. *)
Definition cache_wf (g : globals) : Prop :=
  length (tested_cycle_bit_arrays g) = ARRAYS_TO_STORE /\
  length (saved_cycle_lengths g) = ARRAYS_TO_STORE /\
  (saved_array_count g <= ARRAYS_TO_STORE)%nat /\
  (forall i, (i < ARRAYS_TO_STORE)%nat ->
     array_get (tested_cycle_bit_arrays g) i <> NULL <->
     (i < saved_array_count g)%nat) /\
  (forall i, (saved_array_count g <= i)%nat ->
     array_get (saved_cycle_lengths g) i = 0).

(** The same, as a test on a concrete state. *)
Definition cache_okb (g : globals) : bool :=
  (length (tested_cycle_bit_arrays g) =? ARRAYS_TO_STORE)%nat &&
  (length (saved_cycle_lengths g) =? ARRAYS_TO_STORE)%nat &&
  (saved_array_count g <=? ARRAYS_TO_STORE)%nat &&
  forallb (fun i =>
      Bool.eqb (negb (array_get (tested_cycle_bit_arrays g) i =? NULL))
        (i <? saved_array_count g)%nat &&
      ((i <? saved_array_count g)%nat
       || (array_get (saved_cycle_lengths g) i =? 0)))
    (seq 0 ARRAYS_TO_STORE).

(** The stored lengths do not increase with the rank. *)
Definition lengths_sorted (g : globals) : Prop :=
  forall i j, (i < j)%nat ->
    array_get (saved_cycle_lengths g) j <= array_get (saved_cycle_lengths g) i.

(** The largest length of a retained record (0 for the empty cache). *)
Definition max_cached_length (g : globals) : N :=
  foldr N.max 0 (take (saved_array_count g) (saved_cycle_lengths g)).

(** The retained records, by rank: length and fingerprint pointer. *)
Definition cached_records (g : globals) : list (N * N) :=
  take (saved_array_count g)
    (zip (saved_cycle_lengths g) (tested_cycle_bit_arrays g)).

(** A sequence of [consider(length, fingerprint)] calls: each call passes
    its fingerprint in [cycle_bit_array]. *)
Definition consider (length_and_fingerprint : N * N) (g : globals)
    : bool * globals :=
  update_tested_cycles (fst length_and_fingerprint)
    (set_cycle_bit_array (snd length_and_fingerprint) g).

Definition consider_all (calls : list (N * N)) (g : globals) : globals :=
  fold_left (fun g call => snd (consider call g)) calls g.

(** The fingerprint at rank [i] is a live block with the bit of [key] set. *)
Definition cached_hit (g : globals) (key : N) (i : nat) : Prop :=
  exists array,
    heap g !! array_get (tested_cycle_bit_arrays g) i = Some array /\
    test_bit array key = true.

(** Every retained fingerprint is a live block. *)
Definition fingerprints_live (g : globals) : Prop :=
  forall i, (i < saved_array_count g)%nat ->
    is_Some (heap g !! array_get (tested_cycle_bit_arrays g) i).

(** What a sequence of calls preserves: sorted lengths, and no stored
    length before the first record. *)
Definition sorted_inv (g : globals) : Prop :=
  length (saved_cycle_lengths g) = ARRAYS_TO_STORE /\
  lengths_sorted g /\
  (saved_array_count g = 0%nat ->
   forall i, array_get (saved_cycle_lengths g) i = 0).

(** ** Invariants of the scan *)

(** The two assignments that put a record into a slot. *)
Definition store_slot (position : nat) (p len : N) (g : globals) : globals :=
  set_saved_cycle_length position len (set_tested_cycle_bit_array position p g).

(** No two retained records share a fingerprint block. *)
Definition slots_distinct (g : globals) : Prop :=
  forall i j, (i < saved_array_count g)%nat -> (j < saved_array_count g)%nat ->
    i <> j ->
    array_get (tested_cycle_bit_arrays g) i <> array_get (tested_cycle_bit_arrays g) j.

(** The block [p] is not the fingerprint of a retained record. *)
Definition not_cached (g : globals) (p : N) : Prop :=
  forall i, (i < saved_array_count g)%nat ->
    array_get (tested_cycle_bit_arrays g) i <> p.

(** The scratch array and the fingerprints are live blocks, each its own. *)
Definition heap_wf (g : globals) : Prop :=
  is_Some (heap g !! cycle_bit_array g) /\
  fingerprints_live g /\ slots_distinct g /\ not_cached g (cycle_bit_array g).

(** An allocator that never hands out a block that is still live. *)
Definition fresh_allocator (malloc : allocator) : Prop :=
  forall h, fst (malloc h) <> NULL -> h !! fst (malloc h) = None.

(** An allocator that always finds a block. *)
Definition never_fails (malloc : allocator) : Prop :=
  forall h, fst (malloc h) <> NULL.

(** The slots are consistent and the scratch pointer is not [NULL]. *)
Definition scratch_ok (g : globals) : Prop :=
  cache_wf g /\ cycle_bit_array g <> NULL.

(** From [g] to [g'] no record count and no stored length decreases. *)
Definition cache_grows (g g' : globals) : Prop :=
  (saved_array_count g <= saved_array_count g')%nat /\
  forall i, array_get (saved_cycle_lengths g) i <=
            array_get (saved_cycle_lengths g') i.

(** ** A cache with equal lengths

    Blocks 101 to 108 are allocated; seven [consider] calls from the empty
    cache leave the records (5, 107), (3, 102), (3, 103), (3, 104), (3, 105),
    (3, 106), (3, 101) at ranks 0 to 6, and block 108 is the next candidate. *)
Definition tie_blocks : gmap N bitarray :=
  list_to_map (map (fun p => (p, zeroed)) [101; 102; 103; 104; 105; 106; 107; 108]).

Definition tie_calls : list (N * N) :=
  [(3, 101); (3, 102); (3, 103); (3, 104); (3, 105); (3, 106); (5, 107)].

Definition tie_cache : globals :=
  set_cycle_bit_array 108
    (consider_all tie_calls (set_heap tie_blocks initial_globals)).

(** ** A small cache

    One record of length 42 whose fingerprint (block 10) has the bit of the
    initial state of seed 5 set; the scratch array (block 20) holds a stray
    bit. *)
Definition example_cache : globals :=
  mk_globals 20 [10; 0; 0; 0; 0; 0; 0] [42; 0; 0; 0; 0; 0; 0] 1
    (<[10 := {[262144 := 32]}]> {[20 := {[0 := 1]}]}).

(** An allocator that always fails. *)
Definition failing_malloc : allocator := fun _ => (NULL, zeroed).

(** An allocator that hands out the block after the last live one, with the
    given contents in it. *)
Definition next_block (h : gmap N bitarray) : N :=
  N.succ (foldr N.max 0 (fst <$> map_to_list h)).

Definition bump_malloc (contents : bitarray) : allocator :=
  fun h => (next_block h, contents).

(** The latter with a stray bit in every new block. *)
Definition stray_malloc : allocator := bump_malloc {[0 := 1]}.

(** ** The inverse of the transition

    The state that [sfc8_advance] leads from: the old [b] is recovered from
    the new [a] by undoing the xor-shift, the old [c] from the new [b] by
    dividing by 3 modulo 256 (171 is the inverse of 3), the old [d] by
    counting back, and the old [a] from the new [c] by subtracting the
    rotated [c], [b] and [d].  The program has no such function. *)
Definition sfc8_previous (s : sfc8_t) : sfc8_t :=
  let b0 := N.lxor (N.lxor (a s) (N.shiftr (a s) 2))
              (N.lxor (N.shiftr (a s) 4) (N.shiftr (a s) 6)) in
  let c0 := (171 * b s) mod 256 in
  let d0 := (d s + 255) mod 256 in
  let rot := rotate_left8 c0 3 in
  let t := (c s + (256 - rot)) mod 256 in
  let a0 := (t + (256 - b0) + (256 - d0)) mod 256 in
  mk_sfc8 a0 b0 c0 d0.

(** The values of a byte. *)
Definition bytes : list N := map N.of_nat (seq 0 256).

(** ** Blocks

    A bit array that is a block of [BIT_ARRAY_SIZE] bytes: it holds nothing
    past word [BIT_ARRAY_LENGTH], and every word is a [uint64_t]. *)
Definition block_ok (array : bitarray) : Prop :=
  forall word_index word,
    array !! word_index = Some word ->
    word_index < BIT_ARRAY_LENGTH /\ word < 2 ^ 64.

(** ** Sorted insertion

    Insertion into a list in non-increasing order, after the entries that
    are not smaller: of lengths, and of records by their lengths. *)
Fixpoint insert_desc (x : N) (l : list N) : list N :=
  match l with
  | [] => [x]
  | y :: l' => if y <? x then x :: l else y :: insert_desc x l'
  end.

Fixpoint insert_record (r : N * N) (l : list (N * N)) : list (N * N) :=
  match l with
  | [] => [r]
  | r' :: l' => if fst r' <? fst r then r :: l else r' :: insert_record r l'
  end.

(** The length of a retained record is larger than every length stored
    after it. *)
Definition lengths_distinct (g : globals) : Prop :=
  forall i j, (i < j)%nat -> (i < saved_array_count g)%nat ->
    array_get (saved_cycle_lengths g) j < array_get (saved_cycle_lengths g) i.

(** The slots of the cache as records: length and fingerprint pointer. *)
Definition cache_slots (g : globals) : list (N * N) :=
  zip (saved_cycle_lengths g) (tested_cycle_bit_arrays g).

(** ** What the scan keeps and prints *)

(** Every retained record is sound: its fingerprint is a live block that
    holds the marks of a trajectory, and its length is the length of that
    trajectory. *)
Definition records_sound (g : globals) : Prop :=
  forall i, (i < saved_array_count g)%nat ->
    exists array s,
      heap g !! array_get (tested_cycle_bit_arrays g) i = Some array /\
      valid_state s /\
      trace_result s (array_get (saved_cycle_lengths g) i) array.

(** A printed line: a seed below [bound] with the length of its trajectory. *)
Definition line_ok (bound : N) (line : N * N) : Prop :=
  fst line < bound /\
  snd line = fst (trace_loop zeroed (seed_state (fst line))).

(** The printed lines: seeds in increasing order, each with the length of
    its trajectory, the first of them seed 0. *)
Definition lines_ok (bound : N) (lines : list (N * N)) : Prop :=
  Forall (line_ok bound) lines /\
  StronglySorted (fun line line' => fst line < fst line') lines /\
  (0 < bound -> exists len rest, lines = (0, len) :: rest).

(** No key is marked in the fingerprints of two retained records. *)
Definition records_disjoint (g : globals) : Prop :=
  forall i j array array' key,
    (i < saved_array_count g)%nat -> (j < saved_array_count g)%nat -> i <> j ->
    heap g !! array_get (tested_cycle_bit_arrays g) i = Some array ->
    heap g !! array_get (tested_cycle_bit_arrays g) j = Some array' ->
    test_bit array key = true -> test_bit array' key = false.

(** ** What the output covers *)

(** Every retained record is the fingerprint and the length of the
    trajectory of a state with property [Q]. *)
Definition records_from (Q : sfc8_t -> Prop) (g : globals) : Prop :=
  forall i, (i < saved_array_count g)%nat ->
    exists array s,
      heap g !! array_get (tested_cycle_bit_arrays g) i = Some array /\
      Q s /\ valid_state s /\
      trace_result s (array_get (saved_cycle_lengths g) i) array.

(** The initial state of the seed of a printed line. *)
Definition printed_state (printed : list (N * N)) (s : sfc8_t) : Prop :=
  exists line, In line printed /\ s = seed_state (fst line).

(** Every seed below [bound] lies on the trajectory of the seed of a printed
    line that is not larger. *)
Definition seeds_covered (bound : N) (printed : list (N * N)) : Prop :=
  forall seed, seed < bound ->
    exists line j,
      In line printed /\ fst line <= seed /\
      seed_state seed = orbit (seed_state (fst line)) j.

(** ** Live blocks *)

(** Every live block is the scratch array or a retained fingerprint: no
    block is lost. *)
Definition no_leak (g : globals) : Prop :=
  forall p, is_Some (heap g !! p) ->
    p = cycle_bit_array g \/
    exists i, (i < saved_array_count g)%nat /\
      array_get (tested_cycle_bit_arrays g) i = p.

(** ** The end of [main] *)

(** [free(p)] with its precondition: nothing happens for [NULL]; any other
    [p] must address a live block, so that freeing a block twice, or a
    pointer that [malloc] never returned, is a fault. *)
Definition free_checked (p : N) (g : globals) : outcome globals :=
  if p =? NULL then Returns g
  else match heap g !! p with
       | None => Faults
       | Some _ => Returns (free p g)
       end.

(** [for (unsigned i = 0; i < saved_array_count; i++) free(tested_cycle_bit_arrays[i]);] *)
Fixpoint free_slots (indices : list nat) (g : globals) : outcome globals :=
  match indices with
  | [] => Returns g
  | i :: indices =>
      match free_checked (array_get (tested_cycle_bit_arrays g) i) g with
      | Returns g => free_slots indices g
      | Exits status => Exits status
      | Faults => Faults
      end
  end.

(** The end of [main]: the scratch array and the retained fingerprints are
    freed. *)
Definition main_cleanup (g : globals) : outcome globals :=
  match free_checked (cycle_bit_array g) g with
  | Returns g => free_slots (seq 0 (saved_array_count g)) g
  | Exits status => Exits status
  | Faults => Faults
  end.

(** ** The state before the first seed

    The state [main] is in when its first allocation gave block 1 with no
    bit set: nothing retained, the scratch array in block 1. *)
Definition first_globals : globals :=
  mk_globals 1 (replicate 7 0) (replicate 7 0) 0 {[1 := zeroed]}.

(** * Properties *)

(** ** Integer facts *)

(** [lia] reads division and remainder by a constant. *)
Ltac Zify.zify_post_hook ::= Z.to_euclidean_division_equations.

Ltac pow2_constants :=
  change (2 ^ 8) with 256 in *; change (2 ^ 16) with 65536 in *;
  change (2 ^ 24) with 16777216 in *; change (2 ^ 32) with 4294967296 in *.

Lemma N_lt_pow2_bits_high x k m : x < 2 ^ k -> k <= m -> N.testbit x m = false.
Proof.
  intros Hx Hm. rewrite <- (N.mod_small x (2 ^ k)) by exact Hx.
  apply N.mod_pow2_bits_high, Hm.
Qed.

(** Or-ing in a value shifted past every bit of the other operand adds it. *)
Lemma lor_shiftl_add x y k :
  x < 2 ^ k -> N.lor x (N.shiftl y k) = x + y * 2 ^ k.
Proof.
  intros Hx. rewrite N.shiftl_mul_pow2.
  assert (Hland : N.land x (y * 2 ^ k) = 0).
  { apply N.bits_inj. intros m. rewrite N.land_spec, N.bits_0.
    destruct (N.lt_ge_cases m k) as [Hm | Hm].
    - rewrite N.mul_pow2_bits_low by exact Hm. apply andb_false_r.
    - rewrite (N_lt_pow2_bits_high x k m Hx Hm). reflexivity. }
  rewrite <- N.lxor_lor by exact Hland.
  symmetry. apply N.add_nocarry_lxor, Hland.
Qed.

Lemma to_uint8_lt x : to_uint8 x < 256.
Proof. apply N.mod_lt. discriminate. Qed.

Lemma lxor_shiftr_byte x :
  x < 256 -> to_uint8 (N.lxor x (N.shiftr x 2)) = N.lxor x (N.shiftr x 2).
Proof.
  intros Hx. unfold to_uint8. change 256 with (2 ^ 8) in *.
  apply N.bits_inj. intros m.
  destruct (N.lt_ge_cases m 8) as [Hm | Hm].
  - apply N.mod_pow2_bits_low, Hm.
  - rewrite N.mod_pow2_bits_high by exact Hm.
    rewrite N.lxor_spec, N.shiftr_spec', (N_lt_pow2_bits_high x 8 m Hx Hm).
    rewrite (N_lt_pow2_bits_high x 8 (m + 2) Hx) by lia. reflexivity.
Qed.

(** ** The generator and the encoding *)

Lemma sfc8_advance_valid s : valid_state (sfc8_advance s).
Proof. repeat split; apply to_uint8_lt. Qed.

Lemma seed_state_valid seed : valid_state (seed_state seed).
Proof. repeat split; apply to_uint8_lt. Qed.

Lemma encode_state_sum s :
  valid_state s ->
  encode_state s = a s + b s * 2 ^ 8 + c s * 2 ^ 16 + d s * 2 ^ 24.
Proof.
  intros (Ha & Hb & Hc & Hd). unfold encode_state, to_uint32.
  do 3 (rewrite N.mod_small by (rewrite N.shiftl_mul_pow2; pow2_constants; lia)).
  rewrite (lor_shiftl_add (a s) (b s) 8) by exact Ha.
  rewrite (lor_shiftl_add _ (c s) 16) by (pow2_constants; lia).
  rewrite (lor_shiftl_add _ (d s) 24) by (pow2_constants; lia).
  reflexivity.
Qed.

(** The bits of a key, field by field. *)
Lemma encode_state_testbit s n :
  N.testbit (encode_state s) n =
  N.testbit (a s) n
  || (N.ltb n 32 && N.leb 8 n && N.testbit (b s) (n - 8))
  || (N.ltb n 32 && N.leb 16 n && N.testbit (c s) (n - 16))
  || (N.ltb n 32 && N.leb 24 n && N.testbit (d s) (n - 24)).
Proof.
  assert (Hshift : forall x k,
            N.testbit (to_uint32 (N.shiftl x k)) n =
            N.ltb n 32 && N.leb k n && N.testbit x (n - k)).
  { intros x k. unfold to_uint32.
    destruct (N.ltb_spec n 32) as [Hn | Hn]; cbn [andb].
    - rewrite N.mod_pow2_bits_low by exact Hn.
      destruct (N.leb_spec k n) as [Hk | Hk]; cbn [andb].
      + apply N.shiftl_spec_high'. exact Hk.
      + apply N.shiftl_spec_low. exact Hk.
    - apply N.mod_pow2_bits_high. exact Hn. }
  unfold encode_state. rewrite !N.lor_spec, !Hshift. reflexivity.
Qed.

Lemma encode_state_bits s i :
  valid_state s -> i < 8 ->
  N.testbit (encode_state s) i = N.testbit (a s) i /\
  N.testbit (encode_state s) (8 + i) = N.testbit (b s) i /\
  N.testbit (encode_state s) (16 + i) = N.testbit (c s) i /\
  N.testbit (encode_state s) (24 + i) = N.testbit (d s) i.
Proof.
  intros (Ha & Hb & Hc & Hd) Hi.
  assert (Hhigh : forall x m, x < 256 -> 8 <= m -> N.testbit x m = false)
    by (intros x m Hx Hm; apply (N_lt_pow2_bits_high x 8 m Hx Hm)).
  rewrite !encode_state_testbit.
  repeat match goal with
  | |- context [N.ltb ?x ?y] => destruct (N.ltb_spec x y); try lia
  | |- context [N.leb ?x ?y] => destruct (N.leb_spec x y); try lia
  end; cbn [andb orb].
  replace (8 + i - 8) with i by lia. replace (16 + i - 16) with i by lia.
  replace (24 + i - 24) with i by lia.
  replace (16 + i - 8) with (8 + i) by lia.
  replace (24 + i - 8) with (16 + i) by lia.
  replace (24 + i - 16) with (8 + i) by lia.
  rewrite (Hhigh (a s) (8 + i)), (Hhigh (a s) (16 + i)), (Hhigh (a s) (24 + i)),
    (Hhigh (b s) (8 + i)), (Hhigh (b s) (16 + i)), (Hhigh (c s) (8 + i)) by lia.
  rewrite !orb_false_r. cbn [orb]. repeat split.
Qed.

Lemma encode_state_lt s : valid_state s -> encode_state s < POSSIBLE_STATES.
Proof.
  intros Hs. rewrite encode_state_sum by exact Hs.
  destruct Hs as (Ha & Hb & Hc & Hd).
  change POSSIBLE_STATES with 4294967296. pow2_constants. lia.
Qed.

Lemma decode_encode_state s : valid_state s -> decode_state (encode_state s) = s.
Proof.
  intros Hs. rewrite encode_state_sum by exact Hs.
  destruct s as [sa sb sc sd]. destruct Hs as (Ha & Hb & Hc & Hd).
  unfold decode_state. simpl in *. pow2_constants.
  f_equal; lia.
Qed.

Lemma encode_state_inj s s' :
  valid_state s -> valid_state s' -> encode_state s = encode_state s' -> s = s'.
Proof.
  intros Hs Hs' Heq.
  rewrite <- (decode_encode_state s Hs), <- (decode_encode_state s' Hs').
  now rewrite Heq.
Qed.

Lemma decode_state_valid key : valid_state (decode_state key).
Proof. repeat split; apply N.mod_lt; discriminate. Qed.

Lemma encode_decode_state key :
  key < 2 ^ 32 -> encode_state (decode_state key) = key.
Proof.
  intros Hk. rewrite encode_state_sum by apply decode_state_valid.
  unfold decode_state. simpl. pow2_constants.
  lia.
Qed.

(** ** Bit vectors *)

Lemma land_bit_test w i : negb (N.land w (N.shiftl 1 i) =? 0) = N.testbit w i.
Proof.
  rewrite N.shiftl_1_l.
  destruct (N.testbit w i) eqn:Hbit.
  - apply negb_true_iff, N.eqb_neq. intros H0.
    assert (Hi : N.testbit (N.land w (2 ^ i)) i = true).
    { rewrite N.land_spec, Hbit, N.pow2_bits_true. reflexivity. }
    rewrite H0, N.bits_0 in Hi. discriminate.
  - apply negb_false_iff, N.eqb_eq, N.bits_inj. intros m.
    rewrite N.land_spec, N.bits_0, N.pow2_bits_eqb.
    destruct (N.eqb_spec i m) as [<- | _].
    + rewrite Hbit. reflexivity.
    + apply andb_false_r.
Qed.

Lemma BIT_INDEX_mod k : BIT_INDEX k = k mod 64.
Proof.
  unfold BIT_INDEX, to_uint8. change 63 with (N.ones 6).
  rewrite N.land_ones. change (2 ^ 6) with 64. lia.
Qed.

Lemma WORD_INDEX_div k : WORD_INDEX k = k / 64.
Proof. unfold WORD_INDEX. rewrite N.shiftr_div_pow2. reflexivity. Qed.

(** Every key of the [2^32] key domain addresses a word of the block. *)
Lemma WORD_INDEX_lt k : k < POSSIBLE_STATES -> WORD_INDEX k < BIT_ARRAY_LENGTH.
Proof.
  intros Hk. rewrite WORD_INDEX_div.
  change BIT_ARRAY_LENGTH with 67108864. change POSSIBLE_STATES with 4294967296 in Hk.
  lia.
Qed.

Lemma test_bit_testbit array k :
  test_bit array k = N.testbit (read_word array (k / 64)) (k mod 64).
Proof.
  unfold test_bit. rewrite land_bit_test, BIT_INDEX_mod, WORD_INDEX_div. reflexivity.
Qed.

Lemma test_bit_zeroed k : test_bit zeroed k = false.
Proof.
  rewrite test_bit_testbit. unfold read_word, zeroed. rewrite lookup_empty. simpl.
  apply (N.bits_0 (k mod 64)).
Qed.

Lemma test_and_set_bit_fst array k : fst (test_and_set_bit array k) = test_bit array k.
Proof. reflexivity. Qed.

Lemma test_and_set_bit_snd array k k' :
  test_bit (snd (test_and_set_bit array k)) k' = (k =? k') || test_bit array k'.
Proof.
  unfold test_and_set_bit. simpl. rewrite !test_bit_testbit.
  rewrite BIT_INDEX_mod, WORD_INDEX_div. unfold read_word.
  destruct (N.eqb_spec k k') as [<- | Hne].
  - rewrite lookup_insert_eq. simpl. rewrite N.lor_spec, N.shiftl_1_l, N.pow2_bits_true.
    apply orb_true_r.
  - simpl. destruct (N.eq_dec (k / 64) (k' / 64)) as [Hw | Hw].
    + rewrite <- Hw, lookup_insert_eq. simpl.
      rewrite N.lor_spec, N.shiftl_1_l, N.pow2_bits_false; [apply orb_false_r |].
      intros Hm. apply Hne. lia.
    + rewrite lookup_insert_ne by exact Hw. reflexivity.
Qed.

(** ** Loops *)

(** Iterations can be run in two batches. *)
Lemma for_count_add {S R} (body : N -> S -> step S R) n m first s :
  for_count body (n + m) first s =
  match for_count body n first s with
  | Continue s' => for_count body m (first + N.of_nat n) s'
  | Stop r => Stop r
  end.
Proof.
  revert first s. induction n as [| n IH]; intros first s.
  - simpl. rewrite N.add_0_r. reflexivity.
  - cbn [for_count Nat.add]. destruct (body first s) as [s' | r]; [| reflexivity].
    rewrite IH. replace (first + 1 + N.of_nat n) with (first + N.of_nat (Datatypes.S n)) by lia.
    reflexivity.
Qed.

(** The loop split in halves is the loop run one iteration at a time. *)
Lemma for_pow2_count {S R} (body : N -> S -> step S R) e first s :
  for_pow2 body e first s = for_count body (2 ^ e)%nat first s.
Proof.
  revert first s. induction e as [| e IH]; intros first s.
  - simpl. destruct (body first s); reflexivity.
  - cbn [for_pow2].
    replace (2 ^ Datatypes.S e)%nat with (2 ^ e + 2 ^ e)%nat
      by (rewrite Nat.pow_succ_r'; lia).
    rewrite for_count_add, <- IH.
    destruct (for_pow2 body e first s) as [s' | r]; [| reflexivity].
    rewrite IH, Nat2N.inj_pow. reflexivity.
Qed.

(** ** The trace *)

Lemma orbit_succ s i : orbit s (N.succ i) = sfc8_advance (orbit s i).
Proof. unfold orbit. apply N.iter_succ. Qed.

Lemma orbit_advance s i : orbit (sfc8_advance s) i = orbit s (N.succ i).
Proof.
  unfold orbit. rewrite N.iter_succ_r. reflexivity.
Qed.

Lemma orbit_valid s i : valid_state s -> valid_state (orbit s i).
Proof.
  intros Hs. induction i as [| i IH] using N.peano_ind; [exact Hs |].
  rewrite orbit_succ. apply sfc8_advance_valid.
Qed.

(** The bits of an array after the first [n] states were marked. *)
Lemma test_bit_mark_orbit array s n k :
  test_bit (mark_orbit array s n) k = true <->
  test_bit array k = true \/ exists i, i < N.of_nat n /\ k = orbit_key s i.
Proof.
  revert array s. induction n as [| n IH]; intros array s.
  - simpl. split; [auto | intros [H | (i & Hi & _)]; [exact H | lia]].
  - cbn [mark_orbit]. rewrite IH, test_and_set_bit_snd, orb_true_iff, N.eqb_eq.
    split.
    + intros [[Hk | Hk] | (i & Hi & Hk)].
      * right. exists 0. split; [lia | symmetry; exact Hk].
      * left. exact Hk.
      * right. exists (N.succ i). split; [lia |].
        unfold orbit_key. rewrite <- orbit_advance. exact Hk.
    + intros [Hk | (i & Hi & Hk)]; [left; right; exact Hk |].
      destruct (N.eq_dec i 0) as [-> | Hi0].
      * left. left. symmetry. exact Hk.
      * right. exists (N.pred i). split; [lia |].
        unfold orbit_key. rewrite orbit_advance, N.succ_pred by exact Hi0. exact Hk.
Qed.

Lemma for_count_trace n first array s :
  match for_count trace_body n first (array, s) with
  | Continue (array', s') =>
      array' = mark_orbit array s n /\ s' = orbit s (N.of_nat n) /\
      forall i, (i < n)%nat -> no_collision array s i
  | Stop (len, array') =>
      exists m, (m < n)%nat /\ len = first + N.of_nat m /\
        (forall i, (i < m)%nat -> no_collision array s i) /\
        test_bit (mark_orbit array s m) (orbit_key s (N.of_nat m)) = true /\
        array' = mark_orbit array s (Datatypes.S m)
  end.
Proof.
  revert first array s. induction n as [| n IH]; intros first array s.
  - simpl. repeat split. intros i Hi. lia.
  - cbn [for_count]. unfold trace_body at 1.
    destruct (test_and_set_bit array (encode_state s)) as [collision array1] eqn:Hts.
    assert (Hc : collision = test_bit array (encode_state s))
      by (rewrite <- test_and_set_bit_fst, Hts; reflexivity).
    assert (Ha : array1 = snd (test_and_set_bit array (encode_state s)))
      by (rewrite Hts; reflexivity).
    destruct collision.
    + exists 0%nat. repeat split.
      * lia.
      * simpl. lia.
      * intros i Hi. lia.
      * symmetry. exact Hc.
      * rewrite Ha. reflexivity.
    + specialize (IH (first + 1) array1 (sfc8_advance s)).
      assert (Hshift : forall i k,
                 test_bit (mark_orbit array1 (sfc8_advance s) i)
                   (orbit_key (sfc8_advance s) (N.of_nat i)) = k ->
                 test_bit (mark_orbit array s (Datatypes.S i))
                   (orbit_key s (N.of_nat (Datatypes.S i))) = k).
      { intros i k Hk. cbn [mark_orbit]. rewrite <- Ha.
        unfold orbit_key in *. rewrite Nat2N.inj_succ, <- orbit_advance. exact Hk. }
      destruct (for_count trace_body n (first + 1) (array1, sfc8_advance s))
        as [[array' s'] | [len array']].
      * destruct IH as (-> & -> & Hno). repeat split.
        -- cbn [mark_orbit]. rewrite <- Ha. reflexivity.
        -- rewrite Nat2N.inj_succ, <- orbit_advance. reflexivity.
        -- intros [| i] Hi; [unfold no_collision; symmetry; exact Hc |].
           apply Hshift, Hno. lia.
      * destruct IH as (m & Hm & -> & Hno & Hhit & ->).
        exists (Datatypes.S m). repeat split.
        -- lia.
        -- lia.
        -- intros [| i] Hi; [unfold no_collision; symmetry; exact Hc |].
           apply Hshift, Hno. lia.
        -- apply Hshift, Hhit.
        -- cbn [mark_orbit]. rewrite <- Ha. reflexivity.
Qed.

(** Pairwise distinct values below a bound are at most as many as the bound. *)
Lemma pigeonhole (f : nat -> N) (m : nat) (bound : N) :
  (forall i, (i < m)%nat -> f i < bound) ->
  (forall i j, (i < j)%nat -> (j < m)%nat -> f i <> f j) ->
  N.of_nat m <= bound.
Proof.
  intros Hlt Hinj.
  set (l := map f (seq 0 m)).
  set (l' := map N.of_nat (seq 0 (N.to_nat bound))).
  assert (Hnd : NoDup l).
  { apply NoDup_alt. intros i j x Hi Hj. unfold l in *.
    rewrite list_lookup_fmap in Hi, Hj.
    destruct (seq 0 m !! i) as [i' |] eqn:Ei; [| discriminate].
    destruct (seq 0 m !! j) as [j' |] eqn:Ej; [| discriminate].
    apply lookup_seq in Ei as [-> Hi'], Ej as [-> Hj']. simpl in *.
    injection Hi as <-. injection Hj as Hj.
    destruct (Nat.lt_total i j) as [Hij | [Hij | Hij]]; [| exact Hij |].
    - exfalso. apply (Hinj i j Hij Hj'). symmetry. exact Hj.
    - exfalso. apply (Hinj j i Hij Hi'). exact Hj. }
  assert (Hincl : incl l l').
  { intros x Hx. unfold l, l' in *. apply in_map_iff in Hx as (i & <- & Hi).
    apply in_seq in Hi. apply in_map_iff. exists (N.to_nat (f i)). split; [lia |].
    apply in_seq. specialize (Hlt i ltac:(lia)). lia. }
  apply NoDup_ListNoDup in Hnd.
  pose proof (NoDup_incl_length Hnd Hincl) as Hlen.
  unfold l, l' in Hlen. rewrite !length_map, !length_seq in Hlen. lia.
Qed.

Lemma pow2_32_nat : N.of_nat (2 ^ 32)%nat = POSSIBLE_STATES.
Proof. rewrite Nat2N.inj_pow. reflexivity. Qed.

Lemma test_bit_mark_clear array s n k :
  all_clear array ->
  test_bit (mark_orbit array s n) k = true <->
  exists i, i < N.of_nat n /\ k = orbit_key s i.
Proof.
  intros Hclear. rewrite test_bit_mark_orbit, Hclear.
  split; [intros [H | H]; [discriminate | exact H] | auto].
Qed.

Lemma no_collision_distinct array s n :
  all_clear array ->
  (forall i, (i < n)%nat -> no_collision array s i) ->
  forall i j, i < j -> j < N.of_nat n -> orbit_key s i <> orbit_key s j.
Proof.
  intros Hclear Hno i j Hij Hj Heq.
  specialize (Hno (N.to_nat j) ltac:(lia)). unfold no_collision in Hno.
  rewrite N2Nat.id in Hno.
  assert (Hbit : test_bit (mark_orbit array s (N.to_nat j)) (orbit_key s j) = true).
  { apply test_bit_mark_clear; [exact Hclear |]. exists i. split; [lia | symmetry; exact Heq]. }
  congruence.
Qed.

Lemma trace_loop_clear array s :
  valid_state s -> all_clear array ->
  trace_result s (fst (trace_loop array s)) (snd (trace_loop array s)).
Proof.
  intros Hs Hclear. unfold trace_loop. rewrite for_pow2_count.
  pose proof pow2_32_nat as Hn. revert Hn.
  generalize (2 ^ 32)%nat. intros n Hn.
  pose proof (for_count_trace n 0 array s) as Hloop.
  destruct (for_count trace_body n 0 (array, s)) as [[array' s'] | [len array']].
  - destruct Hloop as (-> & -> & Hno). cbn [fst snd].
    pose proof (no_collision_distinct array s n Hclear Hno) as Hdist.
    assert (Hrep : exists i, i < POSSIBLE_STATES /\
                     orbit_key s i = orbit_key s POSSIBLE_STATES).
    { destruct (test_bit (mark_orbit array s n) (orbit_key s POSSIBLE_STATES))
        eqn:Hbit.
      - apply test_bit_mark_clear in Hbit as (i & Hi & Hk); [| exact Hclear].
        exists i. split; [lia | symmetry; exact Hk].
      - exfalso.
        assert (Hle : N.of_nat (Datatypes.S n) <= POSSIBLE_STATES).
        { apply (pigeonhole (fun i => orbit_key s (N.of_nat i))).
          - intros i _. apply encode_state_lt, orbit_valid, Hs.
          - intros i j Hij Hj Heq.
            destruct (Nat.eq_dec j n) as [-> | Hjn].
            + rewrite Hn in Heq.
              assert (Hin : test_bit (mark_orbit array s n)
                              (orbit_key s POSSIBLE_STATES) = true).
              { apply test_bit_mark_clear; [exact Hclear |].
                exists (N.of_nat i). split; [lia | symmetry; exact Heq]. }
              congruence.
            + apply (Hdist (N.of_nat i) (N.of_nat j)); [lia | lia | exact Heq]. }
        lia. }
    split; [| split; [| split; [| split]]].
    + split; [reflexivity | apply N.le_refl].
    + intros i j Hij Hj. apply Hdist; lia.
    + exact Hrep.
    + intros Hk. apply test_bit_mark_clear in Hk as (i & Hi & Hk); [| exact Hclear].
      exists i. split; [lia | exact Hk].
    + intros (i & Hi & Hk). apply test_bit_mark_clear; [exact Hclear |].
      exists i. split; [lia | exact Hk].
  - destruct Hloop as (m & Hm & -> & Hno & Hhit & ->). cbn [fst snd].
    rewrite N.add_0_l.
    pose proof (no_collision_distinct array s m Hclear Hno) as Hdist.
    apply test_bit_mark_clear in Hhit as (i0 & Hi0 & Hk0); [| exact Hclear].
    split; [| split; [| split; [| split]]].
    + lia.
    + exact Hdist.
    + exists i0. split; [exact Hi0 | symmetry; exact Hk0].
    + intros Hk. apply test_bit_mark_clear in Hk as (i & Hi & Hk); [| exact Hclear].
      destruct (N.eq_dec i (N.of_nat m)) as [-> | Hne].
      * exists i0. split; [exact Hi0 | congruence].
      * exists i. split; [lia | exact Hk].
    + intros (i & Hi & Hk). apply test_bit_mark_clear; [exact Hclear |].
      exists i. split; [lia | exact Hk].
Qed.

(** A loop that stops does so in a first iteration [m]. *)
Lemma for_count_stop {S R} (body : N -> S -> step S R) n first s r :
  for_count body n first s = Stop r ->
  exists m s', (m < n)%nat /\ for_count body m first s = Continue s' /\
    body (first + N.of_nat m) s' = Stop r.
Proof.
  revert first s. induction n as [| n IH]; intros first s Hstop; [discriminate |].
  cbn [for_count] in Hstop. destruct (body first s) as [s1 | r1] eqn:Hbody.
  - apply IH in Hstop as (m & s' & Hm & Hrun & Hlast).
    exists (Datatypes.S m), s'. split; [lia |]. split.
    + cbn [for_count]. rewrite Hbody. exact Hrun.
    + rewrite <- Hlast. f_equal. lia.
  - exists 0%nat, s. split; [lia |]. split; [reflexivity |].
    rewrite N.add_0_r, Hbody. exact Hstop.
Qed.

Lemma trace_body_stop length_counter array s r :
  trace_body length_counter (array, s) = Stop r -> fst r = length_counter.
Proof.
  unfold trace_body. destruct (test_and_set_bit array (encode_state s)) as [[] ?].
  - intros [= <-]. reflexivity.
  - discriminate.
Qed.

(** The loop reaches its result after at most [POSSIBLE_STATES] iterations:
    one more than the returned length when it breaks. *)
Lemma trace_loop_iterations array s :
  exists iterations : nat,
    N.of_nat iterations = N.min (fst (trace_loop array s) + 1) POSSIBLE_STATES /\
    trace_loop array s =
      match for_count trace_body iterations 0 (array, s) with
      | Stop r => r
      | Continue (array', _) => (POSSIBLE_STATES, array')
      end.
Proof.
  unfold trace_loop. rewrite for_pow2_count.
  pose proof pow2_32_nat as Hn. revert Hn.
  generalize (2 ^ 32)%nat. intros n Hn.
  destruct (for_count trace_body n 0 (array, s)) as [[array' s'] | r] eqn:Hrun.
  - exists n. rewrite Hrun. cbn [fst]. split; [| reflexivity].
    rewrite Hn. change POSSIBLE_STATES with 4294967296. reflexivity.
  - apply for_count_stop in Hrun as (m & [array' s'] & Hm & Hrun & Hlast).
    exists (m + 1)%nat. rewrite for_count_add, Hrun. cbn [for_count].
    rewrite Hlast. split; [| reflexivity].
    apply trace_body_stop in Hlast. rewrite Hlast. lia.
Qed.

(** ** The cache update *)

Ltac simpl_globals :=
  cbn [fst snd cycle_bit_array tested_cycle_bit_arrays saved_cycle_lengths
       saved_array_count heap set_cycle_bit_array set_tested_cycle_bit_array
       set_saved_cycle_length set_saved_array_count set_heap free] in *.

Lemma array_get_insert (l : list N) p x i :
  (p < length l)%nat ->
  array_get (<[p := x]> l) i = if decide (i = p) then x else array_get l i.
Proof.
  intros Hp. unfold array_get. destruct (decide (i = p)) as [-> | Hne].
  - rewrite list_lookup_insert_eq by exact Hp. reflexivity.
  - rewrite list_lookup_insert_ne by congruence. reflexivity.
Qed.

Lemma array_get_insert_eq (l : list N) p x :
  (p < length l)%nat -> array_get (<[p := x]> l) p = x.
Proof. intros Hp. rewrite array_get_insert by exact Hp. apply decide_True. reflexivity. Qed.

Lemma array_get_insert_ne (l : list N) p x i :
  i <> p -> array_get (<[p := x]> l) i = array_get l i.
Proof.
  intros Hne. unfold array_get. rewrite list_lookup_insert_ne by congruence. reflexivity.
Qed.

Lemma array_get_ge (l : list N) i : (length l <= i)%nat -> array_get l i = 0.
Proof. intros Hi. unfold array_get. rewrite lookup_ge_None_2 by exact Hi. reflexivity. Qed.

(** Once an update was made the loop reports it. *)
Lemma update_loop_true positions cp cl g :
  fst (update_loop positions true cp cl g) = true.
Proof.
  revert cp cl g. induction positions as [| p positions IH]; intros cp cl g.
  - reflexivity.
  - cbn [update_loop].
    destruct (array_get (saved_cycle_lengths g) p <? cl); [| apply IH].
    destruct (negb _); [| reflexivity].
    destruct (p =? ARRAYS_TO_STORE - 1)%nat; apply IH.
Qed.

(** The loop reports no update exactly when the candidate is larger than
    none of the stored lengths, and then it changes nothing. *)
Lemma update_loop_false positions cp cl g :
  (fst (update_loop positions false cp cl g) = false <->
   forall p, p ∈ positions -> cl <= array_get (saved_cycle_lengths g) p) /\
  (fst (update_loop positions false cp cl g) = false ->
   snd (update_loop positions false cp cl g) = g).
Proof.
  induction positions as [| p positions IH].
  - cbn [update_loop fst snd]. split; [| reflexivity].
    split; [| reflexivity]. intros _ p Hp. inversion Hp.
  - cbn [update_loop].
    destruct (N.ltb_spec (array_get (saved_cycle_lengths g) p) cl) as [Hlt | Hge].
    + match goal with
      | |- (fst ?run = false <-> _) /\ _ => assert (Htrue : fst run = true)
      end.
      { destruct (negb _); [| reflexivity].
        destruct (p =? ARRAYS_TO_STORE - 1)%nat; apply update_loop_true. }
      split; [| intros Hf; congruence].
      split; [intros Hf; congruence |].
      intros Hall. specialize (Hall p ltac:(left)). lia.
    + destruct IH as [IH1 IH2]. split; [| exact IH2].
      rewrite IH1. split.
      * intros Hall q Hq. inversion Hq; subst; [exact Hge | apply Hall; assumption].
      * intros Hall q Hq. apply Hall. right. exact Hq.
Qed.

(** ** The stored lengths stay sorted *)

Lemma update_loop_sorted n p did cp cl g :
  length (saved_cycle_lengths g) = ARRAYS_TO_STORE ->
  (p + n <= ARRAYS_TO_STORE)%nat ->
  lengths_sorted g ->
  (forall i, (i < p)%nat -> cl <= array_get (saved_cycle_lengths g) i) ->
  lengths_sorted (snd (update_loop (seq p n) did cp cl g)) /\
  length (saved_cycle_lengths (snd (update_loop (seq p n) did cp cl g)))
    = ARRAYS_TO_STORE.
Proof.
  revert p did cp cl g. induction n as [| n IH]; intros p did cp cl g Hlen Hp Hsorted Hcl.
  - cbn [seq update_loop snd]. split; assumption.
  - cbn [seq update_loop].
    destruct (N.ltb_spec (array_get (saved_cycle_lengths g) p) cl) as [Hlt | Hge].
    + set (g1 := set_saved_cycle_length p cl (set_tested_cycle_bit_array p cp g)).
      assert (Hlen1 : length (saved_cycle_lengths g1) = ARRAYS_TO_STORE)
        by (unfold g1; cbn; rewrite length_insert; exact Hlen).
      assert (Hget1 : forall i, array_get (saved_cycle_lengths g1) i =
                 if decide (i = p) then cl else array_get (saved_cycle_lengths g) i).
      { intros i. unfold g1. cbn. apply array_get_insert. rewrite Hlen. lia. }
      assert (Hsorted1 : lengths_sorted g1).
      { intros i j Hij. rewrite !Hget1.
        destruct (decide (j = p)) as [-> | Hjp], (decide (i = p)) as [-> | Hip].
        - lia.
        - apply Hcl. lia.
        - specialize (Hsorted p j Hij). lia.
        - apply Hsorted, Hij. }
      destruct (negb (array_get (tested_cycle_bit_arrays g) p =? NULL)).
      * destruct (p =? ARRAYS_TO_STORE - 1)%nat.
        -- apply IH; [exact Hlen1 | lia | exact Hsorted1 |].
           intros i Hi. change (saved_cycle_lengths (free _ g1))
             with (saved_cycle_lengths g1). rewrite Hget1.
           destruct (decide (i = p)); [lia | apply Hcl; lia].
        -- apply IH; [exact Hlen1 | lia | exact Hsorted1 |].
           intros i Hi. rewrite Hget1.
           destruct (decide (i = p)) as [-> | Hip]; [lia |].
           apply (Hsorted i p). lia.
      * cbn [snd]. split; [exact Hsorted1 | exact Hlen1].
    + apply IH; [exact Hlen | lia | exact Hsorted |].
      intros i Hi. destruct (decide (i = p)) as [-> | Hip]; [exact Hge | apply Hcl; lia].
Qed.

Lemma update_loop_count positions did cp cl g :
  (saved_array_count g <= saved_array_count (snd (update_loop positions did cp cl g)))%nat.
Proof.
  revert did cp cl g. induction positions as [| p positions IH]; intros did cp cl g.
  - reflexivity.
  - cbn [update_loop].
    destruct (array_get (saved_cycle_lengths g) p <? cl); [| apply IH].
    destruct (negb _); [| cbn; lia].
    destruct (p =? ARRAYS_TO_STORE - 1)%nat;
      (etransitivity; [| apply IH]); reflexivity.
Qed.

Lemma update_tested_cycles_count cycle_length g :
  (saved_array_count g <= saved_array_count (snd (update_tested_cycles cycle_length g)))%nat /\
  saved_array_count (snd (update_tested_cycles cycle_length g)) <> 0%nat.
Proof.
  unfold update_tested_cycles.
  destruct (Nat.eqb_spec (saved_array_count g) 0) as [Hz | Hnz].
  - cbn. lia.
  - pose proof (update_loop_count (seq 0 ARRAYS_TO_STORE) false (cycle_bit_array g)
                  cycle_length g). lia.
Qed.

Lemma update_tested_cycles_sorted cycle_length g :
  sorted_inv g -> sorted_inv (snd (update_tested_cycles cycle_length g)).
Proof.
  intros (Hlen & Hsorted & Hzero).
  destruct (update_tested_cycles_count cycle_length g) as [_ Hcount].
  unfold sorted_inv. split; [| split]; [| | intros H; contradiction].
  - unfold update_tested_cycles. destruct (saved_array_count g =? 0)%nat.
    + cbn. rewrite length_insert. exact Hlen.
    + apply update_loop_sorted; [exact Hlen | reflexivity | exact Hsorted |].
      intros i Hi. lia.
  - unfold update_tested_cycles.
    destruct (Nat.eqb_spec (saved_array_count g) 0) as [Hz | Hnz].
    + unfold lengths_sorted. simpl_globals. intros i j Hij.
      rewrite !array_get_insert by (rewrite Hlen; unfold ARRAYS_TO_STORE; lia).
      destruct (decide (j = 0%nat)); [lia |]. rewrite (Hzero Hz j).
      destruct (decide (i = 0%nat)); lia.
    + apply update_loop_sorted; [exact Hlen | reflexivity | exact Hsorted |].
      intros i Hi. lia.
Qed.

Lemma sorted_inv_set_cycle_bit_array p g :
  sorted_inv g -> sorted_inv (set_cycle_bit_array p g).
Proof. intros H. exact H. Qed.

Lemma consider_all_sorted_inv calls g :
  sorted_inv g -> sorted_inv (consider_all calls g).
Proof.
  revert g. induction calls as [| call calls IH]; intros g Hg; [exact Hg |].
  cbn [consider_all fold_left]. apply IH. unfold consider.
  apply update_tested_cycles_sorted, sorted_inv_set_cycle_bit_array, Hg.
Qed.

Lemma initial_globals_sorted_inv : sorted_inv initial_globals.
Proof.
  split; [reflexivity |]. split.
  - intros i j _. unfold array_get.
    destruct (decide (j < 7)%nat) as [Hj | Hj].
    + do 7 (destruct j as [| j]; [cbn; lia |]). lia.
    + rewrite lookup_ge_None_2 by (cbn; lia). cbn. lia.
  - intros _ i. unfold array_get.
    destruct (decide (i < 7)%nat) as [Hi | Hi].
    + do 7 (destruct i as [| i]; [reflexivity |]). lia.
    + rewrite lookup_ge_None_2 by (cbn; lia). reflexivity.
Qed.

(** ** The slots stay consistent *)

Lemma store_slot_tested position p len g i :
  cache_wf g -> (position < ARRAYS_TO_STORE)%nat ->
  array_get (tested_cycle_bit_arrays (store_slot position p len g)) i =
  if decide (i = position) then p else array_get (tested_cycle_bit_arrays g) i.
Proof.
  intros (Hlt & _) Hp. unfold store_slot. simpl_globals.
  apply array_get_insert. rewrite Hlt. exact Hp.
Qed.

Lemma store_slot_lengths position p len g i :
  cache_wf g -> (position < ARRAYS_TO_STORE)%nat ->
  array_get (saved_cycle_lengths (store_slot position p len g)) i =
  if decide (i = position) then len else array_get (saved_cycle_lengths g) i.
Proof.
  intros (_ & Hll & _) Hp. unfold store_slot. simpl_globals.
  apply array_get_insert. rewrite Hll. exact Hp.
Qed.

(** Storing into a slot that holds a record. *)
Lemma store_slot_wf position p len g :
  cache_wf g -> (position < saved_array_count g)%nat -> p <> NULL ->
  cache_wf (store_slot position p len g).
Proof.
  intros Hwf Hpc Hp. pose proof Hwf as (Hlt & Hll & Hcount & Hnull & Hzero).
  split; [| split; [| split; [| split]]].
  - unfold store_slot. simpl_globals. rewrite length_insert. exact Hlt.
  - unfold store_slot. simpl_globals. rewrite length_insert. exact Hll.
  - exact Hcount.
  - intros i Hi. rewrite store_slot_tested by (exact Hwf || lia).
    destruct (decide (i = position)) as [-> | Hip].
    + split; [intros _; exact Hpc | intros _; exact Hp].
    + apply Hnull, Hi.
  - intros i Hi. rewrite store_slot_lengths by (exact Hwf || lia).
    change (saved_array_count (store_slot position p len g))
      with (saved_array_count g) in Hi.
    destruct (decide (i = position)); [lia | apply Hzero, Hi].
Qed.

(** An empty slot that takes the candidate is the first empty slot. *)
Lemma empty_slot_position position len g :
  cache_wf g -> (position < ARRAYS_TO_STORE)%nat ->
  array_get (tested_cycle_bit_arrays g) position = NULL ->
  array_get (saved_cycle_lengths g) position < len ->
  ((saved_array_count g < position)%nat -> len = 0) ->
  position = saved_array_count g.
Proof.
  intros (_ & _ & _ & Hnull & _) Hp Hprev Hlt Hlen.
  destruct (Nat.lt_total position (saved_array_count g)) as [H | [H | H]].
  - apply Hnull in H; [contradiction | exact Hp].
  - exact H.
  - specialize (Hlen H). lia.
Qed.

(** Storing into the first empty slot and counting it. *)
Lemma store_slot_count_wf p len g :
  cache_wf g -> (saved_array_count g < ARRAYS_TO_STORE)%nat -> p <> NULL ->
  cache_wf (set_saved_array_count (Datatypes.S (saved_array_count g))
              (store_slot (saved_array_count g) p len g)).
Proof.
  intros Hwf Hpc Hp. pose proof Hwf as (Hlt & Hll & Hcount & Hnull & Hzero).
  split; [| split; [| split; [| split]]].
  - unfold store_slot. simpl_globals. rewrite length_insert. exact Hlt.
  - unfold store_slot. simpl_globals. rewrite length_insert. exact Hll.
  - simpl_globals. lia.
  - intros i Hi.
    change (tested_cycle_bit_arrays (set_saved_array_count _ ?g'))
      with (tested_cycle_bit_arrays g').
    rewrite store_slot_tested by (exact Hwf || lia).
    change (saved_array_count (set_saved_array_count ?n _)) with n.
    destruct (decide (i = saved_array_count g)) as [-> | Hip].
    + split; [lia | intros _; exact Hp].
    + rewrite (Hnull i Hi). lia.
  - intros i Hi.
    change (saved_cycle_lengths (set_saved_array_count _ ?g'))
      with (saved_cycle_lengths g').
    change (saved_array_count (set_saved_array_count ?n _)) with n in Hi.
    rewrite store_slot_lengths by (exact Hwf || lia).
    destruct (decide (i = saved_array_count g)); [lia | apply Hzero; lia].
Qed.

Lemma update_loop_wf n p did cp cl g :
  cache_wf g -> (p + n <= ARRAYS_TO_STORE)%nat -> cp <> NULL ->
  ((saved_array_count g < p)%nat -> cl = 0) ->
  cache_wf (snd (update_loop (seq p n) did cp cl g)).
Proof.
  revert p did cp cl g.
  induction n as [| n IH]; intros p did cp cl g Hwf Hp Hcp Hcl; [exact Hwf |].
  cbn [seq update_loop].
  pose proof Hwf as (_ & _ & _ & Hnull & Hzero).
  destruct (N.ltb_spec (array_get (saved_cycle_lengths g) p) cl) as [Hlt | Hge].
  - fold (store_slot p cp cl g).
    destruct (N.eqb_spec (array_get (tested_cycle_bit_arrays g) p) NULL)
      as [Hprev | Hprev]; cbn [negb].
    + (* an empty slot: the loop is at the first one *)
      assert (Hpc : p = saved_array_count g)
        by (apply (empty_slot_position p cl g); assumption || lia).
      subst p. cbn [snd].
      exact (store_slot_count_wf cp cl g Hwf ltac:(lia) Hcp).
    + assert (Hpc : (p < saved_array_count g)%nat)
        by (apply Hnull; [lia | exact Hprev]).
      pose proof (store_slot_wf p cp cl g Hwf Hpc Hcp) as Hwf1.
      destruct (p =? ARRAYS_TO_STORE - 1)%nat.
      * apply IH; [exact Hwf1 | lia | exact Hcp |].
        change (saved_array_count (free _ _)) with (saved_array_count g). lia.
      * apply IH; [exact Hwf1 | lia | exact Hprev |].
        change (saved_array_count (store_slot _ _ _ _))
          with (saved_array_count g). lia.
  - apply IH; [exact Hwf | lia | exact Hcp |].
    intros Hc. destruct (decide (saved_array_count g = p)) as [Heq | Hne].
    + rewrite (Hzero p) in Hge by lia. lia.
    + apply Hcl. lia.
Qed.

Lemma update_tested_cycles_wf cycle_length g :
  cache_wf g -> cycle_bit_array g <> NULL ->
  cache_wf (snd (update_tested_cycles cycle_length g)).
Proof.
  intros Hwf Hscratch. unfold update_tested_cycles.
  destruct (Nat.eqb_spec (saved_array_count g) 0) as [Hz | Hnz].
  - destruct Hwf as (Hlt & Hll & Hcount & Hnull & Hzero).
    cbn [snd]. unfold cache_wf. simpl_globals. rewrite !length_insert.
    split; [exact Hlt |]. split; [exact Hll |].
    split; [unfold ARRAYS_TO_STORE; lia |]. split.
    + intros i Hi. rewrite array_get_insert by (rewrite Hlt; unfold ARRAYS_TO_STORE; lia).
      destruct (decide (i = 0%nat)) as [-> | Hi0].
      * split; [lia | intros _; exact Hscratch].
      * rewrite (Hnull i Hi). lia.
    + intros i Hi. rewrite array_get_insert_ne by lia. apply Hzero. lia.
  - apply update_loop_wf; [exact Hwf | reflexivity | exact Hscratch | lia].
Qed.

(** ** Stored lengths only grow *)

Lemma array_get_insert_cases (l : list N) p x i :
  (i = p /\ array_get (<[p := x]> l) i = x) \/
  array_get (<[p := x]> l) i = array_get l i.
Proof.
  destruct (decide (p < length l)%nat) as [Hp | Hp].
  - rewrite array_get_insert by exact Hp.
    destruct (decide (i = p)); [left | right]; auto.
  - right. rewrite list_insert_ge by lia. reflexivity.
Qed.

Lemma update_loop_lengths_mono positions did cp cl g i :
  array_get (saved_cycle_lengths g) i <=
  array_get (saved_cycle_lengths (snd (update_loop positions did cp cl g))) i.
Proof.
  revert did cp cl g. induction positions as [| p positions IH]; intros did cp cl g.
  - reflexivity.
  - cbn [update_loop].
    destruct (N.ltb_spec (array_get (saved_cycle_lengths g) p) cl) as [Hlt | Hge];
      [| apply IH].
    set (g1 := set_saved_cycle_length p cl (set_tested_cycle_bit_array p cp g)).
    assert (Hmono1 : array_get (saved_cycle_lengths g) i <=
                     array_get (saved_cycle_lengths g1) i).
    { unfold g1. simpl_globals.
      destruct (array_get_insert_cases (saved_cycle_lengths g) p cl i)
        as [[-> ->] | ->]; lia. }
    destruct (negb _); [| exact Hmono1].
    destruct (p =? ARRAYS_TO_STORE - 1)%nat.
    + etransitivity; [exact Hmono1 |].
      apply (IH true cp cl (free (array_get (tested_cycle_bit_arrays g) p) g1)).
    + etransitivity; [exact Hmono1 | apply IH].
Qed.

Lemma update_tested_cycles_lengths_mono cycle_length g i :
  cache_wf g ->
  array_get (saved_cycle_lengths g) i <=
  array_get (saved_cycle_lengths (snd (update_tested_cycles cycle_length g))) i.
Proof.
  intros (_ & _ & _ & _ & Hzero). unfold update_tested_cycles.
  destruct (Nat.eqb_spec (saved_array_count g) 0) as [Hz | Hnz].
  - rewrite (Hzero i) by lia. lia.
  - apply update_loop_lengths_mono.
Qed.

Lemma foldr_max_ge (l : list N) i x : l !! i = Some x -> x <= foldr N.max 0 l.
Proof.
  revert i. induction l as [| y l IH]; intros i Hi; [discriminate |].
  destruct i as [| i]; cbn in *.
  - injection Hi as ->. lia.
  - specialize (IH i Hi). lia.
Qed.

Lemma foldr_max_le (l : list N) bound :
  (forall i x, l !! i = Some x -> x <= bound) -> foldr N.max 0 l <= bound.
Proof.
  induction l as [| y l IH]; intros Hall; cbn; [lia |].
  pose proof (Hall 0%nat y eq_refl). specialize (IH (fun i => Hall (Datatypes.S i))). lia.
Qed.

Lemma max_cached_length_mono g g' :
  (saved_array_count g <= saved_array_count g')%nat ->
  (forall i, array_get (saved_cycle_lengths g) i <=
             array_get (saved_cycle_lengths g') i) ->
  max_cached_length g <= max_cached_length g'.
Proof.
  intros Hcount Hmono. unfold max_cached_length. apply foldr_max_le.
  intros i x Hi. apply lookup_take_Some in Hi as [Hi Hic].
  specialize (Hmono i). unfold array_get in Hmono at 1. rewrite Hi in Hmono.
  cbn in Hmono.
  destruct (saved_cycle_lengths g' !! i) as [y |] eqn:Hy.
  - unfold array_get in Hmono. rewrite Hy in Hmono. cbn in Hmono.
    etransitivity; [exact Hmono |].
    apply (foldr_max_ge _ i). rewrite lookup_take_lt by lia. exact Hy.
  - unfold array_get in Hmono. rewrite Hy in Hmono. cbn in Hmono. lia.
Qed.

(** ** The lookup *)

Lemma check_loop_spec g key n p ret :
  (forall i, (p <= i < p + n)%nat ->
     is_Some (heap g !! array_get (tested_cycle_bit_arrays g) i)) ->
  match check_loop g key (seq p n) ret with
  | Returns (true, i) =>
      (p <= i < p + n)%nat /\ cached_hit g key i /\
      forall j, (p <= j < i)%nat -> ~ cached_hit g key j
  | Returns (false, _) => forall j, (p <= j < p + n)%nat -> ~ cached_hit g key j
  | _ => False
  end.
Proof.
  revert p ret. induction n as [| n IH]; intros p ret Hlive.
  - cbn. intros j Hj. lia.
  - cbn [seq check_loop].
    destruct (Hlive p ltac:(lia)) as [array Harray]. rewrite Harray.
    destruct (test_bit array key) eqn:Hbit.
    + split; [lia |]. split; [exists array; split; assumption |].
      intros j Hj. lia.
    + specialize (IH (Datatypes.S p) p ltac:(intros i Hi; apply Hlive; lia)).
      assert (Hmiss : ~ cached_hit g key p).
      { intros (array' & Harray' & Hbit'). congruence. }
      destruct (check_loop g key (seq (Datatypes.S p) n) p) as [[[] i] | |];
        try contradiction.
      * destruct IH as (Hi & Hhit & Hfirst). split; [lia |]. split; [exact Hhit |].
        intros j Hj. destruct (decide (j = p)) as [-> | Hne]; [exact Hmiss |].
        apply Hfirst. lia.
      * intros j Hj. destruct (decide (j = p)) as [-> | Hne]; [exact Hmiss |].
        apply IH. lia.
Qed.

Lemma check_existing_arrays_spec g state ret :
  fingerprints_live g ->
  match check_existing_arrays g state ret with
  | Returns (true, i) =>
      (i < saved_array_count g)%nat /\ cached_hit g (encode_state state) i /\
      forall j, (j < i)%nat -> ~ cached_hit g (encode_state state) j
  | Returns (false, _) =>
      forall j, (j < saved_array_count g)%nat ->
        ~ cached_hit g (encode_state state) j
  | _ => False
  end.
Proof.
  intros Hlive. unfold check_existing_arrays.
  pose proof (check_loop_spec g (encode_state state) (saved_array_count g) 0 ret
                ltac:(intros i Hi; apply Hlive; lia)) as Hspec.
  destruct (check_loop g (encode_state state) (seq 0 (saved_array_count g)) ret)
    as [[[] i] | |]; try contradiction.
  - destruct Hspec as (Hi & Hhit & Hfirst). split; [lia |]. split; [exact Hhit |].
    intros j Hj. apply Hfirst. lia.
  - intros j Hj. apply Hspec. lia.
Qed.

Lemma lookup_seed_spec g state :
  fingerprints_live g ->
  match lookup_seed g state with
  | Returns (true, i) =>
      (i < saved_array_count g)%nat /\ cached_hit g (encode_state state) i /\
      forall j, (j < i)%nat -> ~ cached_hit g (encode_state state) j
  | Returns (false, _) =>
      forall j, (j < saved_array_count g)%nat ->
        ~ cached_hit g (encode_state state) j
  | _ => False
  end.
Proof.
  intros Hlive. unfold lookup_seed.
  destruct (Nat.ltb_spec 0 (saved_array_count g)) as [Hc | Hc].
  - apply check_existing_arrays_spec, Hlive.
  - intros j Hj. lia.
Qed.

Lemma update_tested_cycles_false cycle_length g :
  (fst (update_tested_cycles cycle_length g) = false <->
   saved_array_count g <> 0%nat /\
   forall position, (position < ARRAYS_TO_STORE)%nat ->
     cycle_length <= array_get (saved_cycle_lengths g) position) /\
  (fst (update_tested_cycles cycle_length g) = false ->
   snd (update_tested_cycles cycle_length g) = g).
Proof.
  unfold update_tested_cycles.
  destruct (Nat.eqb_spec (saved_array_count g) 0) as [Hz | Hnz].
  - cbn [fst snd]. split; [| discriminate].
    split; [discriminate | intros [H _]; contradiction].
  - destruct (update_loop_false (seq 0 ARRAYS_TO_STORE) (cycle_bit_array g)
                cycle_length g) as [Hiff Hframe].
    split; [| exact Hframe]. rewrite Hiff. split.
    + intros Hall. split; [exact Hnz |]. intros p Hp. apply Hall.
      apply elem_of_seq. lia.
    + intros [_ Hall] p Hp. apply Hall. apply elem_of_seq in Hp. lia.
Qed.

(** ** The blocks of the cache *)

Lemma update_loop_heap n p did cp cl g :
  cache_wf g -> (p + n = ARRAYS_TO_STORE)%nat -> cp <> NULL ->
  ((saved_array_count g < p)%nat -> cl = 0) ->
  fingerprints_live g -> slots_distinct g ->
  is_Some (heap g !! cp) -> not_cached g cp ->
  fingerprints_live (snd (update_loop (seq p n) did cp cl g)) /\
  slots_distinct (snd (update_loop (seq p n) did cp cl g)).
Proof.
  revert p did cp cl g.
  induction n as [| n IH];
    intros p did cp cl g Hwf Hp Hcp Hcl Hlive Hdist Hcplive Hcpnew;
    [split; assumption |].
  cbn [seq update_loop].
  pose proof Hwf as (Hlt & Hll & Hcount & Hnull & Hzero).
  destruct (N.ltb_spec (array_get (saved_cycle_lengths g) p) cl) as [Hlt' | Hge].
  - fold (store_slot p cp cl g).
    assert (Htested := fun i => store_slot_tested p cp cl g i Hwf ltac:(lia)).
    destruct (N.eqb_spec (array_get (tested_cycle_bit_arrays g) p) NULL)
      as [Hprev | Hprev]; cbn [negb].
    + assert (Hpc : p = saved_array_count g)
        by (apply (empty_slot_position p cl g); assumption || lia).
      cbn [snd]. split.
      * intros i Hi. unfold fingerprints_live in *. simpl_globals.
        change (tested_cycle_bit_arrays (set_saved_array_count _ ?g'))
          with (tested_cycle_bit_arrays g').
        rewrite Htested. destruct (decide (i = p)); [exact Hcplive |].
        apply Hlive. cbn in Hi. lia.
      * intros i j Hi Hj Hij.
        change (tested_cycle_bit_arrays (set_saved_array_count _ ?g'))
          with (tested_cycle_bit_arrays g').
        cbn in Hi, Hj. rewrite !Htested.
        destruct (decide (i = p)), (decide (j = p)); try lia.
        -- intros Heq. apply (Hcpnew j); [lia | auto].
        -- apply Hcpnew. lia.
        -- apply Hdist; lia.
    + assert (Hpc : (p < saved_array_count g)%nat)
        by (apply Hnull; [lia | exact Hprev]).
      assert (Hwf1 : cache_wf (store_slot p cp cl g))
        by (apply store_slot_wf; assumption).
      assert (Hlive1 : fingerprints_live (store_slot p cp cl g)).
      { intros i Hi. rewrite Htested. destruct (decide (i = p)); [exact Hcplive |].
        apply Hlive, Hi. }
      assert (Hdist1 : slots_distinct (store_slot p cp cl g)).
      { intros i j Hi Hj Hij. rewrite !Htested.
        change (saved_array_count (store_slot p cp cl g))
          with (saved_array_count g) in Hi, Hj.
        destruct (decide (i = p)), (decide (j = p)); try lia.
        - intros Heq. apply (Hcpnew j); [lia | auto].
        - apply Hcpnew. lia.
        - apply Hdist; lia. }
      assert (Hprevnew : not_cached (store_slot p cp cl g)
                           (array_get (tested_cycle_bit_arrays g) p)).
      { intros i Hi. rewrite Htested.
        change (saved_array_count (store_slot p cp cl g))
          with (saved_array_count g) in Hi.
        destruct (decide (i = p)) as [-> | Hip].
        - intros Heq. apply (Hcpnew p Hpc). auto.
        - apply Hdist; lia. }
      destruct (Nat.eqb_spec p (ARRAYS_TO_STORE - 1)) as [Hlast | Hlast].
      * assert (n = 0%nat) by (unfold ARRAYS_TO_STORE in *; lia). subst n.
        cbn [seq update_loop snd]. split.
        -- intros i Hi. unfold free. simpl_globals.
           rewrite lookup_delete_ne by (apply not_eq_sym, Hprevnew, Hi).
           apply Hlive1, Hi.
        -- exact Hdist1.
      * apply IH; try assumption; try lia.
        -- change (saved_array_count (store_slot p cp cl g))
             with (saved_array_count g). lia.
        -- change (heap (store_slot p cp cl g)) with (heap g). apply Hlive, Hpc.
  - apply IH; try assumption; try lia.
    intros Hc. destruct (decide (saved_array_count g = p)) as [Heq | Hne].
    + rewrite (Hzero p) in Hge by lia. lia.
    + apply Hcl. lia.
Qed.

Lemma update_loop_scratch positions did cp cl g :
  cycle_bit_array (snd (update_loop positions did cp cl g)) = cycle_bit_array g.
Proof.
  revert did cp cl g. induction positions as [| p positions IH]; intros did cp cl g.
  - reflexivity.
  - cbn [update_loop].
    destruct (array_get (saved_cycle_lengths g) p <? cl); [| apply IH].
    destruct (negb _); [| reflexivity].
    destruct (p =? ARRAYS_TO_STORE - 1)%nat; rewrite IH; reflexivity.
Qed.

Lemma update_tested_cycles_scratch cycle_length g :
  cycle_bit_array (snd (update_tested_cycles cycle_length g)) = cycle_bit_array g.
Proof.
  unfold update_tested_cycles. destruct (saved_array_count g =? 0)%nat.
  - reflexivity.
  - apply update_loop_scratch.
Qed.

Lemma update_tested_cycles_grows cycle_length g :
  cache_wf g -> cache_grows g (snd (update_tested_cycles cycle_length g)).
Proof.
  intros Hwf. split.
  - apply update_tested_cycles_count.
  - intros i. apply update_tested_cycles_lengths_mono, Hwf.
Qed.

Lemma update_tested_cycles_heap cycle_length g :
  scratch_ok g -> heap_wf g ->
  fingerprints_live (snd (update_tested_cycles cycle_length g)) /\
  slots_distinct (snd (update_tested_cycles cycle_length g)).
Proof.
  intros [Hwf Hscratch] (Hslive & Hlive & Hdist & Hnew).
  unfold update_tested_cycles.
  destruct (Nat.eqb_spec (saved_array_count g) 0) as [Hz | Hnz].
  - pose proof Hwf as (Hlt & _). cbn [snd]. split.
    + intros i Hi. unfold fingerprints_live in *. simpl_globals.
      assert (i = 0%nat) as -> by lia.
      rewrite array_get_insert_eq by (rewrite Hlt; unfold ARRAYS_TO_STORE; lia).
      exact Hslive.
    + intros i j Hi Hj Hij. simpl_globals. lia.
  - apply update_loop_heap; try assumption; try reflexivity. lia.
Qed.

Section Allocator.

Variable malloc : allocator.
Hypothesis malloc_fresh : fresh_allocator malloc.

(** The part after the trace keeps the slots consistent and the scratch
    pointer non-null, and the cache only grows. *)
Lemma finish_seed_cache length_counter g :
  scratch_ok g ->
  match finish_seed malloc length_counter g with
  | Returns (len, known, g') =>
      scratch_ok g' /\ cache_grows g g' /\ len = length_counter /\ known = false
  | Exits status => status = 1
  | Faults => False
  end.
Proof.
  intros [Hwf Hscratch]. unfold finish_seed.
  pose proof (update_tested_cycles_wf length_counter g Hwf Hscratch) as Hwf1.
  pose proof (update_tested_cycles_grows length_counter g Hwf) as Hgrow.
  pose proof (update_tested_cycles_scratch length_counter g) as Hs1.
  destruct (update_tested_cycles length_counter g) as [[] g1]; cbn [snd] in *.
  - unfold malloc_block. destruct (malloc (heap g1)) as [p contents].
    destruct (p =? NULL) eqn:Hp; cbv beta iota zeta; rewrite Hp; [reflexivity |].
    apply N.eqb_neq in Hp.
    split; [split; [exact Hwf1 | exact Hp] |]. split; [exact Hgrow | split; reflexivity].
  - split; [split; [exact Hwf1 | congruence] |].
    split; [exact Hgrow | split; reflexivity].
Qed.

Lemma finish_seed_heap length_counter g :
  scratch_ok g -> heap_wf g ->
  match finish_seed malloc length_counter g with
  | Returns (_, _, g') => heap_wf g'
  | _ => True
  end.
Proof using malloc_fresh.
  intros Hok Hheap. unfold finish_seed. pose proof malloc_fresh as Hfresh.
  pose proof (update_tested_cycles_heap length_counter g Hok Hheap) as [Hlive Hdist].
  pose proof (proj2 (update_tested_cycles_false length_counter g)) as Hframe.
  destruct (update_tested_cycles length_counter g) as [[] g1]; cbn [fst snd] in *.
  - unfold malloc_block. specialize (Hfresh (heap g1)).
    destruct (malloc (heap g1)) as [p contents]. cbn [fst] in Hfresh.
    destruct (p =? NULL) eqn:Hp; cbv beta iota zeta; rewrite Hp; [exact I |].
    apply N.eqb_neq in Hp.
    specialize (Hfresh Hp). unfold heap_wf. simpl_globals.
    split; [| split; [| split]].
    + rewrite lookup_insert_eq. eexists. reflexivity.
    + intros i Hi. unfold fingerprints_live in Hlive. simpl_globals.
      specialize (Hlive i Hi).
      rewrite lookup_insert_ne; [exact Hlive |].
      intros Heq. rewrite <- Heq, Hfresh in Hlive. destruct Hlive; discriminate.
    + exact Hdist.
    + intros i Hi Heq. specialize (Hlive i Hi). simpl_globals.
      rewrite Heq, Hfresh in Hlive. destruct Hlive; discriminate.
  - rewrite Hframe by reflexivity. exact Hheap.
Qed.

Lemma trace_seed_returns g state :
  is_Some (heap g !! cycle_bit_array g) ->
  trace_seed g state =
    Returns (fst (trace_loop zeroed state),
             set_heap (<[cycle_bit_array g := snd (trace_loop zeroed state)]>
                         (heap g)) g).
Proof.
  intros [contents Hc]. unfold trace_seed, memset_scratch. rewrite Hc.
  unfold run_trace. simpl_globals. rewrite lookup_insert_eq.
  destruct (trace_loop zeroed state) as [len array]. cbn [fst snd].
  rewrite insert_insert_eq. reflexivity.
Qed.

Lemma trace_seed_cases g state :
  match trace_seed g state with
  | Returns (len, g') =>
      exists array, g' = set_heap (<[cycle_bit_array g := array]> (heap g)) g
  | Exits _ => False
  | Faults => heap g !! cycle_bit_array g = None
  end.
Proof.
  destruct (heap g !! cycle_bit_array g) as [contents |] eqn:Hc.
  - rewrite trace_seed_returns by (eexists; exact Hc). eexists. reflexivity.
  - unfold trace_seed, memset_scratch. rewrite Hc. reflexivity.
Qed.

(** One seed keeps the slots consistent, and the cache only grows. *)
Lemma test_seed_for_cycle_cache seed g :
  scratch_ok g ->
  match test_seed_for_cycle malloc seed g with
  | Returns (_, _, g') => scratch_ok g' /\ cache_grows g g'
  | _ => True
  end.
Proof.
  intros Hok. unfold test_seed_for_cycle.
  destruct (lookup_seed g (seed_state seed)) as [[[] i] | |]; try exact I.
  - split; [exact Hok |]. split; [lia | intros; lia].
  - pose proof (trace_seed_cases g (seed_state seed)) as Htrace.
    destruct (trace_seed g (seed_state seed)) as [[len g1] | |]; try exact I.
    destruct Htrace as [array ->].
    pose proof (finish_seed_cache len
                  (set_heap (<[cycle_bit_array g := array]> (heap g)) g) Hok) as Hfin.
    destruct (finish_seed malloc len _) as [[[len' known] g'] | |]; try exact I.
    destruct Hfin as (Hok' & Hgrow & _). split; assumption.
Qed.

(** With an allocator that hands out fresh blocks, one seed keeps every
    pointer of the program on a live block of its own, and does not fault. *)
Lemma test_seed_for_cycle_heap seed g :
  scratch_ok g -> heap_wf g ->
  match test_seed_for_cycle malloc seed g with
  | Returns (_, _, g') => heap_wf g'
  | Exits status => status = 1
  | Faults => False
  end.
Proof using malloc_fresh.
  intros Hok Hheap. unfold test_seed_for_cycle.
  pose proof Hheap as (Hslive & Hlive & Hdist & Hnew).
  pose proof (lookup_seed_spec g (seed_state seed) Hlive) as Hlookup.
  destruct (lookup_seed g (seed_state seed)) as [[[] i] | |]; try contradiction.
  - exact Hheap.
  - rewrite trace_seed_returns by exact Hslive.
    set (len := fst (trace_loop zeroed (seed_state seed))).
    set (array := snd (trace_loop zeroed (seed_state seed))).
    set (g1 := set_heap (<[cycle_bit_array g := array]> (heap g)) g).
    assert (Hheap1 : heap_wf g1).
    { unfold heap_wf, g1. simpl_globals. split; [| split; [| split]].
      - rewrite lookup_insert_eq. eexists. reflexivity.
      - intros j Hj. simpl_globals.
        rewrite lookup_insert_ne by (apply not_eq_sym, Hnew, Hj). apply Hlive, Hj.
      - exact Hdist.
      - exact Hnew. }
    pose proof (finish_seed_cache len g1 Hok) as Hfin.
    pose proof (finish_seed_heap len g1 Hok Hheap1) as Hfin'.
    destruct (finish_seed malloc len g1) as [[[len' known] g'] | |].
    + exact Hfin'.
    + exact Hfin.
    + exact Hfin.
Qed.

(** ** The scan *)

Lemma cache_okb_wf g : cache_okb g = true -> cache_wf g.
Proof.
  unfold cache_okb. rewrite !andb_true_iff.
  intros [[[Hlt Hll] Hcount] Hall].
  apply Nat.eqb_eq in Hlt, Hll. apply Nat.leb_le in Hcount.
  rewrite forallb_forall in Hall.
  assert (Hslot : forall i, (i < ARRAYS_TO_STORE)%nat ->
            (array_get (tested_cycle_bit_arrays g) i <> NULL <->
             (i < saved_array_count g)%nat) /\
            ((i < saved_array_count g)%nat \/
             array_get (saved_cycle_lengths g) i = 0)).
  { intros i Hi. specialize (Hall i ltac:(apply in_seq; lia)).
    apply andb_true_iff in Hall as [Hnull Hzero].
    apply Bool.eqb_prop in Hnull. apply orb_true_iff in Hzero.
    rewrite Nat.ltb_lt, N.eqb_eq in Hzero. split; [| exact Hzero].
    rewrite <- Nat.ltb_lt, <- Hnull, negb_true_iff, N.eqb_neq. reflexivity. }
  split; [exact Hlt |]. split; [exact Hll |]. split; [exact Hcount |]. split.
  - intros i Hi. apply Hslot, Hi.
  - intros i Hi. destruct (decide (i < ARRAYS_TO_STORE)%nat) as [Hlt7 | Hge7].
    + destruct (Hslot i Hlt7) as [_ [H | H]]; [lia | exact H].
    + apply array_get_ge. lia.
Qed.

Lemma bump_malloc_fresh contents : fresh_allocator (bump_malloc contents).
Proof.
  intros h _. cbn [bump_malloc fst]. unfold next_block.
  destruct (h !! N.succ (foldr N.max 0 (fst <$> map_to_list h)))
    as [array |] eqn:Hlive; [exfalso | reflexivity].
  apply elem_of_map_to_list in Hlive.
  apply (list_elem_of_fmap_2 fst) in Hlive. cbn [fst] in Hlive.
  apply list_elem_of_lookup in Hlive as [i Hi].
  apply foldr_max_ge in Hi. lia.
Qed.

Lemma main_init_cases :
  match main_init malloc with
  | Returns g =>
      scratch_ok g /\ saved_array_count g = 0%nat /\
      heap g = {[cycle_bit_array g := snd (malloc ∅)]}
  | Exits status => status = 1
  | Faults => False
  end.
Proof.
  unfold main_init, malloc_block.
  change (heap (fold_left _ _ initial_globals)) with (∅ : gmap N bitarray).
  destruct (malloc ∅) as [p contents].
  destruct (p =? NULL) eqn:Hp; cbv beta iota zeta; rewrite Hp; [reflexivity |].
  apply N.eqb_neq in Hp. split; [split |]; [| exact Hp | split; reflexivity].
  apply cache_okb_wf. reflexivity.
Qed.

Lemma main_init_heap :
  match main_init malloc with
  | Returns g => heap_wf g
  | _ => True
  end.
Proof.
  pose proof main_init_cases as Hinit.
  destruct (main_init malloc) as [g | |]; try exact I.
  destruct Hinit as (_ & Hcount & Hheap).
  split; [| split; [| split]].
  - rewrite Hheap, lookup_singleton_eq. eexists. reflexivity.
  - intros i Hi. lia.
  - intros i j Hi. lia.
  - intros i Hi. lia.
Qed.

(** A property the body keeps holds after any number of iterations. *)
Lemma for_count_invariant {S R} (body : N -> S -> step S R)
    (P : S -> Prop) (Q : R -> Prop) :
  (forall i s, P s ->
     match body i s with Continue s' => P s' | Stop r => Q r end) ->
  forall n first s, P s ->
    match for_count body n first s with Continue s' => P s' | Stop r => Q r end.
Proof.
  intros Hbody n. induction n as [| n IH]; intros first s Hs; [exact Hs |].
  cbn [for_count]. specialize (Hbody first s Hs).
  destruct (body first s) as [s' | r]; [apply IH, Hbody | exact Hbody].
Qed.

Lemma scan_seeds_succ n g :
  scan_seeds malloc (Datatypes.S n) g =
  match scan_seeds malloc n g with
  | Continue s => seed_body malloc (N.of_nat n) s
  | Stop r => Stop r
  end.
Proof.
  unfold scan_seeds. replace (Datatypes.S n) with (n + 1)%nat by lia.
  rewrite for_count_add.
  destruct (for_count (seed_body malloc) n 0 (g, [])) as [s | r]; [| reflexivity].
  cbn [for_count]. rewrite N.add_0_l.
  destruct (seed_body malloc (N.of_nat n) s); reflexivity.
Qed.

Lemma scan_seeds_scratch_ok n g :
  scratch_ok g ->
  match scan_seeds malloc n g with
  | Continue (g', _) => scratch_ok g'
  | Stop _ => True
  end.
Proof.
  intros Hok. unfold scan_seeds.
  assert (Hbody : forall i s, scratch_ok (fst s) ->
            match seed_body malloc i s with
            | Continue s' => scratch_ok (fst s')
            | Stop r => True
            end).
  { intros i [g1 printed] H1. cbn [fst] in H1. unfold seed_body.
    pose proof (test_seed_for_cycle_cache i g1 H1) as Hstep.
    destruct (test_seed_for_cycle malloc i g1) as [[[len known] g2] | |];
      try exact I.
    destruct known; apply Hstep. }
  pose proof (for_count_invariant (seed_body malloc) _ _ Hbody n 0 (g, []) Hok)
    as Hrun.
  destruct (for_count (seed_body malloc) n 0 (g, [])) as [[g' printed] | r];
    exact Hrun.
Qed.

(** The whole scan of [main] is the scan of the first [2^24] seeds. *)
Lemma seed_loop_scan g :
  seed_loop malloc g = scan_seeds malloc (2 ^ 24)%nat g.
Proof. apply for_pow2_count. Qed.

(** With an allocator that hands out fresh blocks the scan never reads or
    writes outside a live block: every seed returns, or the process exits
    with status 1 because an allocation failed. *)
Lemma scan_seeds_safe n :
  match main_init malloc with
  | Returns g =>
      match scan_seeds malloc n g with
      | Continue (g', _) => scratch_ok g' /\ heap_wf g'
      | Stop r => r = Exits 1
      end
  | Exits status => status = 1
  | Faults => False
  end.
Proof using malloc_fresh.
  pose proof main_init_cases as Hinit.
  pose proof main_init_heap as Hheap.
  destruct (main_init malloc) as [g | |]; try exact Hinit.
  destruct Hinit as (Hok & _).
  assert (Hbody : forall i s, scratch_ok (fst s) /\ heap_wf (fst s) ->
            match seed_body malloc i s with
            | Continue s' => scratch_ok (fst s') /\ heap_wf (fst s')
            | Stop r => r = Exits 1
            end).
  { intros i [g1 printed] [H1 H2]. cbn [fst] in H1, H2. unfold seed_body.
    pose proof (test_seed_for_cycle_cache i g1 H1) as Hstep.
    pose proof (test_seed_for_cycle_heap i g1 H1 H2) as Hstep'.
    destruct (test_seed_for_cycle malloc i g1) as [[[len known] g2] | |].
    - destruct known; (split; [apply Hstep | exact Hstep']).
    - rewrite Hstep'. reflexivity.
    - contradiction. }
  pose proof (for_count_invariant (seed_body malloc) _ _ Hbody n 0 (g, [])
                (conj Hok Hheap)) as Hrun.
  unfold scan_seeds.
  destruct (for_count (seed_body malloc) n 0 (g, [])) as [[g' printed] | r];
    exact Hrun.
Qed.

End Allocator.

(** The process exits only when [malloc] returns [NULL]. *)
Lemma test_seed_for_cycle_exits malloc seed g :
  never_fails malloc ->
  match test_seed_for_cycle malloc seed g with
  | Exits _ => False
  | _ => True
  end.
Proof.
  intros Hmalloc. unfold test_seed_for_cycle, lookup_seed, check_existing_arrays.
  assert (Hcheck : forall indices ret,
            match check_loop g (encode_state (seed_state seed)) indices ret with
            | Exits _ => False
            | _ => True
            end).
  { induction indices as [| i indices IH]; intros ret; cbn [check_loop];
      [exact I |].
    destruct (heap g !! array_get (tested_cycle_bit_arrays g) i); [| exact I].
    destruct (test_bit _ _); [exact I | apply IH]. }
  assert (Hafter :
    match
      match trace_seed g (seed_state seed) with
      | Returns (length_counter, g0) => finish_seed malloc length_counter g0
      | Exits status => Exits status
      | Faults => Faults
      end
    with
    | Exits _ => False
    | _ => True
    end).
  { pose proof (trace_seed_cases g (seed_state seed)) as Htrace.
    destruct (trace_seed g (seed_state seed)) as [[len g1] | |];
      [| contradiction | exact I].
    unfold finish_seed.
    destruct (update_tested_cycles len g1) as [[] g2]; [| exact I].
    unfold malloc_block. specialize (Hmalloc (heap g2)).
    destruct (malloc (heap g2)) as [p contents]. cbn [fst] in Hmalloc.
    apply N.eqb_neq in Hmalloc. cbv beta iota zeta. rewrite Hmalloc.
    cbv beta iota zeta. rewrite Hmalloc. exact I. }
  destruct (0 <? saved_array_count g)%nat.
  - specialize (Hcheck (seq 0 (saved_array_count g)) 0%nat).
    destruct (check_loop _ _ _ _) as [[[] i] | |];
      [exact I | exact Hafter | contradiction | exact I].
  - exact Hafter.
Qed.

(** With an allocator that always finds a fresh block, every prefix of the
    scan runs to its end. *)
Lemma main_init_returns malloc :
  never_fails malloc -> exists g, main_init malloc = Returns g.
Proof.
  intros Hmalloc. unfold main_init, malloc_block.
  change (heap (fold_left _ _ initial_globals)) with (∅ : gmap N bitarray).
  specialize (Hmalloc ∅). destruct (malloc ∅) as [p contents].
  cbn [fst] in Hmalloc. apply N.eqb_neq in Hmalloc.
  cbv beta iota zeta. rewrite Hmalloc. cbv beta iota zeta. rewrite Hmalloc.
  eexists. reflexivity.
Qed.

Lemma scan_seeds_runs malloc n :
  fresh_allocator malloc -> never_fails malloc ->
  exists g0 g printed,
    main_init malloc = Returns g0 /\
    scan_seeds malloc n g0 = Continue (g, printed) /\
    scratch_ok g /\ heap_wf g.
Proof.
  intros Hfresh Hmalloc.
  pose proof (main_init_cases malloc) as Hinit.
  pose proof (main_init_heap malloc) as Hheap.
  destruct (main_init_returns malloc Hmalloc) as [g0 Hg0].
  rewrite Hg0 in Hinit, Hheap. destruct Hinit as (Hok & _).
  assert (Hbody : forall i s, scratch_ok (fst s) /\ heap_wf (fst s) ->
            match seed_body malloc i s with
            | Continue s' => scratch_ok (fst s') /\ heap_wf (fst s')
            | Stop r => False
            end).
  { intros i [g1 printed] [H1 H2]. cbn [fst] in H1, H2. unfold seed_body.
    pose proof (test_seed_for_cycle_cache malloc i g1 H1) as Hstep.
    pose proof (test_seed_for_cycle_heap malloc Hfresh i g1 H1 H2) as Hstep'.
    pose proof (test_seed_for_cycle_exits malloc i g1 Hmalloc) as Hstep''.
    destruct (test_seed_for_cycle malloc i g1) as [[[len known] g2] | |];
      [| contradiction | contradiction].
    destruct known; (split; [apply Hstep | exact Hstep']). }
  pose proof (for_count_invariant (seed_body malloc) _ _ Hbody n 0 (g0, [])
                (conj Hok Hheap)) as Hrun.
  exists g0. unfold scan_seeds.
  destruct (for_count (seed_body malloc) n 0 (g0, [])) as [[g printed] | r];
    [| contradiction].
  exists g, printed. split; [exact Hg0 |]. split; [reflexivity | exact Hrun].
Qed.

(** Such an allocator: the next block after the last live one. *)
Lemma bump_malloc_never_fails contents : never_fails (bump_malloc contents).
Proof. intros h. cbn [bump_malloc fst]. unfold next_block, NULL. lia. Qed.

(** The scan with that allocator, whatever it leaves in a new block. *)
Lemma scan_seeds_bump contents n :
  exists g0 g printed,
    main_init (bump_malloc contents) = Returns g0 /\
    scan_seeds (bump_malloc contents) n g0 = Continue (g, printed) /\
    scratch_ok g /\ heap_wf g.
Proof.
  apply scan_seeds_runs; [apply bump_malloc_fresh | apply bump_malloc_never_fails].
Qed.

(** When the update reports no change the seed returns the globals the
    trace left: no allocation, the same scratch pointer, the same blocks. *)
Lemma test_seed_for_cycle_reuses malloc seed g r cycle_length g1 :
  lookup_seed g (seed_state seed) = Returns (false, r) ->
  trace_seed g (seed_state seed) = Returns (cycle_length, g1) ->
  fst (update_tested_cycles cycle_length g1) = false ->
  test_seed_for_cycle malloc seed g = Returns (cycle_length, false, g1) /\
  cycle_bit_array g1 = cycle_bit_array g /\
  forall p, is_Some (heap g1 !! p) <-> is_Some (heap g !! p).
Proof.
  intros Hlookup Htrace Hfalse.
  destruct (update_tested_cycles_false cycle_length g1) as [_ Hframe].
  specialize (Hframe Hfalse). split; [| split].
  - unfold test_seed_for_cycle. rewrite Hlookup, Htrace. unfold finish_seed.
    destruct (update_tested_cycles cycle_length g1) as [updated g'].
    cbn [fst snd] in *. subst. reflexivity.
  - pose proof (trace_seed_cases g (seed_state seed)) as Hcases.
    rewrite Htrace in Hcases. destruct Hcases as [array ->]. reflexivity.
  - intros p. destruct (heap g !! cycle_bit_array g) as [contents |] eqn:Hc.
    + rewrite trace_seed_returns in Htrace by (eexists; exact Hc).
      injection Htrace as _ <-. simpl_globals.
      destruct (decide (p = cycle_bit_array g)) as [-> | Hne].
      * rewrite lookup_insert_eq, Hc. split; intros _; eexists; reflexivity.
      * rewrite lookup_insert_ne by congruence. reflexivity.
    + unfold trace_seed, memset_scratch in Htrace. rewrite Hc in Htrace.
      discriminate.
Qed.

Lemma finish_seed_result malloc length_counter g :
  match finish_seed malloc length_counter g with
  | Returns (len, known, _) => len = length_counter /\ known = false
  | Exits status => status = 1
  | Faults => False
  end.
Proof.
  unfold finish_seed.
  destruct (update_tested_cycles length_counter g) as [[] g1].
  - unfold malloc_block. destruct (malloc (heap g1)) as [p contents].
    destruct (p =? NULL) eqn:Hp; cbv beta iota zeta; rewrite Hp;
      [reflexivity | split; reflexivity].
  - split; reflexivity.
Qed.

Lemma memset_scratch_clear g contents k :
  heap g !! cycle_bit_array g = Some contents ->
  exists g' array,
    memset_scratch g = Returns g' /\
    cycle_bit_array g' = cycle_bit_array g /\
    heap g' !! cycle_bit_array g' = Some array /\
    test_bit array k = false.
Proof.
  intros Hc. unfold memset_scratch. rewrite Hc.
  eexists. exists zeroed. split; [reflexivity |]. split; [reflexivity |].
  simpl_globals. split; [apply lookup_insert_eq | apply test_bit_zeroed].
Qed.

(** ** The program on concrete inputs *)

Example advance_example :
  sfc8_advance (mk_sfc8 200 100 77 255) = mk_sfc8 125 231 149 0.
Proof. reflexivity. Qed.

Example encode_example : encode_state (mk_sfc8 1 2 3 128) = 2147680769.
Proof. reflexivity. Qed.

Example seed_state_example : seed_state 197121 = mk_sfc8 1 2 3 1.
Proof. reflexivity. Qed.

(** On an array that already holds the mark of the first state the loop
    breaks at once and reports length 0. *)
Example trace_loop_marked :
  trace_loop {[262144 := 32]} (seed_state 5) = (0, {[262144 := 32]}).
Proof. reflexivity. Qed.

(** A seed whose initial state is marked in the retained fingerprint. *)
Example lookup_hit :
  check_existing_arrays example_cache (seed_state 5) 0 = Returns (true, 0%nat).
Proof. reflexivity. Qed.

Example lookup_miss :
  check_existing_arrays example_cache (seed_state 6) 0 = Returns (false, 0%nat).
Proof. reflexivity. Qed.

(** A length of 50 goes to rank 0, the record of length 42 moves to the
    empty rank 1, and a new scratch block is allocated. *)
Example finish_seed_example :
  finish_seed stray_malloc 50 example_cache =
    Returns (50, false,
             mk_globals 21 [20; 10; 0; 0; 0; 0; 0] [50; 42; 0; 0; 0; 0; 0] 2
               (<[21 := {[0 := 1]}]> (heap example_cache))).
Proof. reflexivity. Qed.

(** A length of 7 goes to the empty rank 1. *)
Example update_tested_cycles_example :
  update_tested_cycles 7 example_cache =
    (true, mk_globals 20 [10; 20; 0; 0; 0; 0; 0] [42; 7; 0; 0; 0; 0; 0] 2
             (heap example_cache)).
Proof. reflexivity. Qed.

(** * The properties of the specification *)

(** C1. [sfc8_advance] computes the specified transition: for every state of
    four bytes, [t = a + b + d] from the old [d], [d] incremented modulo 256,
    [a' = b xor (b >> 2)] from the old [b], [b' = c + (c << 1)] modulo 256
    from the old [c], and [c' = t + rotate_left(c, 3)] modulo 256 from the
    old [c]; the new fields are bytes again. *)
Theorem sfc8_advance_transition (s : sfc8_t) :
  valid_state s ->
  sfc8_advance s = advance_spec s /\
  sfc8_advance s =
    {| a := N.lxor (b s) (N.shiftr (b s) 2);
       b := (c s + N.shiftl (c s) 1) mod 256;
       c := ((a s + b s + d s) mod 256 + rotate_left8 (c s) 3) mod 256;
       d := (d s + 1) mod 256 |} /\
  valid_state (sfc8_advance s).
Proof.
  intros (Ha & Hb & Hc & Hd).
  assert (Heq : sfc8_advance s = advance_spec s).
  { destruct s as [sa sb sc sd]. simpl in *.
    unfold sfc8_advance, advance_spec, rotate_left8, set_a, set_b, set_c, set_d.
    simpl. f_equal.
    - apply lxor_shiftr_byte, Hb.
    - unfold to_uint8. change (8 - 3) with 5. symmetry.
      apply N.Div0.add_mod_idemp_r. }
  split; [exact Heq |]. split; [exact Heq | apply sfc8_advance_valid].
Qed.

Lemma sfc8_advance_transition_witness :
  valid_state (mk_sfc8 200 100 77 255) /\
  sfc8_advance (mk_sfc8 200 100 77 255) = mk_sfc8 125 231 149 0.
Proof.
  assert (Hv : valid_state (mk_sfc8 200 100 77 255)) by (repeat split).
  split; [exact Hv |].
  exact (eq_trans (proj1 (sfc8_advance_transition _ Hv)) eq_refl).
Defined.

(** C2, at a cache with equal lengths.  The candidate of length 10 takes
    rank 0 and the record of length 5 takes rank 1; the record (3, 102)
    displaced from rank 1 is larger than none of the lengths below, so the
    loop ends with it in hand: it is no longer retained, its block is still
    allocated, and the former bottom record (3, 101) stays. *)
Theorem update_tested_cycles_drops_tied_record :
  cache_okb tie_cache = true /\
  cached_records tie_cache =
    [(5, 107); (3, 102); (3, 103); (3, 104); (3, 105); (3, 106); (3, 101)] /\
  fst (update_tested_cycles 10 tie_cache) = true /\
  cached_records (snd (update_tested_cycles 10 tie_cache)) =
    [(10, 108); (5, 107); (3, 103); (3, 104); (3, 105); (3, 106); (3, 101)] /\
  saved_array_count (snd (update_tested_cycles 10 tie_cache)) = 7%nat /\
  heap (snd (update_tested_cycles 10 tie_cache)) !! 102 = Some zeroed /\
  heap (snd (update_tested_cycles 10 tie_cache)) = heap tie_cache.
Proof. repeat split; vm_compute; reflexivity. Qed.

(** With pairwise different lengths the same call evicts the bottom record
    and frees its block. *)
Lemma update_tested_cycles_evicts_bottom :
  let g := set_cycle_bit_array 108
             (consider_all [(9, 101); (8, 102); (7, 103); (6, 104); (5, 105);
                            (4, 106); (3, 107)]
                (set_heap tie_blocks initial_globals)) in
  cached_records (snd (update_tested_cycles 10 g)) =
    [(10, 108); (9, 101); (8, 102); (7, 103); (6, 104); (5, 105); (4, 106)] /\
  heap (snd (update_tested_cycles 10 g)) !! 107 = None.
Proof. split; vm_compute; reflexivity. Qed.

(** C3. From any state and an all-zero bit array the trace loop ends after
    at most [2^32] iterations, and the length it returns is the number of
    distinct states visited before the first repeated key: the first [len]
    states of the trajectory have pairwise distinct keys, the next state
    repeats one of them, and the array holds exactly their marks. *)
Theorem trace_loop_terminates (s : sfc8_t) (array : bitarray) :
  valid_state s -> all_clear array ->
  trace_result s (fst (trace_loop array s)) (snd (trace_loop array s)) /\
  exists iterations : nat,
    N.of_nat iterations <= POSSIBLE_STATES /\
    N.of_nat iterations = N.min (fst (trace_loop array s) + 1) POSSIBLE_STATES /\
    trace_loop array s =
      match for_count trace_body iterations 0 (array, s) with
      | Stop r => r
      | Continue (array', _) => (POSSIBLE_STATES, array')
      end.
Proof.
  intros Hs Hclear. split; [apply trace_loop_clear; assumption |].
  destruct (trace_loop_iterations array s) as (iterations & Hit & Hrun).
  exists iterations. split; [lia |]. split; assumption.
Qed.

Lemma trace_loop_terminates_witness :
  valid_state (seed_state 0) /\ all_clear zeroed /\
  0 < fst (trace_loop zeroed (seed_state 0)) <= POSSIBLE_STATES.
Proof.
  assert (Hs : valid_state (seed_state 0)) by (repeat split).
  assert (Hc : all_clear zeroed) by exact test_bit_zeroed.
  split; [exact Hs |]. split; [exact Hc |].
  exact (proj1 (proj1 (trace_loop_terminates _ _ Hs Hc))).
Defined.

(** C4. The lookup scans the retained fingerprints from rank 0 and stops at
    the first one that has the bit of the key set: it reports rank [i]
    exactly when [i] is the first rank with a hit, and reports not-found
    exactly when no retained fingerprint has the bit.  [test_seed_for_cycle]
    runs it on the encoded initial state of the seed before anything else;
    on a hit it returns the length stored at that rank with
    [was_on_known_cycle] set and leaves every global and block as it was,
    and otherwise it goes on to the trace. *)
Theorem check_existing_arrays_lookup (malloc : allocator) (g : globals)
    (state : sfc8_t) (seed : N) (i : nat) :
  fingerprints_live g ->
  (((i < saved_array_count g)%nat /\ cached_hit g (encode_state state) i /\
    (forall j, (j < i)%nat -> ~ cached_hit g (encode_state state) j)) <->
   check_existing_arrays g state 0 = Returns (true, i)) /\
  ((forall j, (j < saved_array_count g)%nat ->
      ~ cached_hit g (encode_state state) j) <->
   exists r, check_existing_arrays g state 0 = Returns (false, r)) /\
  (check_existing_arrays g (seed_state seed) 0 = Returns (true, i) ->
   test_seed_for_cycle malloc seed g =
     Returns (array_get (saved_cycle_lengths g) i, true, g)) /\
  ((exists r, check_existing_arrays g (seed_state seed) 0 = Returns (false, r)) ->
   test_seed_for_cycle malloc seed g =
     match trace_seed g (seed_state seed) with
     | Returns (length_counter, g') => finish_seed malloc length_counter g'
     | Exits status => Exits status
     | Faults => Faults
     end).
Proof.
  intros Hlive.
  pose proof (check_existing_arrays_spec g state 0%nat Hlive) as Hspec.
  split; [| split; [| split]].
  - split.
    + intros (Hi & Hhit & Hfirst).
      destruct (check_existing_arrays g state 0) as [[[] i'] | |];
        try contradiction.
      * destruct Hspec as (Hi' & Hhit' & Hfirst').
        destruct (Nat.lt_total i i') as [H | [H | H]].
        -- exfalso. apply (Hfirst' i H Hhit).
        -- subst. reflexivity.
        -- exfalso. apply (Hfirst i' H Hhit').
      * exfalso. apply (Hspec i Hi Hhit).
    + intros Heq. rewrite Heq in Hspec. exact Hspec.
  - split.
    + intros Hnone.
      destruct (check_existing_arrays g state 0) as [[[] i'] | |];
        try contradiction.
      * destruct Hspec as (Hi' & Hhit' & _). exfalso. apply (Hnone i' Hi' Hhit').
      * eexists. reflexivity.
    + intros [r Heq]. rewrite Heq in Hspec. exact Hspec.
  - intros Heq. unfold test_seed_for_cycle, lookup_seed.
    pose proof (check_existing_arrays_spec g (seed_state seed) 0%nat Hlive) as Hs.
    rewrite Heq in Hs. destruct Hs as (Hi & _).
    destruct (Nat.ltb_spec 0 (saved_array_count g)) as [Hc | Hc]; [| lia].
    rewrite Heq. reflexivity.
  - intros [r Heq]. unfold test_seed_for_cycle, lookup_seed.
    destruct (0 <? saved_array_count g)%nat; [rewrite Heq |]; reflexivity.
Qed.

Lemma fingerprints_live_example : fingerprints_live example_cache.
Proof.
  intros i Hi. assert (i = 0%nat) as -> by (cbn in Hi; lia).
  eexists. reflexivity.
Qed.

Lemma check_existing_arrays_lookup_witness :
  fingerprints_live example_cache /\
  test_seed_for_cycle failing_malloc 5 example_cache =
    Returns (42, true, example_cache).
Proof.
  split; [exact fingerprints_live_example |].
  exact (proj1 (proj2 (proj2
           (check_existing_arrays_lookup failing_malloc example_cache
              (seed_state 5) 5 0 fingerprints_live_example))) eq_refl).
Defined.

(** C5, as the program has it: [malloc] leaves the contents of a new block
    as they are. *)
Lemma malloc_block_not_zeroed :
  exists g array,
    main_init stray_malloc = Returns g /\
    heap g !! cycle_bit_array g = Some array /\
    test_bit array 0 = true.
Proof.
  exists (mk_globals 1 (replicate 7 0) (replicate 7 0) 0 {[1 := {[0 := 1]}]}).
  exists {[0 := 1]}. repeat split.
Qed.

(** C5, amended.  A new scratch array holds whatever [malloc] left in its
    block, both the first one of [main] and a replacement allocated after a
    cache insertion; the [memset] at the start of a trace zeroes it, after
    which no bit of it is set. *)
Theorem scratch_clear_after_memset (malloc : allocator) (g : globals) (k : N) :
  main_init malloc = Returns g ->
  heap g !! cycle_bit_array g = Some (snd (malloc ∅)) /\
  (exists g' array,
     memset_scratch g = Returns g' /\
     cycle_bit_array g' = cycle_bit_array g /\
     heap g' !! cycle_bit_array g' = Some array /\
     test_bit array k = false) /\
  (forall length_counter g1 len known g2,
     fst (update_tested_cycles length_counter g1) = true ->
     finish_seed malloc length_counter g1 = Returns (len, known, g2) ->
     heap g2 !! cycle_bit_array g2 =
       Some (snd (malloc (heap (snd (update_tested_cycles length_counter g1))))) /\
     exists g' array,
       memset_scratch g2 = Returns g' /\
       cycle_bit_array g' = cycle_bit_array g2 /\
       heap g' !! cycle_bit_array g' = Some array /\
       test_bit array k = false).
Proof.
  intros Hinit.
  pose proof (main_init_cases malloc) as Hcases. rewrite Hinit in Hcases.
  destruct Hcases as (_ & _ & Hheap).
  assert (Hc : heap g !! cycle_bit_array g = Some (snd (malloc ∅)))
    by (rewrite Hheap; apply lookup_singleton_eq).
  split; [exact Hc |]. split; [apply (memset_scratch_clear g _ k Hc) |].
  intros length_counter g1 len known g2 Hupdated Hfinish.
  unfold finish_seed in Hfinish.
  destruct (update_tested_cycles length_counter g1) as [updated g1'].
  cbn [fst snd] in *. subst updated. unfold malloc_block in Hfinish.
  destruct (malloc (heap g1')) as [p contents].
  destruct (p =? NULL) eqn:Hp; cbv beta iota zeta in Hfinish;
    rewrite Hp in Hfinish; [discriminate |].
  injection Hfinish as _ _ <-. simpl_globals.
  assert (Hc2 : <[p := contents]> (heap g1') !! p = Some contents)
    by apply lookup_insert_eq.
  split; [exact Hc2 |].
  apply (memset_scratch_clear
           (set_cycle_bit_array p (set_heap (<[p := contents]> (heap g1')) g1'))
           contents k Hc2).
Qed.

Lemma scratch_clear_after_memset_witness :
  main_init stray_malloc =
    Returns (mk_globals 1 (replicate 7 0) (replicate 7 0) 0 {[1 := {[0 := 1]}]}) /\
  exists g' array,
    memset_scratch
      (mk_globals 1 (replicate 7 0) (replicate 7 0) 0 {[1 := {[0 := 1]}]})
      = Returns g' /\
    cycle_bit_array g' = 1 /\
    heap g' !! cycle_bit_array g' = Some array /\
    test_bit array 0 = false.
Proof.
  assert (H : main_init stray_malloc =
              Returns (mk_globals 1 (replicate 7 0) (replicate 7 0) 0
                         {[1 := {[0 := 1]}]})) by reflexivity.
  split; [exact H |].
  exact (proj1 (proj2 (scratch_clear_after_memset stray_malloc _ 0 H))).
Defined.

(** C6. After any sequence of [consider] calls from the empty cache the
    stored lengths do not increase with the rank. *)
Theorem consider_all_sorted (calls : list (N * N)) (i j : nat) :
  (i < j)%nat ->
  array_get (saved_cycle_lengths (consider_all calls initial_globals)) j <=
  array_get (saved_cycle_lengths (consider_all calls initial_globals)) i.
Proof.
  intros Hij.
  destruct (consider_all_sorted_inv calls initial_globals initial_globals_sorted_inv)
    as (_ & Hsorted & _).
  apply Hsorted, Hij.
Qed.

Lemma consider_all_sorted_witness :
  (0 < 1)%nat /\
  array_get (saved_cycle_lengths
               (consider_all [(5, 11); (9, 12); (7, 13)] initial_globals)) 1 <=
  array_get (saved_cycle_lengths
               (consider_all [(5, 11); (9, 12); (7, 13)] initial_globals)) 0.
Proof.
  assert (H : (0 < 1)%nat) by lia.
  split; [exact H |].
  exact (consider_all_sorted [(5, 11); (9, 12); (7, 13)] 0 1 H).
Defined.

(** C7. Along the scan of [main] the cache never holds more than
    [ARRAYS_TO_STORE = 7] records, and from the state before a seed to the
    state after it the largest retained length does not decrease.  The scan
    of [main] is the scan of the first [2^24] seeds; with an allocator that
    hands out fresh blocks it stops early only when an allocation fails, and
    with one that never fails every prefix of the scan runs to its end. *)
Theorem scan_cache_growth (malloc : allocator) (n : nat) :
  match main_init malloc with
  | Returns g0 =>
      seed_loop malloc g0 = scan_seeds malloc (2 ^ 24)%nat g0 /\
      match scan_seeds malloc n g0, scan_seeds malloc (Datatypes.S n) g0 with
      | Continue (g, _), Continue (g', _) =>
          (saved_array_count g <= ARRAYS_TO_STORE)%nat /\
          (saved_array_count g' <= ARRAYS_TO_STORE)%nat /\
          max_cached_length g <= max_cached_length g'
      | _, _ => True
      end /\
      (fresh_allocator malloc ->
       match scan_seeds malloc n g0 with
       | Continue _ => True
       | Stop r => r = Exits 1
       end) /\
      (fresh_allocator malloc -> never_fails malloc ->
       exists g printed, scan_seeds malloc n g0 = Continue (g, printed))
  | _ => True
  end.
Proof.
  pose proof (main_init_cases malloc) as Hinit.
  pose proof (fun H => scan_seeds_safe malloc H n) as Hsafe.
  pose proof (scan_seeds_runs malloc n) as Hruns.
  destruct (main_init malloc) as [g0 | |]; try exact I.
  destruct Hinit as (Hok & _).
  split; [apply seed_loop_scan |]. split; [| split].
  - rewrite scan_seeds_succ.
    pose proof (scan_seeds_scratch_ok malloc n g0 Hok) as Hn.
    destruct (scan_seeds malloc n g0) as [[g printed] | r]; [| exact I].
    unfold seed_body.
    pose proof (test_seed_for_cycle_cache malloc (N.of_nat n) g Hn) as Hstep.
    destruct (test_seed_for_cycle malloc (N.of_nat n) g)
      as [[[len known] g'] | |]; try exact I.
    destruct Hstep as ([Hwf' _] & Hcount & Hmono).
    destruct Hn as [Hwf _].
    destruct known; (split; [apply Hwf | split; [apply Hwf' |]]);
      apply max_cached_length_mono; assumption.
  - intros Hfresh. specialize (Hsafe Hfresh).
    destruct (scan_seeds malloc n g0) as [[g printed] | r];
      [exact I | exact Hsafe].
  - intros Hfresh Hmalloc.
    destruct (Hruns Hfresh Hmalloc) as (g0' & g & printed & [= <-] & Hrun & _).
    exists g, printed. exact Hrun.
Qed.

Lemma scan_cache_growth_witness :
  fresh_allocator (bump_malloc zeroed) /\ never_fails (bump_malloc zeroed) /\
  exists g printed,
    scan_seeds (bump_malloc zeroed) 3
      (mk_globals 1 (replicate 7 0) (replicate 7 0) 0 {[1 := zeroed]})
    = Continue (g, printed).
Proof.
  pose proof (bump_malloc_fresh zeroed) as Hfresh.
  pose proof (bump_malloc_never_fails zeroed) as Hmalloc.
  split; [exact Hfresh |]. split; [exact Hmalloc |].
  pose proof (scan_cache_growth (bump_malloc zeroed) 3) as Hscan.
  change (main_init (bump_malloc zeroed))
    with (@Returns globals
            (mk_globals 1 (replicate 7 0) (replicate 7 0) 0 {[1 := zeroed]}))
    in Hscan.
  cbv beta iota in Hscan.
  destruct Hscan as (_ & _ & _ & Hruns).
  exact (Hruns Hfresh Hmalloc).
Defined.

(** C8. [update_tested_cycles] returns false exactly when the cache is not
    empty and the candidate is larger than none of the stored lengths (the
    [ARRAYS_TO_STORE] entries of [saved_cycle_lengths], an empty rank storing
    0); it then leaves every global and every block as it was, and
    [test_seed_for_cycle] returns without calling [malloc]: the scratch
    pointer and the live blocks are the same, and the next trace zeroes the
    scratch block with its [memset] before it uses it. *)
Theorem update_tested_cycles_unchanged (malloc : allocator) (cycle_length : N)
    (g : globals) :
  (fst (update_tested_cycles cycle_length g) = false <->
   saved_array_count g <> 0%nat /\
   forall position, (position < ARRAYS_TO_STORE)%nat ->
     cycle_length <= array_get (saved_cycle_lengths g) position) /\
  (fst (update_tested_cycles cycle_length g) = false ->
   snd (update_tested_cycles cycle_length g) = g /\
   finish_seed malloc cycle_length g = Returns (cycle_length, false, g) /\
   (forall seed g0 r,
      lookup_seed g0 (seed_state seed) = Returns (false, r) ->
      trace_seed g0 (seed_state seed) = Returns (cycle_length, g) ->
      test_seed_for_cycle malloc seed g0 = Returns (cycle_length, false, g) /\
      cycle_bit_array g = cycle_bit_array g0 /\
      forall p, is_Some (heap g !! p) <-> is_Some (heap g0 !! p)) /\
   (forall contents, heap g !! cycle_bit_array g = Some contents ->
      memset_scratch g =
        Returns (set_heap (<[cycle_bit_array g := zeroed]> (heap g)) g))) /\
  (cache_wf g ->
   (saved_array_count g = ARRAYS_TO_STORE ->
    (fst (update_tested_cycles cycle_length g) = false <->
     forall i, (i < saved_array_count g)%nat ->
       cycle_length <= array_get (saved_cycle_lengths g) i)) /\
   ((0 < saved_array_count g < ARRAYS_TO_STORE)%nat ->
    (fst (update_tested_cycles cycle_length g) = false <-> cycle_length = 0))).
Proof.
  destruct (update_tested_cycles_false cycle_length g) as [Hiff Hframe].
  split; [exact Hiff |]. split.
  - intros Hfalse. specialize (Hframe Hfalse).
    split; [exact Hframe |]. split; [| split].
    + unfold finish_seed.
      destruct (update_tested_cycles cycle_length g) as [updated g'].
      cbn [fst snd] in *. subst. reflexivity.
    + intros seed g0 r Hlookup Htrace.
      apply (test_seed_for_cycle_reuses malloc seed g0 r cycle_length g);
        assumption.
    + intros contents Hc. unfold memset_scratch. rewrite Hc. reflexivity.
  - intros (_ & _ & _ & _ & Hzero). rewrite Hiff. split.
    + intros Hfull. rewrite Hfull. unfold ARRAYS_TO_STORE. split.
      * intros [_ Hall]. exact Hall.
      * intros Hall. split; [lia | exact Hall].
    + intros Hcount. split.
      * intros [_ Hall]. specialize (Hall (saved_array_count g) ltac:(lia)).
        rewrite Hzero in Hall by lia. lia.
      * intros ->. split; [lia | intros; lia].
Qed.

Lemma update_tested_cycles_unchanged_witness :
  fst (update_tested_cycles 2 tie_cache) = false /\
  snd (update_tested_cycles 2 tie_cache) = tie_cache /\
  finish_seed failing_malloc 2 tie_cache = Returns (2, false, tie_cache).
Proof.
  assert (H : fst (update_tested_cycles 2 tie_cache) = false) by reflexivity.
  split; [exact H |].
  pose proof (proj1 (proj2 (update_tested_cycles_unchanged failing_malloc 2
                               tie_cache)) H)
    as (Hsame & Hfinish & _).
  split; [exact Hsame | exact Hfinish].
Defined.

(** C9. The encoding is a bijection between the states of four bytes and
    the keys below [2^32]: it packs [a], [b], [c], [d] into bits 0-7, 8-15,
    16-23 and 24-31, decoding an encoded state gives the state back, two
    states with the same key are the same state, and every key below
    [2^32] is the encoding of the state it decodes to. *)
Theorem encode_state_bijection (s s' : sfc8_t) (key : N) :
  valid_state s -> valid_state s' -> key < 2 ^ 32 ->
  encode_state s = a s + b s * 2 ^ 8 + c s * 2 ^ 16 + d s * 2 ^ 24 /\
  (forall i, i < 8 ->
     N.testbit (encode_state s) i = N.testbit (a s) i /\
     N.testbit (encode_state s) (8 + i) = N.testbit (b s) i /\
     N.testbit (encode_state s) (16 + i) = N.testbit (c s) i /\
     N.testbit (encode_state s) (24 + i) = N.testbit (d s) i) /\
  encode_state s < 2 ^ 32 /\
  decode_state (encode_state s) = s /\
  (encode_state s = encode_state s' -> s = s') /\
  valid_state (decode_state key) /\
  encode_state (decode_state key) = key.
Proof.
  intros Hs Hs' Hkey.
  split; [apply encode_state_sum, Hs |].
  split; [intros i Hi; apply encode_state_bits; assumption |].
  repeat split.
  - apply (encode_state_lt s Hs).
  - apply decode_encode_state, Hs.
  - apply encode_state_inj; assumption.
  - apply to_uint8_lt.
  - apply to_uint8_lt.
  - apply to_uint8_lt.
  - apply to_uint8_lt.
  - apply encode_decode_state, Hkey.
Qed.

Lemma encode_state_bijection_witness :
  encode_state (mk_sfc8 1 2 3 128) = 2147680769 /\
  decode_state 2147680769 = mk_sfc8 1 2 3 128.
Proof.
  assert (H1 : valid_state (mk_sfc8 1 2 3 128)) by (repeat split).
  assert (H2 : valid_state (mk_sfc8 4 3 2 1)) by (repeat split).
  assert (H3 : 7 < 2 ^ 32) by reflexivity.
  pose proof (encode_state_bijection _ _ _ H1 H2 H3) as (He & _ & _ & Hd & _).
  split; [exact He | exact Hd].
Defined.

(** C10. For a seed that misses the cache the [memset] zeroes the scratch
    block before the loop runs on it, whatever the block held: the loop
    starts from an array with no bit set, the outcome of the trace does not
    depend on the previous contents of the block, and the length reported
    for a traced seed is the trajectory length, which is at least 1. *)
Theorem trace_seed_starts_clear (malloc : allocator) (g : globals) (seed : N)
    (contents : bitarray) :
  heap g !! cycle_bit_array g = Some contents ->
  memset_scratch g =
    Returns (set_heap (<[cycle_bit_array g := zeroed]> (heap g)) g) /\
  all_clear zeroed /\
  trace_seed g (seed_state seed) =
    run_trace (set_heap (<[cycle_bit_array g := zeroed]> (heap g)) g)
      (seed_state seed) /\
  trace_seed g (seed_state seed) =
    Returns (fst (trace_loop zeroed (seed_state seed)),
             set_heap (<[cycle_bit_array g :=
                           snd (trace_loop zeroed (seed_state seed))]> (heap g)) g) /\
  trace_result (seed_state seed) (fst (trace_loop zeroed (seed_state seed)))
    (snd (trace_loop zeroed (seed_state seed))) /\
  1 <= fst (trace_loop zeroed (seed_state seed)) /\
  (forall contents',
     trace_seed (set_heap (<[cycle_bit_array g := contents']> (heap g)) g)
       (seed_state seed) = trace_seed g (seed_state seed)) /\
  match test_seed_for_cycle malloc seed g with
  | Returns (len, was_on_known_cycle, _) =>
      was_on_known_cycle = false ->
      len = fst (trace_loop zeroed (seed_state seed)) /\ 1 <= len
  | _ => True
  end.
Proof.
  intros Hc.
  assert (Hlive : is_Some (heap g !! cycle_bit_array g)) by (eexists; exact Hc).
  pose proof (trace_loop_clear zeroed (seed_state seed) (seed_state_valid seed)
                test_bit_zeroed) as Hresult.
  assert (Hlen : 1 <= fst (trace_loop zeroed (seed_state seed))).
  { destruct Hresult as [[Hpos _] _]. lia. }
  split; [unfold memset_scratch; rewrite Hc; reflexivity |].
  split; [exact test_bit_zeroed |].
  split; [unfold trace_seed, memset_scratch; rewrite Hc; reflexivity |].
  split; [apply trace_seed_returns, Hlive |].
  split; [exact Hresult |]. split; [exact Hlen |]. split.
  - intros contents'. rewrite !trace_seed_returns.
    + simpl_globals. rewrite insert_insert_eq. reflexivity.
    + exact Hlive.
    + simpl_globals. rewrite lookup_insert_eq. eexists. reflexivity.
  - unfold test_seed_for_cycle.
    destruct (lookup_seed g (seed_state seed)) as [[[] i] | |]; try exact I.
    + discriminate.
    + rewrite trace_seed_returns by exact Hlive.
      match goal with
      | |- context [finish_seed malloc ?len ?g1] =>
          pose proof (finish_seed_result malloc len g1) as Hfin;
          destruct (finish_seed malloc len g1) as [[[len' known] g'] | |]
      end; try exact I.
      destruct Hfin as [-> _]. intros _. split; [reflexivity | exact Hlen].
Qed.

Lemma trace_seed_starts_clear_witness :
  heap example_cache !! cycle_bit_array example_cache = Some {[0 := 1]} /\
  1 <= fst (trace_loop zeroed (seed_state 7)).
Proof.
  assert (H : heap example_cache !! cycle_bit_array example_cache
              = Some {[0 := 1]}) by reflexivity.
  split; [exact H |].
  exact (proj1 (proj2 (proj2 (proj2 (proj2 (proj2
           (trace_seed_starts_clear failing_malloc example_cache 7 _ H))))))).
Defined.

(** * Further properties of the program

    Properties of the parts of the program that the specification does not
    speak of: the bit vectors, the seeds, the cycles of the generator, the
    records of the cache, the lengths the program reports and the end of
    [main]. *)

(** ** The inverse of the transition *)

Lemma forall_bytes (P : N -> bool) :
  forallb P bytes = true -> forall x, x < 256 -> P x = true.
Proof.
  intros Hall x Hx. rewrite forallb_forall in Hall. apply Hall.
  unfold bytes. apply in_map_iff. exists (N.to_nat x). split; [lia |].
  apply in_seq. lia.
Qed.

Lemma xorshift_inverse x :
  x < 256 ->
  let y := N.lxor x (N.shiftr x 2) in
  N.lxor (N.lxor y (N.shiftr y 2)) (N.lxor (N.shiftr y 4) (N.shiftr y 6)) = x.
Proof.
  intros Hx. apply N.eqb_eq.
  apply (forall_bytes (fun x =>
           let y := N.lxor x (N.shiftr x 2) in
           N.lxor (N.lxor y (N.shiftr y 2)) (N.lxor (N.shiftr y 4) (N.shiftr y 6))
           =? x)); [vm_compute; reflexivity | exact Hx].
Qed.

Lemma sfc8_previous_advance s : valid_state s -> sfc8_previous (sfc8_advance s) = s.
Proof.
  intros (Ha & Hb & Hc & Hd). destruct s as [sa sb sc sd]. cbn in Ha, Hb, Hc, Hd.
  unfold sfc8_advance, sfc8_previous, set_a, set_b, set_c, set_d. cbn [a b c d].
  assert (Hb0 : to_uint8 (N.lxor sb (N.shiftr sb 2)) = N.lxor sb (N.shiftr sb 2))
    by (apply lxor_shiftr_byte, Hb).
  rewrite Hb0, (xorshift_inverse sb Hb).
  assert (Hc0 : (171 * to_uint8 (sc + N.shiftl sc 1)) mod 256 = sc).
  { unfold to_uint8. rewrite N.shiftl_mul_pow2. change (2 ^ 1) with 2. lia. }
  rewrite Hc0.
  assert (Hd0 : (to_uint8 (sd + 1) + 255) mod 256 = sd) by (unfold to_uint8; lia).
  rewrite Hd0. f_equal.
  unfold rotate_left8, to_uint8. change (8 - 3) with 5.
  generalize (N.lor (N.shiftl sc 3) (N.shiftr sc 5)). intros r. lia.
Qed.

Lemma xorshift_inverse_byte x :
  x < 256 ->
  let y := N.lxor (N.lxor x (N.shiftr x 2)) (N.lxor (N.shiftr x 4) (N.shiftr x 6)) in
  y < 256 /\ N.lxor y (N.shiftr y 2) = x.
Proof.
  intros Hx.
  pose proof (forall_bytes (fun x =>
    let y := N.lxor (N.lxor x (N.shiftr x 2))
               (N.lxor (N.shiftr x 4) (N.shiftr x 6)) in
    (y <? 256) && (N.lxor y (N.shiftr y 2) =? x)) ltac:(vm_compute; reflexivity)
    x Hx) as H.
  cbv zeta in H. apply andb_true_iff in H as [H1 H2].
  apply N.ltb_lt in H1. apply N.eqb_eq in H2. split; assumption.
Qed.

Lemma sfc8_previous_valid s : valid_state s -> valid_state (sfc8_previous s).
Proof.
  intros (Ha & _). unfold sfc8_previous, valid_state. cbn [a b c d].
  repeat split; try (apply N.mod_lt; discriminate).
  apply (xorshift_inverse_byte (a s) Ha).
Qed.

Lemma sfc8_advance_previous s : valid_state s -> sfc8_advance (sfc8_previous s) = s.
Proof.
  intros (Ha & Hb & Hc & Hd). destruct s as [sa sb sc sd]. cbn in Ha, Hb, Hc, Hd.
  destruct (xorshift_inverse_byte sa Ha) as [Hb0 Hinv]. cbv zeta in Hb0, Hinv.
  unfold sfc8_advance, sfc8_previous, set_a, set_b, set_c, set_d. cbn [a b c d].
  set (b0 := N.lxor (N.lxor sa (N.shiftr sa 2))
               (N.lxor (N.shiftr sa 4) (N.shiftr sa 6))) in *.
  f_equal.
  - rewrite Hinv. unfold to_uint8. apply N.mod_small, Ha.
  - unfold to_uint8. rewrite N.shiftl_mul_pow2. change (2 ^ 1) with 2. lia.
  - unfold rotate_left8, to_uint8. change (8 - 3) with 5.
    rewrite N.shiftl_mul_pow2. 
    generalize (N.lor (N.shiftl ((171 * sb) mod 256) 3)
                  (N.shiftr ((171 * sb) mod 256) 5)). intros r. lia.
  - unfold to_uint8. lia.
Qed.

Lemma sfc8_advance_inj s s' :
  valid_state s -> valid_state s' -> sfc8_advance s = sfc8_advance s' -> s = s'.
Proof.
  intros Hs Hs' Heq.
  rewrite <- (sfc8_previous_advance s Hs), <- (sfc8_previous_advance s' Hs').
  now rewrite Heq.
Qed.

(** ** Cycles *)

Lemma orbit_add s i j : orbit s (i + j) = orbit (orbit s j) i.
Proof. unfold orbit. apply N.iter_add. Qed.

Lemma orbit_cancel s s' i :
  valid_state s -> valid_state s' -> orbit s i = orbit s' i -> s = s'.
Proof.
  intros Hs Hs'. induction i as [| i IH] using N.peano_ind; [trivial |].
  rewrite !orbit_succ. intros Heq. apply IH.
  apply sfc8_advance_inj; [apply orbit_valid, Hs | apply orbit_valid, Hs' | exact Heq].
Qed.

Lemma orbit_return s i j :
  valid_state s -> i <= j -> orbit s i = orbit s j -> orbit s (j - i) = s.
Proof.
  intros Hs Hij Heq. symmetry.
  apply (orbit_cancel s (orbit s (j - i)) i Hs (orbit_valid s (j - i) Hs)).
  rewrite <- orbit_add. replace (i + (j - i)) with j by lia. exact Heq.
Qed.

Lemma orbit_d s i : d s < 256 -> d (orbit s i) = (d s + i) mod 256.
Proof.
  intros Hd. induction i as [| i IH] using N.peano_ind.
  - cbn. lia.
  - rewrite orbit_succ.
    change (d (sfc8_advance (orbit s i))) with (to_uint8 (d (orbit s i) + 1)).
    rewrite IH. unfold to_uint8. lia.
Qed.

Lemma orbit_multiple s p m : orbit s p = s -> orbit s (m * p) = s.
Proof.
  intros Hp. induction m as [| m IH] using N.peano_ind; [reflexivity |].
  replace (N.succ m * p) with (p + m * p) by lia.
  rewrite orbit_add, IH. exact Hp.
Qed.

Lemma orbit_mod s p n : orbit s p = s -> p <> 0 -> orbit s n = orbit s (n mod p).
Proof.
  intros Hp Hp0.
  rewrite (N.div_mod n p Hp0) at 1.
  rewrite (N.add_comm (p * (n / p))), (N.mul_comm p), orbit_add.
  rewrite orbit_multiple by exact Hp. reflexivity.
Qed.

(** The first repeated key of a trajectory is the key of its first state:
    the length is the least positive number of steps that leads back. *)
Lemma trace_result_period s len array :
  valid_state s -> trace_result s len array ->
  orbit s len = s /\ forall i, 0 < i < len -> orbit s i <> s.
Proof.
  intros Hs ((Hpos & _) & Hdist & (i & Hi & Hrep) & _).
  assert (Hfirst : forall i, 0 < i < len -> orbit s i <> s).
  { intros j Hj Heq. apply (Hdist 0 j); [lia | lia |].
    unfold orbit_key. rewrite Heq. reflexivity. }
  split; [| exact Hfirst].
  apply encode_state_inj in Hrep; [| apply orbit_valid, Hs | apply orbit_valid, Hs].
  apply orbit_return in Hrep; [| exact Hs | lia].
  destruct (N.eq_dec i 0) as [-> | Hi0].
  - rewrite N.sub_0_r in Hrep. exact Hrep.
  - exfalso. apply (Hfirst (len - i)); [lia | exact Hrep].
Qed.

Lemma period_multiple s len :
  valid_state s -> orbit s len = s -> len mod 256 = 0.
Proof.
  intros (_ & _ & _ & Hd) Hp. pose proof (orbit_d s len Hd) as Hdl.
  rewrite Hp in Hdl. lia.
Qed.

(** A state of the trajectory has a trajectory at most as long, and marks
    no other keys. *)
Lemma trace_result_within s j len array len' array' :
  valid_state s ->
  trace_result s len array -> trace_result (orbit s j) len' array' ->
  len' <= len /\ forall k, test_bit array' k = true -> test_bit array k = true.
Proof.
  intros Hs Hr Hr'.
  destruct (trace_result_period s len array Hs Hr) as [Hp _].
  destruct Hr as ((Hpos & _) & _ & _ & Hbits).
  destruct Hr' as (_ & Hdist' & _ & Hbits').
  assert (Hshift : forall i, orbit (orbit s j) i = orbit s ((i + j) mod len)).
  { intros i. rewrite <- orbit_add. apply orbit_mod; [exact Hp | lia]. }
  split.
  - destruct (N.le_gt_cases len' len) as [Hle | Hgt]; [exact Hle | exfalso].
    apply (Hdist' 0 len); [lia | exact Hgt |].
    unfold orbit_key. rewrite !Hshift. f_equal. f_equal.
    rewrite N.add_0_l.
    rewrite <- (N.Div0.add_mod_idemp_l len j len), N.Div0.mod_same, N.add_0_l.
    reflexivity.
  - intros k Hk. apply Hbits' in Hk as (i & Hi & ->). apply Hbits.
    exists ((i + j) mod len). split; [apply N.mod_lt; lia |].
    unfold orbit_key. rewrite Hshift. reflexivity.
Qed.

(** Every state of the trajectory leads back to its first state. *)
Lemma orbit_back s j len :
  orbit s len = s -> len <> 0 -> exists m, orbit (orbit s j) m = s.
Proof.
  intros Hp Hpos. exists (len * (j / len + 1) - j).
  rewrite <- orbit_add.
  assert (Hle : j <= len * (j / len + 1)).
  { pose proof (N.div_mod j len Hpos). pose proof (N.mod_lt j len Hpos). lia. }
  replace (len * (j / len + 1) - j + j) with ((j / len + 1) * len) by lia.
  apply orbit_multiple, Hp.
Qed.

(** All states of a cycle have the same length and the same fingerprint. *)
Lemma trace_result_same_cycle s j len array len' array' :
  valid_state s ->
  trace_result s len array -> trace_result (orbit s j) len' array' ->
  len' = len /\ forall k, test_bit array' k = test_bit array k.
Proof.
  intros Hs Hr Hr'.
  destruct (trace_result_within s j len array len' array' Hs Hr Hr') as [Hle Hsub].
  destruct (trace_result_period s len array Hs Hr) as [Hp _].
  assert (Hpos : len <> 0) by (destruct Hr as ((H & _) & _); lia).
  destruct (orbit_back s j len Hp Hpos) as [m Hm].
  pose proof Hr as Hr0. rewrite <- Hm in Hr0.
  destruct (trace_result_within (orbit s j) m len' array' len array
              (orbit_valid s j Hs) Hr' Hr0) as [Hle' Hsub'].
  split; [lia |]. intros k.
  destruct (test_bit array' k) eqn:H1, (test_bit array k) eqn:H2; try reflexivity.
  - apply Hsub in H1. congruence.
  - apply Hsub' in H2. congruence.
Qed.

(** ** Bit vectors *)

Lemma lor_lt_pow2 x y n : x < 2 ^ n -> y < 2 ^ n -> N.lor x y < 2 ^ n.
Proof.
  intros Hx Hy. destruct (N.eq_dec (N.lor x y) 0) as [-> | Hne].
  - apply N.neq_0_lt_0, N.pow_nonzero. discriminate.
  - apply N.log2_lt_pow2; [lia |]. rewrite N.log2_lor.
    destruct (N.eq_dec x 0) as [-> | Hx0], (N.eq_dec y 0) as [-> | Hy0].
    + contradiction.
    + cbn [N.log2]. rewrite N.max_0_l. apply N.log2_lt_pow2; [lia | exact Hy].
    + cbn [N.log2]. rewrite N.max_0_r. apply N.log2_lt_pow2; [lia | exact Hx].
    + apply N.max_lub_lt; apply N.log2_lt_pow2; (lia || assumption).
Qed.

Lemma BIT_INDEX_lt k : BIT_INDEX k < 64.
Proof. rewrite BIT_INDEX_mod. apply N.mod_lt. discriminate. Qed.

Lemma bit_word_lt k : N.shiftl 1 (BIT_INDEX k) < 2 ^ 64.
Proof.
  rewrite N.shiftl_1_l. apply N.pow_lt_mono_r; [reflexivity | apply BIT_INDEX_lt].
Qed.

Lemma block_ok_read_word array w : block_ok array -> read_word array w < 2 ^ 64.
Proof.
  intros Hok. unfold read_word. destruct (array !! w) as [v |] eqn:Hv.
  - apply (Hok w v Hv).
  - reflexivity.
Qed.

Lemma test_and_set_bit_block_ok array k :
  k < POSSIBLE_STATES -> block_ok array -> block_ok (snd (test_and_set_bit array k)).
Proof.
  intros Hk Hok w v. unfold test_and_set_bit. cbn [snd].
  destruct (N.eq_dec (WORD_INDEX k) w) as [<- | Hne].
  - rewrite lookup_insert_eq. intros [= <-]. split; [apply WORD_INDEX_lt, Hk |].
    apply lor_lt_pow2; [apply block_ok_read_word, Hok | apply bit_word_lt].
  - rewrite lookup_insert_ne by exact Hne. apply Hok.
Qed.

Lemma mark_orbit_block_ok array s n :
  valid_state s -> block_ok array -> block_ok (mark_orbit array s n).
Proof.
  revert array s. induction n as [| n IH]; intros array s Hs Hok; [exact Hok |].
  cbn [mark_orbit]. apply IH; [apply sfc8_advance_valid |].
  apply test_and_set_bit_block_ok; [apply encode_state_lt, Hs | exact Hok].
Qed.

Lemma trace_loop_marks array s :
  exists n, snd (trace_loop array s) = mark_orbit array s n.
Proof.
  unfold trace_loop. rewrite for_pow2_count. generalize (2 ^ 32)%nat. intros n.
  pose proof (for_count_trace n 0 array s) as Hloop.
  destruct (for_count trace_body n 0 (array, s)) as [[array' s'] | [len array']].
  - destruct Hloop as (-> & _). exists n. reflexivity.
  - destruct Hloop as (m & _ & _ & _ & _ & ->). exists (Datatypes.S m). reflexivity.
Qed.

Lemma zeroed_block_ok : block_ok zeroed.
Proof. intros w v Hv. unfold zeroed in Hv. rewrite lookup_empty in Hv. discriminate. Qed.

(** Setting a bit that is set changes nothing. *)
Lemma test_and_set_bit_same array k :
  test_bit array k = true -> snd (test_and_set_bit array k) = array.
Proof.
  unfold test_bit, test_and_set_bit. cbn [snd]. rewrite land_bit_test.
  unfold read_word. intros Hbit. apply insert_id.
  destruct (array !! WORD_INDEX k) as [v |].
  - change (N.testbit v (BIT_INDEX k) = true) in Hbit.
    change (Some v = Some (N.lor v (N.shiftl 1 (BIT_INDEX k)))).
    f_equal. symmetry. apply N.bits_inj. intros m.
    rewrite N.lor_spec, N.shiftl_1_l, N.pow2_bits_eqb.
    destruct (N.eqb_spec (BIT_INDEX k) m) as [<- | _].
    + rewrite Hbit. reflexivity.
    + apply orb_false_r.
  - change (N.testbit 0 (BIT_INDEX k) = true) in Hbit.
    rewrite N.bits_0 in Hbit. discriminate.
Qed.

Lemma for_count_first_stop {S R} (body : N -> S -> step S R) n first s r :
  n <> 0%nat -> body first s = Stop r -> for_count body n first s = Stop r.
Proof.
  intros Hn Hbody. destruct n as [| n]; [contradiction |].
  cbn [for_count]. rewrite Hbody. reflexivity.
Qed.

Lemma trace_loop_stale array s :
  test_bit array (encode_state s) = true -> trace_loop array s = (0, array).
Proof.
  intros Hbit. unfold trace_loop. rewrite for_pow2_count.
  rewrite (for_count_first_stop trace_body _ 0 (array, s) (0, array)).
  - reflexivity.
  - intros Hz. pose proof pow2_32_nat as Hn. rewrite Hz in Hn. discriminate.
  - unfold trace_body.
    pose proof (test_and_set_bit_fst array (encode_state s)) as Hfst.
    pose proof (test_and_set_bit_same array (encode_state s) Hbit) as Hsnd.
    destruct (test_and_set_bit array (encode_state s)) as [collision array'].
    cbn [fst snd] in *. subst. rewrite Hbit. reflexivity.
Qed.

(** ** Seeds *)

Lemma seed_state_key seed :
  encode_state (seed_state seed) = seed mod 2 ^ 24 + 2 ^ 24.
Proof.
  rewrite encode_state_sum by apply seed_state_valid.
  unfold seed_state, to_uint8. cbn [a b c d]. rewrite !N.shiftr_div_pow2.
  pow2_constants. lia.
Qed.

Lemma seed_state_onto s :
  valid_state s -> d s = 1 ->
  seed_state (a s + b s * 2 ^ 8 + c s * 2 ^ 16) = s /\
  a s + b s * 2 ^ 8 + c s * 2 ^ 16 < 2 ^ 24.
Proof.
  intros (Ha & Hb & Hc & _) Hd. destruct s as [sa sb sc sd]. cbn in *. subst sd.
  unfold seed_state, to_uint8. rewrite !N.shiftr_div_pow2. pow2_constants.
  split; [f_equal; lia | lia].
Qed.

(** ** Blocks freed by the update *)

Lemma update_loop_frame n p did cp cl g :
  (p + n = ARRAYS_TO_STORE)%nat ->
  heap (snd (update_loop (seq p n) did cp cl g)) = heap g \/
  (array_get (tested_cycle_bit_arrays g) (ARRAYS_TO_STORE - 1) <> NULL /\
   heap (snd (update_loop (seq p n) did cp cl g)) =
     delete (array_get (tested_cycle_bit_arrays g) (ARRAYS_TO_STORE - 1)) (heap g)).
Proof.
  revert p did cp cl g. induction n as [| n IH]; intros p did cp cl g Hp.
  - left. reflexivity.
  - cbn [seq update_loop].
    destruct (array_get (saved_cycle_lengths g) p <? cl);
      [| apply IH; lia].
    destruct (N.eqb_spec (array_get (tested_cycle_bit_arrays g) p) NULL)
      as [Hprev | Hprev]; cbn [negb]; [left; reflexivity |].
    destruct (Nat.eqb_spec p (ARRAYS_TO_STORE - 1)) as [-> | Hlast].
    + assert (n = 0%nat) as -> by (unfold ARRAYS_TO_STORE in Hp; lia).
      right. split; [exact Hprev | reflexivity].
    + match goal with
      | |- context [update_loop _ _ _ _ ?g1] =>
          destruct (IH (Datatypes.S p) true
                      (array_get (tested_cycle_bit_arrays g) p)
                      (array_get (saved_cycle_lengths g) p) g1 ltac:(lia))
            as [Hsame | [Hnull Hfree]]
      end.
      * left. exact Hsame.
      * right. simpl_globals.
        rewrite array_get_insert_ne in Hnull, Hfree by exact (not_eq_sym Hlast).
        split; assumption.
Qed.

Lemma update_tested_cycles_frame_heap cycle_length g :
  heap (snd (update_tested_cycles cycle_length g)) = heap g \/
  (array_get (tested_cycle_bit_arrays g) (ARRAYS_TO_STORE - 1) <> NULL /\
   heap (snd (update_tested_cycles cycle_length g)) =
     delete (array_get (tested_cycle_bit_arrays g) (ARRAYS_TO_STORE - 1)) (heap g)).
Proof.
  unfold update_tested_cycles. destruct (saved_array_count g =? 0)%nat.
  - left. reflexivity.
  - apply update_loop_frame. reflexivity.
Qed.

Lemma update_tested_cycles_heap_sub cycle_length g p array :
  heap (snd (update_tested_cycles cycle_length g)) !! p = Some array ->
  heap g !! p = Some array.
Proof.
  destruct (update_tested_cycles_frame_heap cycle_length g) as [-> | [_ ->]].
  - trivial.
  - intros H. apply lookup_delete_Some in H. apply H.
Qed.

(** ** The stored lengths after an update *)

Lemma insert_desc_le x l : Forall (fun y => y <= x) l -> insert_desc x l = x :: l.
Proof.
  induction 1 as [| y l Hy Hl IH]; [reflexivity |].
  cbn [insert_desc]. destruct (N.ltb_spec y x) as [Hlt | Hge]; [reflexivity |].
  rewrite IH. assert (y = x) as -> by lia. reflexivity.
Qed.

Lemma take_cons_replicate {A} (x : A) n :
  take n (x :: replicate n x) = replicate n x.
Proof. induction n as [| n IH]; [reflexivity |]. cbn. f_equal. exact IH. Qed.

Lemma array_get_lookup (l : list N) i x : l !! i = Some x -> array_get l i = x.
Proof. intros H. unfold array_get. rewrite H. reflexivity. Qed.

(** The entries of the length array after the last record are zero. *)
Lemma drop_lengths_zero g p :
  cache_wf g -> (saved_array_count g <= p)%nat -> (p <= ARRAYS_TO_STORE)%nat ->
  drop p (saved_cycle_lengths g) = replicate (ARRAYS_TO_STORE - p) 0.
Proof.
  intros (_ & Hll & _ & _ & Hzero) Hp Hp7. symmetry. apply replicate_as_Forall.
  split; [rewrite length_drop, Hll; reflexivity |].
  apply Forall_lookup. intros i y Hy. rewrite lookup_drop in Hy.
  apply array_get_lookup in Hy. rewrite Hzero in Hy by lia. exact Hy.
Qed.

Lemma update_loop_lengths n p did cp cl g :
  cache_wf g -> (p + n = ARRAYS_TO_STORE)%nat -> cp <> NULL ->
  ((saved_array_count g < p)%nat -> cl = 0) ->
  (forall i j, (p <= i < j)%nat ->
     array_get (saved_cycle_lengths g) j <= array_get (saved_cycle_lengths g) i) ->
  saved_cycle_lengths (snd (update_loop (seq p n) did cp cl g)) =
    take p (saved_cycle_lengths g) ++
    take n (insert_desc cl (drop p (saved_cycle_lengths g))).
Proof.
  revert p did cp cl g.
  induction n as [| n IH]; intros p did cp cl g Hwf Hp Hcp Hcl Hsorted.
  - cbn [seq update_loop snd take]. rewrite app_nil_r, take_ge; [reflexivity |].
    destruct Hwf as (_ & Hll & _). rewrite Hll. lia.
  - pose proof Hwf as (Hlt & Hll & Hcount & Hnull & Hzero).
    destruct (lookup_lt_is_Some_2 (saved_cycle_lengths g) p ltac:(rewrite Hll; lia))
      as [x Hx].
    rewrite (drop_S _ _ _ Hx). cbn [seq update_loop insert_desc].
    rewrite (array_get_lookup _ _ _ Hx).
    destruct (N.ltb_spec x cl) as [Hlt' | Hge].
    + fold (store_slot p cp cl g). cbn [take].
      assert (Hstore : saved_cycle_lengths (store_slot p cp cl g) =
                <[p := cl]> (saved_cycle_lengths g)) by reflexivity.
      assert (Hins : <[p := cl]> (saved_cycle_lengths g) =
                take p (saved_cycle_lengths g) ++
                cl :: drop (Datatypes.S p) (saved_cycle_lengths g)).
      { apply insert_take_drop. rewrite Hll. lia. }
      destruct (N.eqb_spec (array_get (tested_cycle_bit_arrays g) p) NULL)
        as [Hprev | Hprev]; cbn [negb].
      * assert (Hpc : p = saved_array_count g).
        { apply (empty_slot_position p cl g); try assumption; try lia.
          rewrite (array_get_lookup _ _ _ Hx). exact Hlt'. }
        cbn [snd].
        change (saved_cycle_lengths (set_saved_array_count _ ?g'))
          with (saved_cycle_lengths g').
        rewrite Hstore, Hins. f_equal. f_equal.
        assert (x = 0) as ->.
        { rewrite <- (array_get_lookup _ _ _ Hx). apply Hzero. lia. }
        rewrite (drop_lengths_zero g (Datatypes.S p) Hwf) by lia.
        replace (ARRAYS_TO_STORE - Datatypes.S p)%nat with n by lia.
        symmetry. apply take_cons_replicate.
      * assert (Hpc : (p < saved_array_count g)%nat)
          by (apply Hnull; [lia | exact Hprev]).
        destruct (Nat.eqb_spec p (ARRAYS_TO_STORE - 1)) as [Hlast | Hlast].
        -- assert (n = 0%nat) as -> by lia.
           cbn [seq update_loop snd take].
           change (saved_cycle_lengths (free _ ?g')) with (saved_cycle_lengths g').
           rewrite Hstore, Hins. f_equal. f_equal. apply drop_ge. rewrite Hll. lia.
        -- rewrite IH.
           ++ rewrite Hstore.
              rewrite (take_S_r _ p cl)
                by (apply list_lookup_insert_eq; rewrite Hll; lia).
              rewrite take_insert_ge by lia.
              rewrite drop_insert_lt by lia.
              rewrite <- app_assoc. cbn [app]. f_equal. f_equal.
              rewrite insert_desc_le; [reflexivity |].
              apply Forall_lookup. intros i y Hy. rewrite lookup_drop in Hy.
              rewrite <- (array_get_lookup _ _ _ Hx), <- (array_get_lookup _ _ _ Hy).
              apply Hsorted. lia.
           ++ apply store_slot_wf; assumption.
           ++ lia.
           ++ exact Hprev.
           ++ change (saved_array_count (store_slot p cp cl g))
                with (saved_array_count g). lia.
           ++ intros i j Hij. rewrite !store_slot_lengths by (exact Hwf || lia).
              rewrite !decide_False by lia. apply Hsorted. lia.
    + rewrite IH; try assumption; try lia.
      * rewrite (take_S_r _ p x Hx), <- app_assoc. reflexivity.
      * intros Hc. destruct (decide (saved_array_count g = p)) as [Heq | Hne].
        -- assert (x = 0); [| lia].
           rewrite <- (array_get_lookup _ _ _ Hx). apply Hzero. lia.
        -- apply Hcl. lia.
      * intros i j Hij. apply Hsorted. lia.
Qed.

Lemma update_tested_cycles_lengths_insert cycle_length g :
  scratch_ok g -> lengths_sorted g ->
  saved_cycle_lengths (snd (update_tested_cycles cycle_length g)) =
    take ARRAYS_TO_STORE (insert_desc cycle_length (saved_cycle_lengths g)).
Proof.
  intros [Hwf Hscratch] Hsorted. unfold update_tested_cycles.
  destruct (Nat.eqb_spec (saved_array_count g) 0) as [Hz | Hnz].
  - cbn [snd]. simpl_globals.
    pose proof (drop_lengths_zero g 0 Hwf ltac:(lia) ltac:(unfold ARRAYS_TO_STORE; lia))
      as Hzero.
    rewrite drop_0 in Hzero. rewrite Hzero.
    destruct (N.eq_dec cycle_length 0) as [-> | Hpos]; [reflexivity |].
    cbn [replicate ARRAYS_TO_STORE Nat.sub insert_desc].
    rewrite (proj2 (N.ltb_lt 0 cycle_length)) by lia. reflexivity.
  - rewrite (update_loop_lengths ARRAYS_TO_STORE 0); try assumption; try lia.
    + reflexivity.
    + intros i j Hij. apply Hsorted. lia.
Qed.

Lemma consider_lengths call g :
  cache_wf g -> snd call <> NULL -> sorted_inv g ->
  saved_cycle_lengths (snd (consider call g)) =
    take ARRAYS_TO_STORE (insert_desc (fst call) (saved_cycle_lengths g)).
Proof.
  intros Hwf Hcall (_ & Hsorted & _). unfold consider.
  apply (update_tested_cycles_lengths_insert (fst call)
           (set_cycle_bit_array (snd call) g)).
  - split; [exact Hwf | exact Hcall].
  - exact Hsorted.
Qed.

Lemma initial_globals_wf : cache_wf initial_globals.
Proof. apply cache_okb_wf. reflexivity. Qed.

Lemma consider_all_lengths_from calls g :
  cache_wf g -> sorted_inv g -> Forall (fun call => snd call <> NULL) calls ->
  saved_cycle_lengths (consider_all calls g) =
    fold_left (fun lengths call =>
                 take ARRAYS_TO_STORE (insert_desc (fst call) lengths))
      calls (saved_cycle_lengths g).
Proof.
  intros Hwf Hinv Hcalls. revert g Hwf Hinv.
  induction Hcalls as [| call calls Hcall Hcalls IH]; intros g Hwf Hinv;
    [reflexivity |].
  cbn [consider_all fold_left].
  rewrite <- (consider_lengths call g Hwf Hcall Hinv).
  apply IH.
  - unfold consider. apply update_tested_cycles_wf; [exact Hwf | exact Hcall].
  - unfold consider. apply update_tested_cycles_sorted. exact Hinv.
Qed.

(** ** The records after an update *)

Lemma insert_record_lt r l :
  Forall (fun r' => fst r' < fst r) l -> insert_record r l = r :: l.
Proof.
  intros Hall. destruct Hall as [| r' l Hr' _]; [reflexivity |].
  cbn [insert_record]. rewrite (proj2 (N.ltb_lt _ _) Hr'). reflexivity.
Qed.

Lemma insert_record_app r l zs :
  Forall (fun r' => fst r' < fst r) zs ->
  insert_record r (l ++ zs) = insert_record r l ++ zs.
Proof.
  intros Hzs. induction l as [| r' l IH].
  - cbn [app insert_record]. apply insert_record_lt, Hzs.
  - cbn [app insert_record]. destruct (fst r' <? fst r); [reflexivity |].
    rewrite IH. reflexivity.
Qed.

Lemma length_insert_record r l :
  length (insert_record r l) = Datatypes.S (length l).
Proof.
  induction l as [| r' l IH]; [reflexivity |].
  cbn [insert_record]. destruct (fst r' <? fst r); cbn [length]; [reflexivity |].
  rewrite IH. reflexivity.
Qed.

Lemma cache_slots_length g : cache_wf g -> length (cache_slots g) = ARRAYS_TO_STORE.
Proof.
  intros (Hlt & Hll & _). unfold cache_slots. rewrite length_zip_with, Hlt, Hll.
  apply Nat.min_id.
Qed.

Lemma cache_slots_lookup g i :
  cache_wf g -> (i < ARRAYS_TO_STORE)%nat ->
  cache_slots g !! i =
    Some (array_get (saved_cycle_lengths g) i,
          array_get (tested_cycle_bit_arrays g) i).
Proof.
  intros (Hlt & Hll & _) Hi. unfold cache_slots.
  destruct (lookup_lt_is_Some_2 (saved_cycle_lengths g) i ltac:(rewrite Hll; lia))
    as [x Hx].
  destruct (lookup_lt_is_Some_2 (tested_cycle_bit_arrays g) i ltac:(rewrite Hlt; lia))
    as [t Ht].
  unfold array_get. rewrite Hx, Ht. apply lookup_zip_Some. split; assumption.
Qed.

Lemma cache_slots_store p cp cl g :
  cache_slots (store_slot p cp cl g) = <[p := (cl, cp)]> (cache_slots g).
Proof. unfold cache_slots, store_slot. simpl_globals. symmetry. apply insert_zip_with. Qed.

(** The slots after the last record are empty. *)
Lemma drop_slots_empty g p :
  cache_wf g -> (saved_array_count g <= p)%nat -> (p <= ARRAYS_TO_STORE)%nat ->
  drop p (cache_slots g) = replicate (ARRAYS_TO_STORE - p) (0, NULL).
Proof.
  intros Hwf Hp Hp7. pose proof Hwf as (_ & _ & _ & Hnull & Hzero).
  symmetry. apply replicate_as_Forall.
  split; [rewrite length_drop, cache_slots_length by exact Hwf; reflexivity |].
  apply Forall_lookup. intros i y Hy. rewrite lookup_drop in Hy.
  assert (Hi : (p + i < ARRAYS_TO_STORE)%nat).
  { apply lookup_lt_Some in Hy. rewrite cache_slots_length in Hy by exact Hwf. lia. }
  rewrite cache_slots_lookup in Hy by assumption. injection Hy as <-.
  rewrite Hzero by lia. f_equal.
  destruct (N.eq_dec (array_get (tested_cycle_bit_arrays g) (p + i)) NULL)
    as [Heq | Hne]; [symmetry; exact Heq |].
  apply Hnull in Hne; [lia | exact Hi].
Qed.

Lemma update_loop_insert n p did cp cl g :
  cache_wf g -> (p + n = ARRAYS_TO_STORE)%nat -> (p <= saved_array_count g)%nat ->
  0 < cl -> cp <> NULL ->
  (forall i j, (p <= i < j)%nat -> (i < saved_array_count g)%nat ->
     array_get (saved_cycle_lengths g) j < array_get (saved_cycle_lengths g) i) ->
  cache_slots (snd (update_loop (seq p n) did cp cl g)) =
    take p (cache_slots g) ++ take n (insert_record (cl, cp) (drop p (cache_slots g))) /\
  saved_array_count (snd (update_loop (seq p n) did cp cl g)) =
    (ARRAYS_TO_STORE `min` Datatypes.S (saved_array_count g))%nat /\
  heap (snd (update_loop (seq p n) did cp cl g)) =
    if (saved_array_count g =? ARRAYS_TO_STORE)%nat && (0 <? n)%nat &&
       (array_get (saved_cycle_lengths g) (ARRAYS_TO_STORE - 1) <? cl)
    then delete (array_get (tested_cycle_bit_arrays g) (ARRAYS_TO_STORE - 1)) (heap g)
    else heap g.
Proof.
  revert p did cp cl g.
  induction n as [| n IH]; intros p did cp cl g Hwf Hp Hpc Hcl Hcp Hdist.
  - pose proof Hwf as (_ & _ & Hcount & _).
    cbn [seq update_loop snd take]. rewrite app_nil_r.
    rewrite take_ge by (rewrite cache_slots_length by exact Hwf; lia).
    split; [reflexivity |]. split; [lia |].
    rewrite andb_false_r. reflexivity.
  - pose proof Hwf as (Hlt & Hll & Hcount & Hnull & Hzero).
    pose proof (cache_slots_lookup g p Hwf ltac:(lia)) as Hslot.
    rewrite (drop_S _ _ _ Hslot). cbn [seq update_loop insert_record fst].
    set (x := array_get (saved_cycle_lengths g) p) in *.
    set (t := array_get (tested_cycle_bit_arrays g) p) in *.
    destruct (N.ltb_spec x cl) as [Hlt' | Hge].
    + fold (store_slot p cp cl g). cbn [take].
      pose proof (cache_slots_store p cp cl g) as Hstore.
      assert (Hins : <[p := (cl, cp)]> (cache_slots g) =
                take p (cache_slots g) ++
                (cl, cp) :: drop (Datatypes.S p) (cache_slots g)).
      { apply insert_take_drop. rewrite cache_slots_length by exact Hwf. lia. }
      destruct (N.eqb_spec t NULL) as [Hprev | Hprev]; cbn [negb].
      * assert (Hpeq : p = saved_array_count g).
        { apply (empty_slot_position p cl g); try assumption; lia. }
        cbn [snd]. split; [| split].
        -- change (cache_slots (set_saved_array_count _ ?g')) with (cache_slots g').
           rewrite Hstore, Hins. f_equal. f_equal.
           rewrite <- (drop_S _ _ _ Hslot).
           rewrite !(drop_slots_empty g) by (assumption || lia).
           rewrite take_replicate. f_equal. lia.
        -- cbn [saved_array_count set_saved_array_count].
           change (saved_array_count (store_slot p cp cl g))
             with (saved_array_count g). lia.
        -- cbn [heap set_saved_array_count].
           change (heap (store_slot p cp cl g)) with (heap g).
           rewrite (proj2 (Nat.eqb_neq (saved_array_count g) ARRAYS_TO_STORE))
             by lia.
           reflexivity.
      * assert (Hplt : (p < saved_array_count g)%nat)
          by (apply Hnull; [lia | exact Hprev]).
        destruct (Nat.eqb_spec p (ARRAYS_TO_STORE - 1)) as [Hlast | Hlast].
        -- assert (n = 0%nat) as -> by lia.
           cbn [seq update_loop snd take]. split; [| split].
           ++ change (cache_slots (free _ ?g')) with (cache_slots g').
              rewrite Hstore, Hins. f_equal. f_equal.
              apply drop_ge. rewrite cache_slots_length by exact Hwf. lia.
           ++ change (saved_array_count (free _ (store_slot p cp cl g)))
                with (saved_array_count g). lia.
           ++ cbn [heap free set_heap].
              change (heap (store_slot p cp cl g)) with (heap g).
              rewrite (proj2 (Nat.eqb_eq (saved_array_count g) ARRAYS_TO_STORE))
                by lia.
              cbn [andb Nat.ltb Nat.leb]. rewrite <- Hlast. fold x. fold t.
              rewrite (proj2 (N.ltb_lt x cl) Hlt'). reflexivity.
        -- assert (Hwf1 : cache_wf (store_slot p cp cl g))
             by (apply store_slot_wf; assumption).
           assert (Hx6 : array_get (saved_cycle_lengths g) (ARRAYS_TO_STORE - 1) < x).
           { apply Hdist; lia. }
           assert (Hcount1 : (Datatypes.S p <= saved_array_count (store_slot p cp cl g))%nat).
           { change (saved_array_count (store_slot p cp cl g))
               with (saved_array_count g). lia. }
           assert (Hxpos : 0 < x).
           { specialize (Hdist p 7%nat ltac:(unfold ARRAYS_TO_STORE in *; lia) Hplt).
             rewrite (array_get_ge (saved_cycle_lengths g) 7) in Hdist
               by (rewrite Hll; reflexivity).
             exact Hdist. }
           assert (Hdist1 : forall i j, (Datatypes.S p <= i < j)%nat ->
                     (i < saved_array_count (store_slot p cp cl g))%nat ->
                     array_get (saved_cycle_lengths (store_slot p cp cl g)) j <
                     array_get (saved_cycle_lengths (store_slot p cp cl g)) i).
           { intros i j Hij Hi. rewrite !store_slot_lengths by (exact Hwf || lia).
             rewrite !decide_False by lia. apply Hdist; [lia | exact Hi]. }
           destruct (IH (Datatypes.S p) true t x (store_slot p cp cl g)
                       Hwf1 ltac:(lia) Hcount1 Hxpos Hprev Hdist1)
             as (Hslots & Hcnt & Hheap).
           split; [| split].
           ++ rewrite Hslots, Hstore.
              rewrite (take_S_r _ p (cl, cp))
                by (apply list_lookup_insert_eq;
                    rewrite cache_slots_length by exact Hwf; lia).
              rewrite take_insert_ge by lia. rewrite drop_insert_lt by lia.
              rewrite <- app_assoc. cbn [app]. f_equal. f_equal.
              rewrite insert_record_lt; [reflexivity |].
              apply Forall_lookup. intros i y Hy. rewrite lookup_drop in Hy.
              assert (Hi : (Datatypes.S p + i < ARRAYS_TO_STORE)%nat).
              { apply lookup_lt_Some in Hy.
                rewrite cache_slots_length in Hy by exact Hwf. lia. }
              rewrite cache_slots_lookup in Hy by assumption. injection Hy as <-.
              cbn [fst]. apply Hdist; [lia | exact Hplt].
           ++ exact Hcnt.
           ++ rewrite Hheap.
              change (saved_array_count (store_slot p cp cl g))
                with (saved_array_count g).
              change (heap (store_slot p cp cl g)) with (heap g).
              rewrite store_slot_lengths, store_slot_tested by (exact Hwf || lia).
              rewrite !decide_False by lia.
              rewrite (proj2 (N.ltb_lt _ x) Hx6).
              rewrite (proj2 (N.ltb_lt _ cl)) by lia.
              rewrite (proj2 (Nat.ltb_lt 0 n)) by lia.
              reflexivity.
    + assert (Hplt : (p < saved_array_count g)%nat).
      { destruct (decide (p < saved_array_count g)%nat) as [H | H]; [exact H |].
        assert (x = 0) by (apply Hzero; lia). lia. }
      destruct (IH (Datatypes.S p) did cp cl g) as (Hslots & Hcnt & Hheap);
        try assumption; try lia.
      { intros i j Hij Hi. apply Hdist; [lia | exact Hi]. }
      split; [| split].
      * rewrite Hslots, (take_S_r _ p _ Hslot), <- app_assoc. reflexivity.
      * exact Hcnt.
      * rewrite Hheap. destruct n as [| n].
        -- assert (p = (ARRAYS_TO_STORE - 1)%nat) as Hlast by lia.
           rewrite <- Hlast. fold x.
           rewrite (proj2 (N.ltb_ge x cl) Hge), !andb_false_r. reflexivity.
        -- reflexivity.
Qed.

Lemma cached_records_slots g :
  cached_records g = take (saved_array_count g) (cache_slots g).
Proof. reflexivity. Qed.

Lemma update_tested_cycles_records cycle_length g :
  scratch_ok g -> lengths_distinct g -> 0 < cycle_length ->
  cached_records (snd (update_tested_cycles cycle_length g)) =
    take ARRAYS_TO_STORE
      (insert_record (cycle_length, cycle_bit_array g) (cached_records g)) /\
  saved_array_count (snd (update_tested_cycles cycle_length g)) =
    (ARRAYS_TO_STORE `min` Datatypes.S (saved_array_count g))%nat /\
  heap (snd (update_tested_cycles cycle_length g)) =
    if (saved_array_count g =? ARRAYS_TO_STORE)%nat &&
       (array_get (saved_cycle_lengths g) (ARRAYS_TO_STORE - 1) <? cycle_length)
    then delete (array_get (tested_cycle_bit_arrays g) (ARRAYS_TO_STORE - 1)) (heap g)
    else heap g.
Proof.
  intros [Hwf Hscratch] Hdist Hpos. unfold update_tested_cycles.
  pose proof Hwf as (Hlt & Hll & Hcount & _).
  destruct (Nat.eqb_spec (saved_array_count g) 0) as [Hz | Hnz].
  - cbn [snd].
    split; [| split; [simpl_globals; rewrite Hz; reflexivity
                     | simpl_globals; rewrite Hz; reflexivity]].
    unfold cached_records. simpl_globals. rewrite Hz.
    destruct (saved_cycle_lengths g) as [| x lengths]; [discriminate |].
    destruct (tested_cycle_bit_arrays g) as [| t tested]; [discriminate |].
    reflexivity.
  - destruct (update_loop_insert ARRAYS_TO_STORE 0 false (cycle_bit_array g)
                cycle_length g Hwf eq_refl ltac:(lia) Hpos Hscratch
                ltac:(intros i j Hij Hi; apply Hdist; [lia | exact Hi]))
      as (Hslots & Hcnt & Hheap).
    change (0 <? ARRAYS_TO_STORE)%nat with true in Hheap.
    rewrite andb_true_r in Hheap.
    split; [| split; [exact Hcnt | exact Hheap]].
    rewrite !cached_records_slots, Hslots, Hcnt. cbn [take app].
    rewrite drop_0.
    assert (Hrec : insert_record (cycle_length, cycle_bit_array g) (cache_slots g) =
              insert_record (cycle_length, cycle_bit_array g)
                (take (saved_array_count g) (cache_slots g)) ++
              drop (saved_array_count g) (cache_slots g)).
    { rewrite <- insert_record_app; [rewrite take_drop; reflexivity |].
      rewrite (drop_slots_empty g) by (assumption || lia).
      apply Forall_replicate. exact Hpos. }
    rewrite Hrec.
    set (records := insert_record (cycle_length, cycle_bit_array g)
                      (take (saved_array_count g) (cache_slots g))).
    assert (Hlen : length records = Datatypes.S (saved_array_count g)).
    { unfold records. rewrite length_insert_record, length_take,
        cache_slots_length by exact Hwf. lia. }
    replace (take 0 (cache_slots g)) with (@nil (N * N)) by reflexivity.
    cbn [app]. rewrite take_take.
    replace ((ARRAYS_TO_STORE `min` Datatypes.S (saved_array_count g))
               `min` ARRAYS_TO_STORE)%nat
      with (ARRAYS_TO_STORE `min` Datatypes.S (saved_array_count g))%nat by lia.
    rewrite take_app_le by lia.
    destruct (decide (saved_array_count g = ARRAYS_TO_STORE)) as [Hfull | Hroom].
    + f_equal. lia.
    + rewrite !take_ge by lia. reflexivity.
Qed.

(** ** Where the records of the cache come from *)

Lemma update_loop_members n p did cp cl g i :
  cache_wf g -> (p + n <= ARRAYS_TO_STORE)%nat -> cp <> NULL ->
  ((saved_array_count g < p)%nat -> cl = 0) ->
  (i < saved_array_count (snd (update_loop (seq p n) did cp cl g)))%nat ->
  (array_get (saved_cycle_lengths (snd (update_loop (seq p n) did cp cl g))) i = cl /\
   array_get (tested_cycle_bit_arrays (snd (update_loop (seq p n) did cp cl g))) i = cp)
  \/
  exists j, (j < saved_array_count g)%nat /\
    array_get (saved_cycle_lengths (snd (update_loop (seq p n) did cp cl g))) i =
      array_get (saved_cycle_lengths g) j /\
    array_get (tested_cycle_bit_arrays (snd (update_loop (seq p n) did cp cl g))) i =
      array_get (tested_cycle_bit_arrays g) j.
Proof.
  revert p did cp cl g.
  induction n as [| n IH]; intros p did cp cl g Hwf Hp Hcp Hcl.
  - cbn [seq update_loop snd]. intros Hi. right. exists i. auto.
  - pose proof Hwf as (Hlt & Hll & Hcount & Hnull & Hzero).
    cbn [seq update_loop].
    destruct (N.ltb_spec (array_get (saved_cycle_lengths g) p) cl) as [Hlt' | Hge].
    + fold (store_slot p cp cl g).
      assert (Hstored : forall k,
                (k = p /\
                 array_get (saved_cycle_lengths (store_slot p cp cl g)) k = cl /\
                 array_get (tested_cycle_bit_arrays (store_slot p cp cl g)) k = cp) \/
                (k <> p /\
                 array_get (saved_cycle_lengths (store_slot p cp cl g)) k =
                   array_get (saved_cycle_lengths g) k /\
                 array_get (tested_cycle_bit_arrays (store_slot p cp cl g)) k =
                   array_get (tested_cycle_bit_arrays g) k)).
      { intros k. rewrite store_slot_lengths, store_slot_tested by (exact Hwf || lia).
        destruct (decide (k = p)); [left | right]; auto. }
      destruct (N.eqb_spec (array_get (tested_cycle_bit_arrays g) p) NULL)
        as [Hprev | Hprev]; cbn [negb].
      * assert (Hpeq : p = saved_array_count g)
          by (apply (empty_slot_position p cl g); assumption || lia).
        cbn [snd]. 
        change (saved_cycle_lengths (set_saved_array_count _ ?g'))
          with (saved_cycle_lengths g').
        change (tested_cycle_bit_arrays (set_saved_array_count _ ?g'))
          with (tested_cycle_bit_arrays g').
        change (saved_array_count (set_saved_array_count ?n _)) with n.
        change (saved_array_count (store_slot p cp cl g)) with (saved_array_count g).
        intros Hi. destruct (Hstored i) as [(_ & H1 & H2) | (Hne & H1 & H2)].
        -- left. split; assumption.
        -- right. exists i. split; [lia | split; assumption].
      * assert (Hplt : (p < saved_array_count g)%nat)
          by (apply Hnull; [lia | exact Hprev]).
        assert (Hwf1 : cache_wf (store_slot p cp cl g))
          by (apply store_slot_wf; assumption).
        destruct (Nat.eqb_spec p (ARRAYS_TO_STORE - 1)) as [Hlast | Hlast].
        -- assert (n = 0%nat) as -> by lia.
           cbn [seq update_loop snd].
           change (saved_cycle_lengths (free _ ?g')) with (saved_cycle_lengths g').
           change (tested_cycle_bit_arrays (free _ ?g'))
             with (tested_cycle_bit_arrays g').
           change (saved_array_count (free _ (store_slot p cp cl g)))
             with (saved_array_count g).
           intros Hi. destruct (Hstored i) as [(_ & H1 & H2) | (Hne & H1 & H2)].
           ++ left. split; assumption.
           ++ right. exists i. split; [lia | split; assumption].
        -- intros Hi.
           destruct (IH (Datatypes.S p) true
                       (array_get (tested_cycle_bit_arrays g) p)
                       (array_get (saved_cycle_lengths g) p)
                       (store_slot p cp cl g) Hwf1 ltac:(lia) Hprev
                       ltac:(change (saved_array_count (store_slot p cp cl g))
                               with (saved_array_count g); lia) Hi)
             as [[H1 H2] | (j & Hj & H1 & H2)].
           ++ right. exists p. split; [exact Hplt | split; assumption].
           ++ change (saved_array_count (store_slot p cp cl g))
                with (saved_array_count g) in Hj.
              destruct (Hstored j) as [(_ & H3 & H4) | (_ & H3 & H4)].
              ** left. split; congruence.
              ** right. exists j. split; [exact Hj | split; congruence].
    + apply IH; [exact Hwf | lia | exact Hcp |].
      intros Hc. destruct (decide (saved_array_count g = p)) as [Heq | Hne].
      * rewrite (Hzero p) in Hge by lia. lia.
      * apply Hcl. lia.
Qed.

Lemma update_tested_cycles_members cycle_length g i :
  scratch_ok g ->
  (i < saved_array_count (snd (update_tested_cycles cycle_length g)))%nat ->
  (array_get (saved_cycle_lengths (snd (update_tested_cycles cycle_length g))) i
     = cycle_length /\
   array_get (tested_cycle_bit_arrays (snd (update_tested_cycles cycle_length g))) i
     = cycle_bit_array g)
  \/
  exists j, (j < saved_array_count g)%nat /\
    array_get (saved_cycle_lengths (snd (update_tested_cycles cycle_length g))) i =
      array_get (saved_cycle_lengths g) j /\
    array_get (tested_cycle_bit_arrays (snd (update_tested_cycles cycle_length g))) i =
      array_get (tested_cycle_bit_arrays g) j.
Proof.
  intros [Hwf Hscratch]. unfold update_tested_cycles.
  pose proof Hwf as (Hlt & Hll & _).
  destruct (Nat.eqb_spec (saved_array_count g) 0) as [Hz | Hnz].
  - cbn [snd]. simpl_globals. intros Hi. assert (i = 0%nat) as -> by lia.
    left. split; apply array_get_insert_eq.
    + rewrite Hll. unfold ARRAYS_TO_STORE. lia.
    + rewrite Hlt. unfold ARRAYS_TO_STORE. lia.
  - apply update_loop_members; [exact Hwf | reflexivity | exact Hscratch | lia].
Qed.

(** ** The lengths the program reports *)

Lemma cached_hit_length g s i :
  records_sound g -> valid_state s -> (i < saved_array_count g)%nat ->
  cached_hit g (encode_state s) i ->
  array_get (saved_cycle_lengths g) i = fst (trace_loop zeroed s).
Proof.
  intros Hsound Hs Hi (array & Harray & Hbit).
  destruct (Hsound i Hi) as (array' & s0 & Harray' & Hs0 & Hr).
  assert (Heq : array' = array) by congruence. subst array'.
  pose proof Hr as (_ & _ & _ & Hbits).
  destruct (proj1 (Hbits _) Hbit) as (j & Hj & Hkey).
  apply encode_state_inj in Hkey; [| exact Hs | apply orbit_valid, Hs0].
  pose proof (trace_loop_clear zeroed s Hs test_bit_zeroed) as Hr'.
  rewrite Hkey in Hr' at 1.
  destruct (trace_result_same_cycle s0 j _ _ _ _ Hs0 Hr Hr') as [Hlen _].
  symmetry. exact Hlen.
Qed.

Lemma scratch_write_heap_wf g array :
  heap_wf g -> heap_wf (set_heap (<[cycle_bit_array g := array]> (heap g)) g).
Proof.
  intros (Hslive & Hlive & Hdist & Hnew).
  unfold heap_wf. simpl_globals. split; [| split; [| split]].
  - rewrite lookup_insert_eq. eexists. reflexivity.
  - intros j Hj. simpl_globals.
    rewrite lookup_insert_ne by (apply not_eq_sym, Hnew, Hj). apply Hlive, Hj.
  - exact Hdist.
  - exact Hnew.
Qed.

Lemma records_from_sound Q g : records_from Q g -> records_sound g.
Proof.
  intros Hfrom i Hi. destruct (Hfrom i Hi) as (array & s & Harray & _ & Hrest).
  exists array, s. split; assumption.
Qed.

Lemma records_from_mono (Q Q' : sfc8_t -> Prop) g :
  (forall s, Q s -> Q' s) -> records_from Q g -> records_from Q' g.
Proof.
  intros Himpl Hfrom i Hi.
  destruct (Hfrom i Hi) as (array & s & Harray & Hq & Hrest).
  exists array, s. split; [exact Harray |]. split; [apply Himpl, Hq | exact Hrest].
Qed.

Lemma scratch_write_from Q g array :
  heap_wf g -> records_from Q g ->
  records_from Q (set_heap (<[cycle_bit_array g := array]> (heap g)) g).
Proof.
  intros (_ & _ & _ & Hnew) Hfrom i Hi. simpl_globals.
  rewrite lookup_insert_ne by (apply not_eq_sym, Hnew, Hi). apply Hfrom, Hi.
Qed.

Lemma update_tested_cycles_from Q cycle_length g array s :
  scratch_ok g -> heap_wf g -> records_from Q g ->
  heap g !! cycle_bit_array g = Some array ->
  Q s -> valid_state s -> trace_result s cycle_length array ->
  records_from Q (snd (update_tested_cycles cycle_length g)).
Proof.
  intros Hok Hheap Hfrom Harray Hq Hs Hr i Hi.
  destruct (update_tested_cycles_heap cycle_length g Hok Hheap) as [Hlive _].
  destruct (Hlive i Hi) as [array' Harray'].
  pose proof (update_tested_cycles_heap_sub cycle_length g _ _ Harray') as Hold.
  exists array'.
  destruct (update_tested_cycles_members cycle_length g i Hok Hi)
    as [[Hlen Hptr] | (j & Hj & Hlen & Hptr)].
  - exists s. rewrite Hlen. rewrite Hptr in Hold.
    assert (Heq : array' = array) by congruence. subst array'.
    split; [exact Harray' |]. split; [exact Hq |]. split; assumption.
  - destruct (Hfrom j Hj) as (array0 & s0 & Harray0 & Hq0 & Hs0 & Hr0).
    exists s0. rewrite Hlen. rewrite Hptr in Hold.
    assert (Heq : array' = array0) by congruence. subst array'.
    split; [exact Harray' |]. split; [exact Hq0 |]. split; assumption.
Qed.

Lemma records_sound_from g : records_sound g -> records_from (fun _ => True) g.
Proof.
  intros Hsound i Hi. destruct (Hsound i Hi) as (array & s & Harray & Hrest).
  exists array, s. split; [exact Harray |]. split; [exact I | exact Hrest].
Qed.

Section From.

Variable malloc : allocator.
Hypothesis malloc_fresh : fresh_allocator malloc.

Lemma finish_seed_from Q cycle_length g array s :
  scratch_ok g -> heap_wf g -> records_from Q g ->
  heap g !! cycle_bit_array g = Some array ->
  Q s -> valid_state s -> trace_result s cycle_length array ->
  match finish_seed malloc cycle_length g with
  | Returns (_, _, g') => records_from Q g'
  | _ => True
  end.
Proof using malloc_fresh.
  intros Hok Hheap Hfrom Harray Hq Hs Hr. unfold finish_seed.
  pose proof (update_tested_cycles_from Q cycle_length g array s
                Hok Hheap Hfrom Harray Hq Hs Hr) as Hfrom1.
  destruct (update_tested_cycles cycle_length g) as [[] g1]; cbn [snd] in *;
    [| exact Hfrom1].
  unfold malloc_block. pose proof (malloc_fresh (heap g1)) as Hfresh.
  destruct (malloc (heap g1)) as [p contents]. cbn [fst] in Hfresh.
  destruct (p =? NULL) eqn:Hp; cbv beta iota zeta; rewrite Hp; [exact I |].
  apply N.eqb_neq in Hp. specialize (Hfresh Hp).
  intros i Hi. simpl_globals.
  destruct (Hfrom1 i Hi) as (array1 & s1 & Harray1 & Hrest).
  exists array1, s1. split; [| exact Hrest].
  rewrite lookup_insert_ne; [exact Harray1 |]. congruence.
Qed.

End From.

Lemma scratch_write_sound g array :
  heap_wf g -> records_sound g ->
  records_sound (set_heap (<[cycle_bit_array g := array]> (heap g)) g).
Proof.
  intros Hheap Hsound. apply (records_from_sound (fun _ => True)).
  apply scratch_write_from; [exact Hheap | apply records_sound_from, Hsound].
Qed.

Lemma update_tested_cycles_sound cycle_length g array s :
  scratch_ok g -> heap_wf g -> records_sound g ->
  heap g !! cycle_bit_array g = Some array ->
  valid_state s -> trace_result s cycle_length array ->
  records_sound (snd (update_tested_cycles cycle_length g)).
Proof.
  intros Hok Hheap Hsound Harray Hs Hr. apply (records_from_sound (fun _ => True)).
  apply (update_tested_cycles_from _ cycle_length g array s); try assumption.
  - apply records_sound_from, Hsound.
  - exact I.
Qed.

Lemma finish_seed_sound malloc cycle_length g array s :
  fresh_allocator malloc ->
  scratch_ok g -> heap_wf g -> records_sound g ->
  heap g !! cycle_bit_array g = Some array ->
  valid_state s -> trace_result s cycle_length array ->
  match finish_seed malloc cycle_length g with
  | Returns (_, _, g') => records_sound g'
  | _ => True
  end.
Proof.
  intros Hfresh Hok Hheap Hsound Harray Hs Hr.
  pose proof (finish_seed_from malloc Hfresh (fun _ => True) cycle_length g array s
                Hok Hheap (records_sound_from g Hsound) Harray I Hs Hr) as Hfrom.
  destruct (finish_seed malloc cycle_length g) as [[[len known] g'] | |];
    try exact I.
  apply (records_from_sound _ _ Hfrom).
Qed.

Section Scan.

Variable malloc : allocator.
Hypothesis malloc_fresh : fresh_allocator malloc.

(** One seed: the length returned is the length of the trajectory of the
    seed, whether it was read from the cache or counted. *)
Lemma test_seed_for_cycle_sound seed g :
  scratch_ok g -> heap_wf g -> records_sound g ->
  match test_seed_for_cycle malloc seed g with
  | Returns (len, known, g') =>
      len = fst (trace_loop zeroed (seed_state seed)) /\
      (known = true -> (0 < saved_array_count g)%nat) /\
      scratch_ok g' /\ heap_wf g' /\ records_sound g'
  | Exits status => status = 1
  | Faults => False
  end.
Proof using malloc_fresh.
  intros Hok Hheap Hsound.
  pose proof (test_seed_for_cycle_cache malloc seed g Hok) as Hcache.
  pose proof (test_seed_for_cycle_heap malloc malloc_fresh seed g Hok Hheap) as Hheap'.
  unfold test_seed_for_cycle in *.
  pose proof Hheap as (Hslive & Hlive & Hdist & Hnew).
  pose proof (lookup_seed_spec g (seed_state seed) Hlive) as Hlookup.
  destruct (lookup_seed g (seed_state seed)) as [[[] i] | |]; try contradiction.
  - destruct Hlookup as (Hi & Hhit & _).
    split; [| split; [intros _; lia | split; [exact Hok | split; assumption]]].
    apply cached_hit_length; try assumption. apply seed_state_valid.
  - rewrite trace_seed_returns in * by exact Hslive.
    set (len := fst (trace_loop zeroed (seed_state seed))) in *.
    set (array := snd (trace_loop zeroed (seed_state seed))) in *.
    set (g1 := set_heap (<[cycle_bit_array g := array]> (heap g)) g) in *.
    pose proof (finish_seed_result malloc len g1) as Hres.
    pose proof (finish_seed_sound malloc len g1 array (seed_state seed)
                  malloc_fresh Hok (scratch_write_heap_wf g array Hheap)
                  (scratch_write_sound g array Hheap Hsound)) as Hfin.
    destruct (finish_seed malloc len g1) as [[[len' known] g'] | |].
    + destruct Hres as [-> ->]. destruct Hcache as [Hok' _].
      split; [reflexivity |]. split; [discriminate |].
      split; [exact Hok' |]. split; [exact Hheap' |].
      apply Hfin.
      * unfold g1. simpl_globals. apply lookup_insert_eq.
      * apply seed_state_valid.
      * apply trace_loop_clear; [apply seed_state_valid | exact test_bit_zeroed].
    + exact Hres.
    + exact Hres.
Qed.

End Scan.

(** ** The output of [main] *)

(** A property of the counter and the state that the body keeps holds after
    any number of iterations. *)
Lemma for_count_invariant_index {S R} (body : N -> S -> step S R)
    (P : N -> S -> Prop) (Q : R -> Prop) :
  (forall i s, P i s ->
     match body i s with Continue s' => P (i + 1) s' | Stop r => Q r end) ->
  forall n first s, P first s ->
    match for_count body n first s with
    | Continue s' => P (first + N.of_nat n) s'
    | Stop r => Q r
    end.
Proof.
  intros Hbody n. induction n as [| n IH]; intros first s Hs.
  - cbn [for_count]. rewrite N.add_0_r. exact Hs.
  - cbn [for_count]. specialize (Hbody first s Hs).
    destruct (body first s) as [s' | r]; [| exact Hbody].
    specialize (IH (first + 1) s' Hbody).
    replace (first + N.of_nat (Datatypes.S n)) with (first + 1 + N.of_nat n) by lia.
    exact IH.
Qed.

Lemma StronglySorted_snoc {A} (R : A -> A -> Prop) l x :
  StronglySorted R l -> Forall (fun y => R y x) l -> StronglySorted R (l ++ [x]).
Proof.
  induction 1 as [| y l Hl IH Hy]; intros Hall; cbn [app].
  - constructor; constructor.
  - apply Forall_cons in Hall as [Hyx Hall]. constructor; [apply IH, Hall |].
    apply Forall_app. split; [exact Hy | constructor; [exact Hyx | constructor]].
Qed.

Lemma lines_ok_skip bound lines :
  0 < bound -> lines_ok bound lines -> lines_ok (bound + 1) lines.
Proof.
  intros Hpos (Hall & Hsorted & Hfirst). split; [| split].
  - eapply Forall_impl; [exact Hall |]. intros line [Hlt Hlen].
    split; [lia | exact Hlen].
  - exact Hsorted.
  - intros _. apply Hfirst, Hpos.
Qed.

Lemma lines_ok_print bound lines len :
  len = fst (trace_loop zeroed (seed_state bound)) ->
  lines_ok bound lines -> lines_ok (bound + 1) (lines ++ [(bound, len)]).
Proof.
  intros Hlen (Hall & Hsorted & Hfirst). split; [| split].
  - apply Forall_app. split.
    + eapply Forall_impl; [exact Hall |]. intros line [Hlt Hline].
      split; [lia | exact Hline].
    + constructor; [| constructor]. split; [cbn [fst]; lia | exact Hlen].
  - apply StronglySorted_snoc; [exact Hsorted |].
    eapply Forall_impl; [exact Hall |]. intros line [Hlt _]. exact Hlt.
  - intros _. destruct (N.eq_dec bound 0) as [Hz | Hpos].
    + destruct lines as [| line lines].
      * exists len, []. rewrite Hz. reflexivity.
      * apply Forall_cons in Hall as [[Hlt _] _]. lia.
    + destruct (Hfirst ltac:(lia)) as (len0 & rest & ->).
      exists len0, (rest ++ [(bound, len)]). reflexivity.
Qed.

Section Output.

Variable malloc : allocator.
Hypothesis malloc_fresh : fresh_allocator malloc.

Lemma seed_body_lines seed g printed :
  scratch_ok g -> heap_wf g -> records_sound g ->
  (seed = 0 -> saved_array_count g = 0%nat) ->
  lines_ok seed (rev printed) ->
  match seed_body malloc seed (g, printed) with
  | Continue (g', printed') =>
      scratch_ok g' /\ heap_wf g' /\ records_sound g' /\
      (seed + 1 = 0 -> saved_array_count g' = 0%nat) /\
      lines_ok (seed + 1) (rev printed')
  | Stop r => r = Exits 1
  end.
Proof using malloc_fresh.
  intros Hok Hheap Hsound Hzero Hlines. unfold seed_body.
  pose proof (test_seed_for_cycle_sound malloc malloc_fresh seed g Hok Hheap Hsound)
    as Hseed.
  destruct (test_seed_for_cycle malloc seed g) as [[[len known] g'] | |].
  - destruct Hseed as (Hlen & Hknown & Hok' & Hheap' & Hsound').
    destruct known.
    + repeat (split; [assumption || lia |]).
      apply lines_ok_skip; [| exact Hlines].
      destruct (N.eq_dec seed 0) as [Hs | Hs]; [| lia].
      specialize (Hzero Hs). specialize (Hknown eq_refl). lia.
    + repeat (split; [assumption || lia |]).
      cbn [rev]. apply lines_ok_print; [exact Hlen | exact Hlines].
  - rewrite Hseed. reflexivity.
  - contradiction.
Qed.

Lemma scan_seeds_lines n :
  match main_init malloc with
  | Returns g0 =>
      match scan_seeds malloc n g0 with
      | Continue (g, printed) =>
          scratch_ok g /\ heap_wf g /\ records_sound g /\
          lines_ok (N.of_nat n) (rev printed)
      | Stop r => r = Exits 1
      end
  | Exits status => status = 1
  | Faults => False
  end.
Proof using malloc_fresh.
  pose proof (main_init_cases malloc) as Hinit.
  pose proof (main_init_heap malloc) as Hheap.
  destruct (main_init malloc) as [g0 | |]; try exact Hinit.
  destruct Hinit as (Hok & Hcount & _).
  pose proof (for_count_invariant_index (seed_body malloc)
                (fun seed s =>
                   scratch_ok (fst s) /\ heap_wf (fst s) /\ records_sound (fst s) /\
                   (seed = 0 -> saved_array_count (fst s) = 0%nat) /\
                   lines_ok seed (rev (snd s)))
                (fun r => r = Exits 1)) as Hinv.
  unfold scan_seeds.
  specialize (Hinv ltac:(
    intros seed [g printed] (H1 & H2 & H3 & H4 & H5); cbn [fst snd] in *;
    pose proof (seed_body_lines seed g printed H1 H2 H3 H4 H5) as Hbody;
    destruct (seed_body malloc seed (g, printed)) as [[g' printed'] | r];
    exact Hbody) n 0 (g0, [])).
  cbn [fst snd] in Hinv.
  specialize (Hinv ltac:(
    split; [exact Hok |]; split; [exact Hheap |];
    split; [intros i Hi; lia |]; split; [intros _; exact Hcount |];
    split; [constructor |]; split; [constructor | intros H; lia])).
  destruct (for_count (seed_body malloc) n 0 (g0, [])) as [[g printed] | r];
    [| exact Hinv].
  cbn [fst snd] in Hinv. rewrite N.add_0_l in Hinv.
  destruct Hinv as (H1 & H2 & H3 & _ & H5).
  split; [exact H1 | split; [exact H2 | split; [exact H3 | exact H5]]].
Qed.

End Output.

Lemma pow2_24_nat : N.of_nat (2 ^ 24)%nat = 2 ^ 24.
Proof. rewrite Nat2N.inj_pow. reflexivity. Qed.

Lemma main_lines malloc :
  fresh_allocator malloc ->
  main malloc = Exits 1 \/
  exists lines, main malloc = Returns lines /\ lines_ok (2 ^ 24) lines.
Proof.
  intros Hfresh. unfold main.
  pose proof (scan_seeds_lines malloc Hfresh (2 ^ 24)%nat) as Hscan.
  destruct (main_init malloc) as [g0 | |].
  - rewrite seed_loop_scan. rewrite pow2_24_nat in Hscan.
    destruct (scan_seeds malloc (2 ^ 24)%nat g0) as [[g printed] | r].
    + right. exists (rev printed). split; [reflexivity | apply Hscan].
    + left. exact Hscan.
  - left. rewrite Hscan. reflexivity.
  - contradiction.
Qed.

Lemma main_returns malloc :
  fresh_allocator malloc -> never_fails malloc ->
  exists lines, main malloc = Returns lines.
Proof.
  intros Hfresh Hmalloc.
  destruct (scan_seeds_runs malloc (2 ^ 24)%nat Hfresh Hmalloc)
    as (g0 & g & printed & Hinit & Hscan & _).
  exists (rev printed). unfold main. rewrite Hinit, seed_loop_scan, Hscan.
  reflexivity.
Qed.

(** ** The frees at the end of [main] *)

Lemma free_slots_spec n p g :
  (forall i, (p <= i < p + n)%nat ->
     array_get (tested_cycle_bit_arrays g) i <> NULL /\
     is_Some (heap g !! array_get (tested_cycle_bit_arrays g) i)) ->
  (forall i j, (p <= i < j)%nat -> (j < p + n)%nat ->
     array_get (tested_cycle_bit_arrays g) i <>
     array_get (tested_cycle_bit_arrays g) j) ->
  exists g',
    free_slots (seq p n) g = Returns g' /\
    (forall i, (p <= i < p + n)%nat ->
       heap g' !! array_get (tested_cycle_bit_arrays g) i = None) /\
    (forall q, (forall i, (p <= i < p + n)%nat ->
                  array_get (tested_cycle_bit_arrays g) i <> q) ->
       heap g' !! q = heap g !! q).
Proof.
  revert p g. induction n as [| n IH]; intros p g Hlive Hdist.
  - exists g. split; [reflexivity |]. split; [intros i Hi; lia | reflexivity].
  - cbn [seq free_slots]. unfold free_checked.
    destruct (Hlive p ltac:(lia)) as [Hnull [array Harray]].
    rewrite (proj2 (N.eqb_neq _ _) Hnull), Harray.
    set (g1 := free (array_get (tested_cycle_bit_arrays g) p) g).
    destruct (IH (Datatypes.S p) g1) as (g' & Hrun & Hfreed & Hkept).
    + intros i Hi. split; [apply Hlive; lia |].
      unfold g1. simpl_globals. rewrite lookup_delete_ne.
      * apply Hlive. lia.
      * apply Hdist; lia.
    + intros i j Hij Hj. apply Hdist; lia.
    + exists g'. split; [exact Hrun |]. split.
      * intros i Hi. destruct (decide (i = p)) as [-> | Hne].
        -- rewrite Hkept.
           ++ unfold g1. simpl_globals. apply lookup_delete_eq.
           ++ intros j Hj. apply not_eq_sym, Hdist; lia.
        -- apply Hfreed. lia.
      * intros q Hq. rewrite Hkept by (intros i Hi; apply Hq; lia).
        unfold g1. simpl_globals. apply lookup_delete_ne, Hq. lia.
Qed.

Lemma main_cleanup_spec g :
  scratch_ok g -> heap_wf g ->
  exists g',
    main_cleanup g = Returns g' /\
    heap g' !! cycle_bit_array g = None /\
    (forall i, (i < saved_array_count g)%nat ->
       heap g' !! array_get (tested_cycle_bit_arrays g) i = None) /\
    (forall q, q <> cycle_bit_array g -> not_cached g q ->
       heap g' !! q = heap g !! q).
Proof.
  intros [Hwf Hscratch] ([scratch Hslive] & Hlive & Hdist & Hnew).
  pose proof Hwf as (_ & _ & Hcount & Hnull & _).
  unfold main_cleanup, free_checked.
  rewrite (proj2 (N.eqb_neq _ _) Hscratch), Hslive.
  set (g1 := free (cycle_bit_array g) g).
  destruct (free_slots_spec (saved_array_count g) 0 g1) as (g' & Hrun & Hfreed & Hkept).
  - intros i Hi. split; [apply Hnull; lia |].
    unfold g1. simpl_globals. rewrite lookup_delete_ne.
    + apply Hlive. lia.
    + apply not_eq_sym, Hnew. lia.
  - intros i j Hij Hj. apply Hdist; lia.
  - exists g'. split; [exact Hrun |]. split; [| split].
    + rewrite Hkept.
      * unfold g1. simpl_globals. apply lookup_delete_eq.
      * intros i Hi. apply Hnew. lia.
    + intros i Hi. apply Hfreed. lia.
    + intros q Hq Hnc. rewrite Hkept by (intros i Hi; apply Hnc; lia).
      unfold g1. simpl_globals. apply lookup_delete_ne. congruence.
Qed.

(** ** Retained cycles are known *)

(** The loop leaves the slots before its first position as they are. *)
Lemma update_loop_prefix positions did cp cl g i :
  (forall q, q ∈ positions -> (i < q)%nat) ->
  array_get (saved_cycle_lengths (snd (update_loop positions did cp cl g))) i =
    array_get (saved_cycle_lengths g) i /\
  array_get (tested_cycle_bit_arrays (snd (update_loop positions did cp cl g))) i =
    array_get (tested_cycle_bit_arrays g) i.
Proof.
  revert did cp cl g. induction positions as [| p positions IH]; intros did cp cl g Hi.
  - split; reflexivity.
  - assert (Hp : (i < p)%nat) by (apply Hi; left).
    assert (Hrest : forall q, q ∈ positions -> (i < q)%nat)
      by (intros q Hq; apply Hi; right; exact Hq).
    cbn [update_loop].
    destruct (array_get (saved_cycle_lengths g) p <? cl); [| apply IH, Hrest].
    assert (Hstore : forall g1,
              array_get (saved_cycle_lengths
                (set_saved_cycle_length p cl (set_tested_cycle_bit_array p cp g1))) i =
                array_get (saved_cycle_lengths g1) i /\
              array_get (tested_cycle_bit_arrays
                (set_saved_cycle_length p cl (set_tested_cycle_bit_array p cp g1))) i =
                array_get (tested_cycle_bit_arrays g1) i).
    { intros g1. simpl_globals. rewrite !array_get_insert_ne by lia.
      split; reflexivity. }
    destruct (negb _); [| exact (Hstore g)].
    destruct (p =? ARRAYS_TO_STORE - 1)%nat.
    + destruct (IH true cp cl
                  (free (array_get (tested_cycle_bit_arrays g) p)
                     (set_saved_cycle_length p cl
                        (set_tested_cycle_bit_array p cp g))) Hrest) as [H1 H2].
      rewrite H1, H2. exact (Hstore g).
    + destruct (IH true (array_get (tested_cycle_bit_arrays g) p)
                  (array_get (saved_cycle_lengths g) p)
                  (set_saved_cycle_length p cl
                     (set_tested_cycle_bit_array p cp g)) Hrest) as [H1 H2].
      rewrite H1, H2. exact (Hstore g).
Qed.

(** When the loop reports an update the candidate is in the cache. *)
Lemma update_loop_retains n p cp cl g :
  cache_wf g -> (p + n <= ARRAYS_TO_STORE)%nat ->
  ((saved_array_count g < p)%nat -> cl = 0) ->
  fst (update_loop (seq p n) false cp cl g) = true ->
  exists i, (i < saved_array_count (snd (update_loop (seq p n) false cp cl g)))%nat /\
    array_get (saved_cycle_lengths (snd (update_loop (seq p n) false cp cl g))) i = cl /\
    array_get (tested_cycle_bit_arrays (snd (update_loop (seq p n) false cp cl g))) i = cp.
Proof.
  revert p. induction n as [| n IH]; intros p Hwf Hp Hcl; [discriminate |].
  pose proof Hwf as (Hlt & Hll & Hcount & Hnull & Hzero).
  cbn [seq update_loop].
  destruct (N.ltb_spec (array_get (saved_cycle_lengths g) p) cl) as [Hlt' | Hge].
  - intros _. fold (store_slot p cp cl g). exists p.
    assert (Hstored :
              array_get (saved_cycle_lengths (store_slot p cp cl g)) p = cl /\
              array_get (tested_cycle_bit_arrays (store_slot p cp cl g)) p = cp).
    { rewrite store_slot_lengths, store_slot_tested by (exact Hwf || lia).
      rewrite !decide_True by reflexivity. split; reflexivity. }
    destruct (N.eqb_spec (array_get (tested_cycle_bit_arrays g) p) NULL)
      as [Hprev | Hprev]; cbn [negb].
    + assert (Hpeq : p = saved_array_count g)
        by (apply (empty_slot_position p cl g); assumption || lia).
      cbn [snd]. split; [| exact Hstored].
      cbn [saved_array_count set_saved_array_count].
      change (saved_array_count (store_slot p cp cl g)) with (saved_array_count g).
      lia.
    + assert (Hplt : (p < saved_array_count g)%nat)
        by (apply Hnull; [lia | exact Hprev]).
      destruct (p =? ARRAYS_TO_STORE - 1)%nat;
        match goal with
        | |- context [update_loop ?ps true ?cp' ?cl' ?g'] =>
            pose proof (update_loop_count ps true cp' cl' g') as Hcnt;
            pose proof (update_loop_prefix ps true cp' cl' g' p
                          ltac:(intros q Hq; apply elem_of_seq in Hq; lia))
              as [H1 H2]
        end;
        (split; [| rewrite H1, H2; exact Hstored]);
        [change (saved_array_count (free _ (store_slot p cp cl g)))
           with (saved_array_count g) in Hcnt
        | change (saved_array_count (store_slot p cp cl g))
           with (saved_array_count g) in Hcnt]; lia.
  - apply IH; [exact Hwf | lia |].
    intros Hc. destruct (decide (saved_array_count g = p)) as [Heq | Hne].
    + rewrite (Hzero p) in Hge by lia. lia.
    + apply Hcl. lia.
Qed.

Lemma update_tested_cycles_retains cycle_length g :
  cache_wf g ->
  fst (update_tested_cycles cycle_length g) = true ->
  exists i, (i < saved_array_count (snd (update_tested_cycles cycle_length g)))%nat /\
    array_get (saved_cycle_lengths (snd (update_tested_cycles cycle_length g))) i
      = cycle_length /\
    array_get (tested_cycle_bit_arrays (snd (update_tested_cycles cycle_length g))) i
      = cycle_bit_array g.
Proof.
  intros Hwf. unfold update_tested_cycles. pose proof Hwf as (Hlt & Hll & _).
  destruct (Nat.eqb_spec (saved_array_count g) 0) as [Hz | Hnz].
  - intros _. exists 0%nat. cbn [snd]. simpl_globals. split; [lia |].
    split; apply array_get_insert_eq.
    + rewrite Hll. unfold ARRAYS_TO_STORE. lia.
    + rewrite Hlt. unfold ARRAYS_TO_STORE. lia.
  - apply update_loop_retains; [exact Hwf | reflexivity | lia].
Qed.

(** A state on the trajectory of a record is marked in its fingerprint, as
    is every state it leads to. *)
Lemma cached_hit_orbit g s i j :
  records_sound g -> valid_state s -> (i < saved_array_count g)%nat ->
  cached_hit g (encode_state s) i ->
  cached_hit g (encode_state (orbit s j)) i.
Proof.
  intros Hsound Hs Hi (array & Harray & Hbit).
  destruct (Hsound i Hi) as (array' & s0 & Harray' & Hs0 & Hr).
  assert (Heq : array' = array) by congruence. subst array'.
  destruct (trace_result_period s0 _ _ Hs0 Hr) as [Hp _].
  pose proof Hr as ((Hpos & _) & _ & _ & Hbits).
  destruct (proj1 (Hbits _) Hbit) as (j0 & Hj0 & Hkey).
  apply encode_state_inj in Hkey; [| exact Hs | apply orbit_valid, Hs0].
  exists array. split; [exact Harray |]. apply Hbits.
  exists ((j + j0) mod array_get (saved_cycle_lengths g) i).
  split; [apply N.mod_lt; lia |].
  unfold orbit_key. f_equal. rewrite Hkey, <- orbit_add.
  apply orbit_mod; [exact Hp | lia].
Qed.

(** A seed whose state is marked in a retained fingerprint is answered from
    the cache, with the length of its trajectory. *)
Lemma test_seed_for_cycle_hit malloc seed g i :
  heap_wf g -> records_sound g -> (i < saved_array_count g)%nat ->
  cached_hit g (encode_state (seed_state seed)) i ->
  test_seed_for_cycle malloc seed g =
    Returns (fst (trace_loop zeroed (seed_state seed)), true, g).
Proof.
  intros (_ & Hlive & _) Hsound Hi Hhit. unfold test_seed_for_cycle.
  pose proof (lookup_seed_spec g (seed_state seed) Hlive) as Hlookup.
  destruct (lookup_seed g (seed_state seed)) as [[[] i0] | |]; try contradiction.
  - destruct Hlookup as (Hi0 & Hhit0 & _).
    rewrite (cached_hit_length g (seed_state seed) i0 Hsound
               (seed_state_valid seed) Hi0 Hhit0).
    reflexivity.
  - exfalso. exact (Hlookup i Hi Hhit).
Qed.

Section Retained.

Variable malloc : allocator.
Hypothesis malloc_fresh : fresh_allocator malloc.

(** After a seed whose fingerprint went into the cache, its state is marked
    in a retained fingerprint. *)
Lemma finish_seed_retained cycle_length g array s :
  scratch_ok g -> heap_wf g ->
  heap g !! cycle_bit_array g = Some array ->
  test_bit array (encode_state s) = true ->
  match finish_seed malloc cycle_length g with
  | Returns (_, _, g') =>
      cycle_bit_array g' <> cycle_bit_array g ->
      exists i, (i < saved_array_count g')%nat /\ cached_hit g' (encode_state s) i
  | _ => True
  end.
Proof using malloc_fresh.
  intros Hok Hheap Harray Hbit. unfold finish_seed.
  pose proof (update_tested_cycles_retains cycle_length g (proj1 Hok)) as Hret.
  pose proof (update_tested_cycles_heap cycle_length g Hok Hheap) as [Hlive _].
  pose proof (update_tested_cycles_heap_sub cycle_length g) as Hsub.
  pose proof (update_tested_cycles_scratch cycle_length g) as Hscratch.
  destruct (update_tested_cycles cycle_length g) as [[] g1]; cbn [fst snd] in *.
  - unfold malloc_block. pose proof (malloc_fresh (heap g1)) as Hfresh.
    destruct (malloc (heap g1)) as [p contents]. cbn [fst] in Hfresh.
    destruct (p =? NULL) eqn:Hp; cbv beta iota zeta; rewrite Hp; [exact I |].
    apply N.eqb_neq in Hp. specialize (Hfresh Hp). intros _.
    destruct (Hret eq_refl) as (i & Hi & _ & Hptr).
    exists i. split; [exact Hi |].
    destruct (Hlive i Hi) as [array' Harray'].
    pose proof (Hsub _ _ Harray') as Hold. rewrite Hptr in Hold.
    assert (Heq : array' = array) by congruence. subst array'.
    exists array. split; [| exact Hbit]. simpl_globals.
    rewrite lookup_insert_ne; [exact Harray' |]. congruence.
  - intros Hne. exfalso. apply Hne. exact Hscratch.
Qed.

Lemma test_seed_for_cycle_retained seed g :
  scratch_ok g -> heap_wf g -> records_sound g ->
  match test_seed_for_cycle malloc seed g with
  | Returns (_, known, g') =>
      known = true \/ cycle_bit_array g' <> cycle_bit_array g ->
      exists i, (i < saved_array_count g')%nat /\
        cached_hit g' (encode_state (seed_state seed)) i
  | _ => True
  end.
Proof using malloc_fresh.
  intros Hok Hheap Hsound. unfold test_seed_for_cycle.
  pose proof Hheap as (Hslive & Hlive & Hdist & Hnew).
  pose proof (lookup_seed_spec g (seed_state seed) Hlive) as Hlookup.
  destruct (lookup_seed g (seed_state seed)) as [[[] i] | |]; try exact I.
  - intros _. destruct Hlookup as (Hi & Hhit & _). exists i. split; assumption.
  - rewrite trace_seed_returns by exact Hslive.
    set (len := fst (trace_loop zeroed (seed_state seed))).
    set (array := snd (trace_loop zeroed (seed_state seed))).
    set (g1 := set_heap (<[cycle_bit_array g := array]> (heap g)) g).
    pose proof (finish_seed_result malloc len g1) as Hres.
    pose proof (finish_seed_retained len g1 array (seed_state seed) Hok
                  (scratch_write_heap_wf g array Hheap)) as Hfin.
    destruct (finish_seed malloc len g1) as [[[len' known] g'] | |]; try exact I.
    destruct Hres as [_ ->]. intros [Hk | Hne]; [discriminate |].
    apply Hfin.
    + unfold g1. simpl_globals. apply lookup_insert_eq.
    + pose proof (trace_loop_clear zeroed (seed_state seed)
                    (seed_state_valid seed) test_bit_zeroed)
        as ((Hpos & _) & _ & _ & Hbits).
      apply Hbits. exists 0. split; [exact Hpos | reflexivity].
    + exact Hne.
Qed.

End Retained.

(** ** The cache holds a cycle once *)

(** Every state returns to itself. *)
Lemma orbit_periodic s :
  valid_state s -> exists len, len <> 0 /\ orbit s len = s.
Proof.
  intros Hs.
  pose proof (trace_loop_clear zeroed s Hs test_bit_zeroed) as Hr.
  destruct (trace_result_period s _ _ Hs Hr) as [Hp _].
  destruct Hr as ((Hpos & _) & _).
  exists (fst (trace_loop zeroed s)). split; [lia | exact Hp].
Qed.

(** A fingerprint that marks a state of a trajectory marks its first
    state. *)
Lemma cached_hit_start g s i m :
  records_sound g -> valid_state s -> (i < saved_array_count g)%nat ->
  cached_hit g (encode_state (orbit s m)) i -> cached_hit g (encode_state s) i.
Proof.
  intros Hsound Hs Hi Hhit.
  destruct (orbit_periodic s Hs) as (len & Hlen & Hp).
  destruct (orbit_back s m len Hp Hlen) as [m' Hback].
  rewrite <- Hback.
  apply cached_hit_orbit; [exact Hsound | apply orbit_valid, Hs | exact Hi | exact Hhit].
Qed.

(** The fingerprint of a seed that missed the cache shares no key with a
    retained one. *)
Lemma missed_trace_disjoint g s len array j array' key :
  records_sound g -> valid_state s -> trace_result s len array ->
  (forall i, (i < saved_array_count g)%nat -> ~ cached_hit g (encode_state s) i) ->
  (j < saved_array_count g)%nat ->
  heap g !! array_get (tested_cycle_bit_arrays g) j = Some array' ->
  test_bit array key = true -> test_bit array' key = false.
Proof.
  intros Hsound Hs (_ & _ & _ & Hbits) Hmiss Hj Harray' Hkey.
  destruct (proj1 (Hbits key) Hkey) as (m & _ & ->).
  destruct (test_bit array' (orbit_key s m)) eqn:Hbit; [exfalso | reflexivity].
  apply (Hmiss j Hj). apply (cached_hit_start g s j m Hsound Hs Hj).
  exists array'. split; [exact Harray' | exact Hbit].
Qed.

Lemma update_tested_cycles_disjoint cycle_length g array s :
  scratch_ok g -> heap_wf g -> records_sound g -> records_disjoint g ->
  heap g !! cycle_bit_array g = Some array ->
  valid_state s -> trace_result s cycle_length array ->
  (forall i, (i < saved_array_count g)%nat -> ~ cached_hit g (encode_state s) i) ->
  records_disjoint (snd (update_tested_cycles cycle_length g)).
Proof.
  intros Hok Hheap Hsound Hdisj Harray Hs Hr Hmiss i j array1 array2 key Hi Hj Hij
    Harray1 Harray2 Hkey.
  destruct (update_tested_cycles_heap cycle_length g Hok Hheap) as [_ Hdist].
  specialize (Hdist i j Hi Hj Hij).
  apply update_tested_cycles_heap_sub in Harray1, Harray2.
  pose proof Hheap as (_ & _ & Hdist0 & _).
  destruct (update_tested_cycles_members cycle_length g i Hok Hi)
    as [[_ Hp1] | (i0 & Hi0 & _ & Hp1)];
    destruct (update_tested_cycles_members cycle_length g j Hok Hj)
      as [[_ Hp2] | (j0 & Hj0 & _ & Hp2)];
    rewrite Hp1 in *; rewrite Hp2 in *.
  - contradiction.
  - assert (Heq : array1 = array) by congruence. subst array1.
    exact (missed_trace_disjoint g s cycle_length array j0 array2 key
             Hsound Hs Hr Hmiss Hj0 Harray2 Hkey).
  - assert (Heq : array2 = array) by congruence. subst array2.
    destruct (test_bit array key) eqn:Hbit; [exfalso | reflexivity].
    pose proof (missed_trace_disjoint g s cycle_length array i0 array1 key
                  Hsound Hs Hr Hmiss Hi0 Harray1 Hbit). congruence.
  - apply (Hdisj i0 j0 array1 array2 key); try assumption. congruence.
Qed.

Section Once.

Variable malloc : allocator.
Hypothesis malloc_fresh : fresh_allocator malloc.

Lemma finish_seed_disjoint cycle_length g array s :
  scratch_ok g -> heap_wf g -> records_sound g -> records_disjoint g ->
  heap g !! cycle_bit_array g = Some array ->
  valid_state s -> trace_result s cycle_length array ->
  (forall i, (i < saved_array_count g)%nat -> ~ cached_hit g (encode_state s) i) ->
  match finish_seed malloc cycle_length g with
  | Returns (_, _, g') => records_disjoint g'
  | _ => True
  end.
Proof using malloc_fresh.
  intros Hok Hheap Hsound Hdisj Harray Hs Hr Hmiss. unfold finish_seed.
  pose proof (update_tested_cycles_disjoint cycle_length g array s
                Hok Hheap Hsound Hdisj Harray Hs Hr Hmiss) as Hdisj1.
  pose proof (update_tested_cycles_heap cycle_length g Hok Hheap) as [Hlive _].
  destruct (update_tested_cycles cycle_length g) as [[] g1]; cbn [snd] in *;
    [| exact Hdisj1].
  unfold malloc_block. pose proof (malloc_fresh (heap g1)) as Hfresh.
  destruct (malloc (heap g1)) as [p contents]. cbn [fst] in Hfresh.
  destruct (p =? NULL) eqn:Hp; cbv beta iota zeta; rewrite Hp; [exact I |].
  apply N.eqb_neq in Hp. specialize (Hfresh Hp).
  assert (Hold : forall i a, (i < saved_array_count g1)%nat ->
            <[p := contents]> (heap g1) !! array_get (tested_cycle_bit_arrays g1) i
              = Some a ->
            heap g1 !! array_get (tested_cycle_bit_arrays g1) i = Some a).
  { intros i a Hi Ha. destruct (Hlive i Hi) as [a' Ha'].
    rewrite lookup_insert_ne in Ha; [exact Ha | congruence]. }
  intros i j array1 array2 key Hi Hj Hij. simpl_globals.
  intros Harray1 Harray2.
  apply (Hdisj1 i j array1 array2 key Hi Hj Hij); apply Hold; assumption.
Qed.

(** One seed keeps the retained fingerprints pairwise disjoint. *)
Lemma test_seed_for_cycle_disjoint seed g :
  scratch_ok g -> heap_wf g -> records_sound g -> records_disjoint g ->
  match test_seed_for_cycle malloc seed g with
  | Returns (_, _, g') => records_disjoint g'
  | _ => True
  end.
Proof using malloc_fresh.
  intros Hok Hheap Hsound Hdisj. unfold test_seed_for_cycle.
  pose proof Hheap as (Hslive & Hlive & Hdist & Hnew).
  pose proof (lookup_seed_spec g (seed_state seed) Hlive) as Hlookup.
  destruct (lookup_seed g (seed_state seed)) as [[[] i] | |]; try exact I.
  - exact Hdisj.
  - rewrite trace_seed_returns by exact Hslive.
    set (len := fst (trace_loop zeroed (seed_state seed))).
    set (array := snd (trace_loop zeroed (seed_state seed))).
    set (g1 := set_heap (<[cycle_bit_array g := array]> (heap g)) g).
    assert (Hcached : forall j a, (j < saved_array_count g)%nat ->
              (heap g1 !! array_get (tested_cycle_bit_arrays g) j = Some a <->
               heap g !! array_get (tested_cycle_bit_arrays g) j = Some a)).
    { intros j a Hj. unfold g1. simpl_globals.
      rewrite lookup_insert_ne by (apply not_eq_sym, Hnew, Hj). reflexivity. }
    apply (finish_seed_disjoint len g1 array (seed_state seed)).
    + exact Hok.
    + apply scratch_write_heap_wf, Hheap.
    + apply scratch_write_sound; assumption.
    + intros i0 j array1 array2 key Hi0 Hj Hij Harray1 Harray2.
      apply (Hdisj i0 j array1 array2 key Hi0 Hj Hij).
      * apply (Hcached i0), Harray1. exact Hi0.
      * apply (Hcached j), Harray2. exact Hj.
    + unfold g1. simpl_globals. apply lookup_insert_eq.
    + apply seed_state_valid.
    + apply trace_loop_clear; [apply seed_state_valid | exact test_bit_zeroed].
    + intros j Hj (a & Ha & Hbit). apply (Hlookup j Hj).
      exists a. split; [apply (Hcached j), Ha; exact Hj | exact Hbit].
Qed.

Lemma scan_seeds_disjoint n :
  match main_init malloc with
  | Returns g0 =>
      match scan_seeds malloc n g0 with
      | Continue (g, _) => records_sound g /\ records_disjoint g
      | Stop _ => True
      end
  | _ => True
  end.
Proof using malloc_fresh.
  pose proof (main_init_cases malloc) as Hinit.
  pose proof (main_init_heap malloc) as Hheap.
  destruct (main_init malloc) as [g0 | |]; try exact I.
  destruct Hinit as (Hok & Hcount & _).
  assert (Hbody : forall i s,
            scratch_ok (fst s) /\ heap_wf (fst s) /\ records_sound (fst s) /\
            records_disjoint (fst s) ->
            match seed_body malloc i s with
            | Continue s' =>
                scratch_ok (fst s') /\ heap_wf (fst s') /\ records_sound (fst s') /\
                records_disjoint (fst s')
            | Stop r => True
            end).
  { intros i [g printed] (H1 & H2 & H3 & H4). cbn [fst] in *. unfold seed_body.
    pose proof (test_seed_for_cycle_sound malloc malloc_fresh i g H1 H2 H3) as Hseed.
    pose proof (test_seed_for_cycle_disjoint i g H1 H2 H3 H4) as Hseed'.
    destruct (test_seed_for_cycle malloc i g) as [[[len known] g'] | |];
      try exact I.
    destruct Hseed as (_ & _ & H1' & H2' & H3').
    destruct known; cbn [fst]; (split; [exact H1' |]; split; [exact H2' |];
      split; [exact H3' | exact Hseed']). }
  pose proof (for_count_invariant (seed_body malloc) _ _ Hbody n 0 (g0, [])) as Hrun.
  cbn [fst] in Hrun.
  specialize (Hrun ltac:(
    split; [exact Hok |]; split; [exact Hheap |];
    split; [intros i Hi; lia | intros i j a a' k Hi; lia])).
  unfold scan_seeds.
  destruct (for_count (seed_body malloc) n 0 (g0, [])) as [[g printed] | r];
    [| exact I].
  cbn [fst] in Hrun. destruct Hrun as (_ & _ & H3 & H4). split; assumption.
Qed.

End Once.

(** ** The output covers every cycle *)

Section Covered.

Variable malloc : allocator.
Hypothesis malloc_fresh : fresh_allocator malloc.

(** One seed: a seed found in the cache lies on the trajectory of a state
    the records come from; a seed that was traced may have become one. *)
Lemma test_seed_for_cycle_from Q seed g :
  scratch_ok g -> heap_wf g -> records_from Q g ->
  match test_seed_for_cycle malloc seed g with
  | Returns (_, known, g') =>
      if known then
        records_from Q g' /\
        exists s j, Q s /\ seed_state seed = orbit s j
      else records_from (fun s => Q s \/ s = seed_state seed) g'
  | _ => True
  end.
Proof using malloc_fresh.
  intros Hok Hheap Hfrom. unfold test_seed_for_cycle.
  pose proof Hheap as (Hslive & Hlive & Hdist & Hnew).
  pose proof (lookup_seed_spec g (seed_state seed) Hlive) as Hlookup.
  destruct (lookup_seed g (seed_state seed)) as [[[] i] | |]; try exact I.
  - split; [exact Hfrom |].
    destruct Hlookup as (Hi & (array & Harray & Hbit) & _).
    destruct (Hfrom i Hi) as (array' & s & Harray' & Hq & Hs & Hr).
    assert (Heq : array' = array) by congruence. subst array'.
    destruct Hr as (_ & _ & _ & Hbits).
    destruct (proj1 (Hbits _) Hbit) as (j & _ & Hkey).
    apply encode_state_inj in Hkey;
      [| apply seed_state_valid | apply orbit_valid, Hs].
    exists s, j. split; [exact Hq | exact Hkey].
  - rewrite trace_seed_returns by exact Hslive.
    set (len := fst (trace_loop zeroed (seed_state seed))).
    set (array := snd (trace_loop zeroed (seed_state seed))).
    set (g1 := set_heap (<[cycle_bit_array g := array]> (heap g)) g).
    pose proof (finish_seed_result malloc len g1) as Hres.
    pose proof (finish_seed_from malloc malloc_fresh
                  (fun s => Q s \/ s = seed_state seed)
                  len g1 array (seed_state seed) Hok
                  (scratch_write_heap_wf g array Hheap)
                  (scratch_write_from _ g array Hheap
                     (records_from_mono Q _ g (fun s H => or_introl H) Hfrom)))
      as Hfin.
    destruct (finish_seed malloc len g1) as [[[len' known] g'] | |]; try exact I.
    destruct Hres as [_ ->]. apply Hfin.
    + unfold g1. simpl_globals. apply lookup_insert_eq.
    + right. reflexivity.
    + apply seed_state_valid.
    + apply trace_loop_clear; [apply seed_state_valid | exact test_bit_zeroed].
Qed.

Lemma seed_body_covered seed g printed :
  scratch_ok g -> heap_wf g -> records_from (printed_state printed) g ->
  Forall (fun line => fst line < seed) printed ->
  seeds_covered seed printed ->
  match seed_body malloc seed (g, printed) with
  | Continue (g', printed') =>
      scratch_ok g' /\ heap_wf g' /\ records_from (printed_state printed') g' /\
      Forall (fun line => fst line < seed + 1) printed' /\
      seeds_covered (seed + 1) printed'
  | Stop _ => True
  end.
Proof using malloc_fresh.
  intros Hok Hheap Hfrom Hbound Hcovered. unfold seed_body.
  pose proof (test_seed_for_cycle_cache malloc seed g Hok) as Hcache.
  pose proof (test_seed_for_cycle_heap malloc malloc_fresh seed g Hok Hheap) as Hheap'.
  pose proof (test_seed_for_cycle_from (printed_state printed) seed g Hok Hheap Hfrom)
    as Hseed.
  destruct (test_seed_for_cycle malloc seed g) as [[[len known] g'] | |];
    try exact I.
  destruct Hcache as [Hok' _].
  assert (Hbound' : Forall (fun line : N * N => fst line < seed + 1) printed).
  { eapply Forall_impl; [exact Hbound |]. intros line Hlt. cbn beta in *. lia. }
  destruct known.
  - destruct Hseed as (Hfrom' & s & j & (line & Hin & ->) & Hreach).
    split; [exact Hok' |]. split; [exact Hheap' |]. split; [exact Hfrom' |].
    split; [exact Hbound' |].
    intros seed0 Hseed0. destruct (N.eq_dec seed0 seed) as [-> | Hne].
    + exists line, j. split; [exact Hin |]. split; [| exact Hreach].
      rewrite List.Forall_forall in Hbound. specialize (Hbound line Hin).
      cbn beta in Hbound. lia.
    + apply Hcovered. lia.
  - split; [exact Hok' |]. split; [exact Hheap' |]. split; [| split].
    + eapply records_from_mono; [| exact Hseed].
      intros s [(line & Hin & ->) | ->].
      * exists line. split; [right; exact Hin | reflexivity].
      * exists (seed, len). split; [left; reflexivity | reflexivity].
    + constructor; [cbn [fst]; lia | exact Hbound'].
    + intros seed0 Hseed0. destruct (N.eq_dec seed0 seed) as [-> | Hne].
      * exists (seed, len), 0. split; [left; reflexivity |].
        split; [cbn [fst]; lia | reflexivity].
      * destruct (Hcovered seed0 ltac:(lia)) as (line & j & Hin & Hle & Hreach).
        exists line, j. split; [right; exact Hin |]. split; assumption.
Qed.

Lemma scan_seeds_covered n :
  match main_init malloc with
  | Returns g0 =>
      match scan_seeds malloc n g0 with
      | Continue (_, printed) => seeds_covered (N.of_nat n) printed
      | Stop _ => True
      end
  | _ => True
  end.
Proof using malloc_fresh.
  pose proof (main_init_cases malloc) as Hinit.
  pose proof (main_init_heap malloc) as Hheap.
  destruct (main_init malloc) as [g0 | |]; try exact I.
  destruct Hinit as (Hok & Hcount & _).
  pose proof (for_count_invariant_index (seed_body malloc)
                (fun seed s =>
                   scratch_ok (fst s) /\ heap_wf (fst s) /\
                   records_from (printed_state (snd s)) (fst s) /\
                   Forall (fun line => fst line < seed) (snd s) /\
                   seeds_covered seed (snd s))
                (fun _ => True)) as Hinv.
  unfold scan_seeds.
  specialize (Hinv ltac:(
    intros seed [g printed] (H1 & H2 & H3 & H4 & H5); cbn [fst snd] in *;
    pose proof (seed_body_covered seed g printed H1 H2 H3 H4 H5) as Hbody;
    destruct (seed_body malloc seed (g, printed)) as [[g' printed'] | r];
    exact Hbody) n 0 (g0, [])).
  cbn [fst snd] in Hinv.
  specialize (Hinv ltac:(
    split; [exact Hok |]; split; [exact Hheap |];
    split; [intros i Hi; lia |]; split; [constructor | intros seed Hseed; lia])).
  destruct (for_count (seed_body malloc) n 0 (g0, [])) as [[g printed] | r];
    [| exact I].
  cbn [fst snd] in Hinv. rewrite N.add_0_l in Hinv. apply Hinv.
Qed.

End Covered.

Lemma trace_length_orbit s j :
  valid_state s ->
  fst (trace_loop zeroed (orbit s j)) = fst (trace_loop zeroed s).
Proof.
  intros Hs.
  apply (trace_result_same_cycle s j _ (snd (trace_loop zeroed s)) _
           (snd (trace_loop zeroed (orbit s j))) Hs).
  - apply trace_loop_clear; [exact Hs | exact test_bit_zeroed].
  - apply trace_loop_clear; [apply orbit_valid, Hs | exact test_bit_zeroed].
Qed.

(** Every state leads to the initial state of a seed. *)
Lemma orbit_seed_state s :
  valid_state s ->
  exists m seed, seed < 2 ^ 24 /\ orbit s m = seed_state seed.
Proof.
  intros Hs. pose proof Hs as (_ & _ & _ & Hd).
  set (m := (257 - d s) mod 256).
  assert (Hd1 : d (orbit s m) = 1).
  { rewrite orbit_d by exact Hd. unfold m. lia. }
  destruct (seed_state_onto (orbit s m) (orbit_valid s m Hs) Hd1) as [Heq Hlt].
  exists m. eexists. split; [exact Hlt | symmetry; exact Heq].
Qed.

Lemma main_covers malloc :
  fresh_allocator malloc ->
  main malloc = Exits 1 \/
  exists lines,
    main malloc = Returns lines /\ lines_ok (2 ^ 24) lines /\
    seeds_covered (2 ^ 24) lines.
Proof.
  intros Hfresh. unfold main.
  pose proof (scan_seeds_lines malloc Hfresh (2 ^ 24)%nat) as Hscan.
  pose proof (scan_seeds_covered malloc Hfresh (2 ^ 24)%nat) as Hcov.
  destruct (main_init malloc) as [g0 | |].
  - rewrite seed_loop_scan. rewrite pow2_24_nat in Hscan, Hcov.
    destruct (scan_seeds malloc (2 ^ 24)%nat g0) as [[g printed] | r].
    + right. exists (rev printed). split; [reflexivity |].
      split; [apply Hscan |].
      intros seed Hseed. destruct (Hcov seed Hseed) as (line & j & Hin & Hrest).
      exists line, j. split; [apply in_rev in Hin; exact Hin | exact Hrest].
    + left. exact Hscan.
  - left. rewrite Hscan. reflexivity.
  - contradiction.
Qed.

(** ** Blocks that are lost *)

(** Insertion keeps an entry where it is or moves it one place down, and
    moves it only past an entry of smaller length. *)
Lemma insert_record_lookup r l i x :
  l !! i = Some x ->
  insert_record r l !! i = Some x \/
  (insert_record r l !! Datatypes.S i = Some x /\
   exists k y, (k <= i)%nat /\ l !! k = Some y /\ fst y < fst r).
Proof.
  revert i. induction l as [| y l IH]; intros i Hi; [discriminate |].
  cbn [insert_record]. destruct (N.ltb_spec (fst y) (fst r)) as [Hlt | Hge].
  - right. split; [exact Hi |]. exists 0%nat, y. split; [lia |]. split; [reflexivity | exact Hlt].
  - destruct i as [| i]; [left; exact Hi |]. cbn in Hi.
    destruct (IH i Hi) as [Hsame | (Hnext & k & z & Hk & Hz & Hlt)].
    + left. exact Hsame.
    + right. split; [exact Hnext |]. exists (Datatypes.S k), z.
      split; [lia |]. split; [exact Hz | exact Hlt].
Qed.

Lemma cached_records_lookup g i :
  cache_wf g -> (i < saved_array_count g)%nat ->
  cached_records g !! i =
    Some (array_get (saved_cycle_lengths g) i,
          array_get (tested_cycle_bit_arrays g) i).
Proof.
  intros Hwf Hi. pose proof Hwf as (_ & _ & Hcount & _).
  rewrite cached_records_slots, lookup_take_lt by exact Hi.
  apply cache_slots_lookup; [exact Hwf | lia].
Qed.

Lemma cached_records_pointer g i x :
  cache_wf g -> cached_records g !! i = Some x ->
  (i < saved_array_count g)%nat /\ array_get (tested_cycle_bit_arrays g) i = snd x.
Proof.
  intros Hwf Hx. rewrite cached_records_slots in Hx.
  apply lookup_take_Some in Hx as [Hx Hi]. split; [exact Hi |].
  pose proof Hwf as (_ & _ & Hcount & _).
  rewrite cache_slots_lookup in Hx by (exact Hwf || lia).
  injection Hx as <-. reflexivity.
Qed.

(** With lengths that strictly decrease, a retained fingerprint stays
    retained unless its block is freed. *)
Lemma update_tested_cycles_keeps cycle_length g i :
  scratch_ok g -> lengths_distinct g -> 0 < cycle_length ->
  (i < saved_array_count g)%nat ->
  heap (snd (update_tested_cycles cycle_length g))
    !! array_get (tested_cycle_bit_arrays g) i = None \/
  exists i', (i' < saved_array_count (snd (update_tested_cycles cycle_length g)))%nat /\
    array_get (tested_cycle_bit_arrays (snd (update_tested_cycles cycle_length g))) i'
      = array_get (tested_cycle_bit_arrays g) i.
Proof.
  intros Hok Hdist Hpos Hi. pose proof Hok as [Hwf Hscratch].
  pose proof Hwf as (_ & _ & Hcount & _).
  destruct (update_tested_cycles_records cycle_length g Hok Hdist Hpos)
    as (Hrec & Hcnt & Hheap).
  pose proof (update_tested_cycles_wf cycle_length g Hwf Hscratch) as Hwf'.
  pose proof (cached_records_lookup g i Hwf Hi) as Hx.
  assert (Hkept : forall i', (i' < ARRAYS_TO_STORE)%nat ->
            insert_record (cycle_length, cycle_bit_array g) (cached_records g) !! i'
              = Some (array_get (saved_cycle_lengths g) i,
                      array_get (tested_cycle_bit_arrays g) i) ->
            exists i'',
              (i'' < saved_array_count (snd (update_tested_cycles cycle_length g)))%nat /\
              array_get (tested_cycle_bit_arrays
                           (snd (update_tested_cycles cycle_length g))) i''
                = array_get (tested_cycle_bit_arrays g) i).
  { intros i' Hi' Hlook. exists i'.
    apply (cached_records_pointer _ i'
             (array_get (saved_cycle_lengths g) i,
              array_get (tested_cycle_bit_arrays g) i) Hwf').
    rewrite Hrec.
    rewrite lookup_take_lt by exact Hi'. exact Hlook. }
  destruct (insert_record_lookup (cycle_length, cycle_bit_array g) _ i _ Hx)
    as [Hsame | (Hnext & k & y & Hk & Hy & Hlt)].
  - right. apply (Hkept i); [lia | exact Hsame].
  - destruct (decide (Datatypes.S i < ARRAYS_TO_STORE)%nat) as [Hroom | Hlast].
    + right. apply (Hkept (Datatypes.S i)); [exact Hroom | exact Hnext].
    + left. assert (Hi6 : i = (ARRAYS_TO_STORE - 1)%nat) by lia.
      assert (Hfull : saved_array_count g = ARRAYS_TO_STORE) by lia.
      assert (Hk' : (k < saved_array_count g)%nat) by lia.
      rewrite (cached_records_lookup g k Hwf Hk') in Hy. injection Hy as <-.
      cbn [fst] in Hlt.
      assert (Hbottom : array_get (saved_cycle_lengths g) (ARRAYS_TO_STORE - 1)
                        < cycle_length).
      { destruct (decide (k = (ARRAYS_TO_STORE - 1)%nat)) as [-> | Hne];
          [exact Hlt |].
        specialize (Hdist k (ARRAYS_TO_STORE - 1)%nat ltac:(lia) Hk'). lia. }
      rewrite Hheap, Hfull, Nat.eqb_refl, (proj2 (N.ltb_lt _ _) Hbottom), Hi6.
      cbn [andb]. apply lookup_delete_eq.
Qed.

Lemma update_tested_cycles_no_leak cycle_length g :
  scratch_ok g -> lengths_distinct g -> 0 < cycle_length -> no_leak g ->
  no_leak (snd (update_tested_cycles cycle_length g)).
Proof.
  intros Hok Hdist Hpos Hleak p Hp.
  rewrite update_tested_cycles_scratch.
  assert (Hold : is_Some (heap g !! p)).
  { destruct Hp as [array Harray].
    exists array. exact (update_tested_cycles_heap_sub cycle_length g p array Harray). }
  destruct (Hleak p Hold) as [Hscratch | (i & Hi & <-)]; [left; exact Hscratch |].
  destruct (update_tested_cycles_keeps cycle_length g i Hok Hdist Hpos Hi)
    as [Hfreed | Hkept].
  - rewrite Hfreed in Hp. destruct Hp as [array Harray]. discriminate.
  - right. exact Hkept.
Qed.

(** The part of [test_seed_for_cycle] after the loop loses no block either:
    a new scratch array is allocated only when the old one is retained. *)
Lemma finish_seed_no_leak_cases malloc cycle_length g :
  scratch_ok g -> lengths_distinct g -> 0 < cycle_length -> no_leak g ->
  match finish_seed malloc cycle_length g with
  | Returns (_, _, g') => no_leak g'
  | _ => True
  end.
Proof.
  intros Hok Hdist Hpos Hleak. unfold finish_seed.
  pose proof (update_tested_cycles_no_leak cycle_length g Hok Hdist Hpos Hleak)
    as Hleak1.
  pose proof (update_tested_cycles_retains cycle_length g (proj1 Hok)) as Hret.
  pose proof (update_tested_cycles_scratch cycle_length g) as Hscratch.
  destruct (update_tested_cycles cycle_length g) as [[] g1]; cbn [fst snd] in *;
    [| exact Hleak1].
  unfold malloc_block. destruct (malloc (heap g1)) as [p contents].
  destruct (p =? NULL) eqn:Hp; cbv beta iota zeta; rewrite Hp; [exact I |].
  intros q Hq. simpl_globals.
  destruct (decide (q = p)) as [-> | Hne]; [left; reflexivity | right].
  rewrite lookup_insert_ne in Hq by congruence.
  destruct (Hleak1 q Hq) as [Hqs | Hcached]; [| exact Hcached].
  destruct (Hret eq_refl) as (i & Hi & _ & Hptr).
  exists i. split; [exact Hi | congruence].
Qed.

(** ** The states the scan reaches *)

Section Reached.

Variable malloc : allocator.
Hypothesis malloc_fresh : fresh_allocator malloc.

(** After a seed the cache holds a record. *)
Lemma test_seed_for_cycle_count seed g :
  heap_wf g ->
  match test_seed_for_cycle malloc seed g with
  | Returns (_, _, g') => (0 < saved_array_count g')%nat
  | _ => True
  end.
Proof.
  intros (Hslive & Hlive & _). unfold test_seed_for_cycle.
  pose proof (lookup_seed_spec g (seed_state seed) Hlive) as Hlookup.
  destruct (lookup_seed g (seed_state seed)) as [[[] i] | |]; try exact I.
  - destruct Hlookup as (Hi & _). lia.
  - rewrite trace_seed_returns by exact Hslive. unfold finish_seed.
    match goal with
    | |- context [update_tested_cycles ?len ?g1] =>
        destruct (update_tested_cycles_count len g1) as [_ Hcount];
        destruct (update_tested_cycles len g1) as [[] g2]
    end; cbn [snd] in Hcount.
    + unfold malloc_block. destruct (malloc (heap g2)) as [p contents].
      destruct (p =? NULL) eqn:Hp; cbv beta iota zeta; rewrite Hp; [exact I |].
      simpl_globals. lia.
    + lia.
Qed.

Lemma scan_seeds_count n :
  match main_init malloc with
  | Returns g0 =>
      match scan_seeds malloc n g0 with
      | Continue (g, _) => (0 < n)%nat -> (0 < saved_array_count g)%nat
      | Stop _ => True
      end
  | _ => True
  end.
Proof using malloc_fresh.
  pose proof (main_init_cases malloc) as Hinit.
  pose proof (main_init_heap malloc) as Hheap.
  destruct (main_init malloc) as [g0 | |]; try exact I.
  destruct Hinit as (Hok & _).
  pose proof (for_count_invariant_index (seed_body malloc)
                (fun seed s =>
                   scratch_ok (fst s) /\ heap_wf (fst s) /\
                   (0 < seed -> (0 < saved_array_count (fst s))%nat))
                (fun _ => True)) as Hinv.
  unfold scan_seeds.
  specialize (Hinv ltac:(
    intros seed [g printed] (H1 & H2 & _); cbn [fst] in *; unfold seed_body;
    pose proof (test_seed_for_cycle_cache malloc seed g H1) as Hstep;
    pose proof (test_seed_for_cycle_heap malloc malloc_fresh seed g H1 H2) as Hstep';
    pose proof (test_seed_for_cycle_count seed g H2) as Hstep'';
    destruct (test_seed_for_cycle malloc seed g) as [[[len known] g'] | |];
    [| exact I | exact I];
    destruct known; cbn [fst];
    (split; [apply Hstep |]; split; [exact Hstep' | intros _; exact Hstep''])) n 0 (g0, [])).
  cbn [fst] in Hinv.
  specialize (Hinv ltac:(split; [exact Hok |]; split; [exact Hheap | intros H; lia])).
  destruct (for_count (seed_body malloc) n 0 (g0, [])) as [[g printed] | r];
    [| exact I].
  cbn [fst] in Hinv. destruct Hinv as (_ & _ & Hcount). intros Hn. apply Hcount. lia.
Qed.

End Reached.

(** The state after any number of seeds: the slots are consistent, every
    pointer is on a live block of its own, every record is sound, and there
    is a record once a seed was examined. *)
Lemma scan_seeds_reached malloc n g0 g printed :
  fresh_allocator malloc ->
  main_init malloc = Returns g0 ->
  scan_seeds malloc n g0 = Continue (g, printed) ->
  scratch_ok g /\ heap_wf g /\ records_sound g /\
  ((0 < n)%nat -> (0 < saved_array_count g)%nat).
Proof.
  intros Hfresh Hinit Hscan.
  pose proof (scan_seeds_lines malloc Hfresh n) as Hlines.
  pose proof (scan_seeds_count malloc Hfresh n) as Hcount.
  rewrite Hinit, Hscan in Hlines, Hcount.
  destruct Hlines as (H1 & H2 & H3 & _).
  split; [exact H1 |]. split; [exact H2 |]. split; [exact H3 | exact Hcount].
Qed.

(** ** Concrete states *)

Lemma example_cache_lengths j :
  (1 <= j)%nat -> array_get (saved_cycle_lengths example_cache) j = 0.
Proof.
  intros Hj. destruct j as [| j]; [lia |].
  do 7 (destruct j as [| j]; [reflexivity |]). reflexivity.
Qed.

Lemma example_cache_scratch_ok : scratch_ok example_cache.
Proof. split; [apply cache_okb_wf; reflexivity | discriminate]. Qed.

Lemma example_cache_sorted : lengths_sorted example_cache.
Proof.
  intros i j Hij. rewrite (example_cache_lengths j) by lia. lia.
Qed.

Lemma example_cache_distinct : lengths_distinct example_cache.
Proof.
  intros i j Hij Hi. cbn in Hi. assert (i = 0%nat) as -> by lia.
  rewrite (example_cache_lengths j) by lia. reflexivity.
Qed.

Lemma example_cache_no_leak : no_leak example_cache.
Proof.
  intros p [array Harray].
  destruct (decide (p = 10)) as [-> | Hne10].
  - right. exists 0%nat. split; [cbn; lia | reflexivity].
  - destruct (decide (p = 20)) as [-> | Hne20]; [left; reflexivity |].
    exfalso. unfold example_cache in Harray. cbn [heap] in Harray.
    rewrite lookup_insert_ne, lookup_singleton_ne in Harray by congruence.
    discriminate.
Qed.

Lemma main_init_bump : main_init (bump_malloc zeroed) = Returns first_globals.
Proof. reflexivity. Qed.

(** ** The properties *)

(** X1. The bit vector is a set of keys: [test_and_set_bit] returns whether
    the key was in the set, and afterwards [test_bit] answers true for that
    key and as before for every other key, whichever words and bits the keys
    fall into. *)
Theorem test_and_set_bit_membership (array : bitarray) (k k' : N) :
  fst (test_and_set_bit array k) = test_bit array k /\
  test_bit (snd (test_and_set_bit array k)) k' = (k =? k') || test_bit array k'.
Proof.
  split; [apply test_and_set_bit_fst | apply test_and_set_bit_snd].
Qed.

(** X2. Every access stays inside the block of [BIT_ARRAY_LENGTH] 64-bit
    words: for a key below [2^32] the word index is below
    [BIT_ARRAY_LENGTH], the bit index is below 64 and the mask fits a word,
    so [test_and_set_bit] writes a 64-bit value into a word of the block;
    the keys of the trace loop are below [2^32], and the array the loop
    leaves is a block again. *)
Theorem test_and_set_bit_in_bounds (array : bitarray) (k : N) :
  k < POSSIBLE_STATES -> block_ok array ->
  WORD_INDEX k < BIT_ARRAY_LENGTH /\
  BIT_INDEX k < 64 /\
  N.shiftl 1 (BIT_INDEX k) < 2 ^ 64 /\
  block_ok (snd (test_and_set_bit array k)) /\
  forall s, valid_state s ->
    encode_state s < POSSIBLE_STATES /\ block_ok (snd (trace_loop array s)).
Proof.
  intros Hk Hok.
  split; [apply WORD_INDEX_lt, Hk |]. split; [apply BIT_INDEX_lt |].
  split; [apply bit_word_lt |].
  split; [apply test_and_set_bit_block_ok; assumption |].
  intros s Hs. split; [apply encode_state_lt, Hs |].
  destruct (trace_loop_marks array s) as [n ->].
  apply mark_orbit_block_ok; assumption.
Qed.

Lemma test_and_set_bit_in_bounds_witness :
  4294967295 < POSSIBLE_STATES /\ block_ok zeroed /\
  WORD_INDEX 4294967295 < BIT_ARRAY_LENGTH /\
  block_ok (snd (test_and_set_bit zeroed 4294967295)).
Proof.
  assert (Hk : 4294967295 < POSSIBLE_STATES) by reflexivity.
  split; [exact Hk |]. split; [exact zeroed_block_ok |].
  destruct (test_and_set_bit_in_bounds zeroed 4294967295 Hk zeroed_block_ok)
    as (Hw & _ & _ & Hb & _).
  split; [exact Hw | exact Hb].
Defined.

(** X3. On an array in which the key of the start state is already marked,
    the first [test_and_set_bit] reports a collision and leaves the array as
    it is, and the trace loop breaks at once with length 0: a stale mark of
    the start state would make the loop report length 0. *)
Theorem trace_loop_stale_mark (array : bitarray) (s : sfc8_t) :
  test_bit array (encode_state s) = true ->
  snd (test_and_set_bit array (encode_state s)) = array /\
  trace_loop array s = (0, array).
Proof.
  intros Hbit. split; [apply test_and_set_bit_same, Hbit | apply trace_loop_stale, Hbit].
Qed.

Lemma trace_loop_stale_mark_witness :
  test_bit {[262144 := 32]} (encode_state (seed_state 5)) = true /\
  trace_loop {[262144 := 32]} (seed_state 5) = (0, {[262144 := 32]}).
Proof.
  assert (H : test_bit {[262144 := 32]} (encode_state (seed_state 5)) = true)
    by reflexivity.
  split; [exact H |].
  exact (proj2 (trace_loop_stale_mark {[262144 := 32]} (seed_state 5) H)).
Defined.

(** X4. The seeds of the scan are the states with [d = 1], each exactly
    once: for a seed below [2^24] the initial state holds the three bytes of
    the seed and [d = 1], its key is [seed + 2^24], different seeds give
    different states, and every state with [d = 1] is the initial state of a
    seed below [2^24]. *)
Theorem seed_state_keys (seed seed' : N) :
  seed < 2 ^ 24 -> seed' < 2 ^ 24 ->
  valid_state (seed_state seed) /\
  d (seed_state seed) = 1 /\
  encode_state (seed_state seed) = seed + 2 ^ 24 /\
  (seed_state seed = seed_state seed' -> seed = seed') /\
  forall s, valid_state s -> d s = 1 ->
    exists seed0, seed0 < 2 ^ 24 /\ seed_state seed0 = s.
Proof.
  intros Hseed Hseed'.
  split; [apply seed_state_valid |]. split; [reflexivity |].
  assert (Hkey : forall x, x < 2 ^ 24 -> encode_state (seed_state x) = x + 2 ^ 24).
  { intros x Hx. rewrite seed_state_key, N.mod_small by exact Hx. reflexivity. }
  split; [apply Hkey, Hseed |]. split.
  - intros Heq. apply (f_equal encode_state) in Heq.
    rewrite !Hkey in Heq by assumption. lia.
  - intros s Hs Hd. destruct (seed_state_onto s Hs Hd) as [Heq Hlt].
    eexists. split; [exact Hlt | exact Heq].
Qed.

Lemma seed_state_keys_witness :
  197121 < 2 ^ 24 /\ 0 < 2 ^ 24 /\
  encode_state (seed_state 197121) = 197121 + 2 ^ 24.
Proof.
  assert (H1 : 197121 < 2 ^ 24) by reflexivity.
  assert (H2 : 0 < 2 ^ 24) by reflexivity.
  split; [exact H1 |]. split; [exact H2 |].
  exact (proj1 (proj2 (proj2 (seed_state_keys 197121 0 H1 H2)))).
Defined.

(** X5. [sfc8_advance] is a permutation of the states of four bytes:
    [sfc8_previous] undoes it and is undone by it, so no two states have the
    same successor and every state has a predecessor. *)
Theorem sfc8_advance_bijective (s s' : sfc8_t) :
  valid_state s -> valid_state s' ->
  sfc8_previous (sfc8_advance s) = s /\
  valid_state (sfc8_previous s) /\
  sfc8_advance (sfc8_previous s) = s /\
  (sfc8_advance s = sfc8_advance s' -> s = s').
Proof.
  intros Hs Hs'.
  split; [apply sfc8_previous_advance, Hs |].
  split; [apply sfc8_previous_valid, Hs |].
  split; [apply sfc8_advance_previous, Hs |].
  apply sfc8_advance_inj; assumption.
Qed.

Lemma sfc8_advance_bijective_witness :
  valid_state (mk_sfc8 200 100 77 255) /\ valid_state (mk_sfc8 125 231 149 0) /\
  sfc8_previous (sfc8_advance (mk_sfc8 200 100 77 255)) = mk_sfc8 200 100 77 255 /\
  sfc8_advance (sfc8_previous (mk_sfc8 200 100 77 255)) = mk_sfc8 200 100 77 255.
Proof.
  assert (H1 : valid_state (mk_sfc8 200 100 77 255)) by (repeat split).
  assert (H2 : valid_state (mk_sfc8 125 231 149 0)) by (repeat split).
  split; [exact H1 |]. split; [exact H2 |].
  destruct (sfc8_advance_bijective _ _ H1 H2) as (Hback & _ & Hforth & _).
  split; [exact Hback | exact Hforth].
Defined.

(** X6. The length the trace loop returns from a cleared array is the
    period of the start state: after that many transitions the generator is
    back in the start state, and after no smaller positive number of them.
    Field [d] counts the transitions modulo 256, so the length is a multiple
    of 256 and at least 256. *)
Theorem trace_loop_period (s : sfc8_t) (array : bitarray) :
  valid_state s -> all_clear array ->
  orbit s (fst (trace_loop array s)) = s /\
  (forall i, 0 < i < fst (trace_loop array s) -> orbit s i <> s) /\
  fst (trace_loop array s) mod 256 = 0 /\
  256 <= fst (trace_loop array s).
Proof.
  intros Hs Hclear.
  pose proof (trace_loop_clear array s Hs Hclear) as Hr.
  destruct (trace_result_period s _ _ Hs Hr) as [Hp Hfirst].
  pose proof (period_multiple s _ Hs Hp) as Hmul.
  destruct Hr as ((Hpos & _) & _).
  revert Hp Hfirst Hmul Hpos. generalize (fst (trace_loop array s)).
  intros len Hp Hfirst Hmul Hpos.
  split; [exact Hp |]. split; [exact Hfirst |]. split; [exact Hmul | lia].
Qed.

Lemma trace_loop_period_witness :
  valid_state (seed_state 0) /\ all_clear zeroed /\
  orbit (seed_state 0) (fst (trace_loop zeroed (seed_state 0))) = seed_state 0.
Proof.
  assert (Hs : valid_state (seed_state 0)) by (repeat split).
  assert (Hc : all_clear zeroed) by exact test_bit_zeroed.
  split; [exact Hs |]. split; [exact Hc |].
  exact (proj1 (trace_loop_period _ _ Hs Hc)).
Defined.

(** X7. Every state of a cycle gives the same result: the trace from the
    state reached after [j] transitions returns the same length and marks
    the same keys as the trace from the state itself. *)
Theorem trace_loop_same_cycle (s : sfc8_t) (j : N) :
  valid_state s ->
  fst (trace_loop zeroed (orbit s j)) = fst (trace_loop zeroed s) /\
  forall k, test_bit (snd (trace_loop zeroed (orbit s j))) k =
            test_bit (snd (trace_loop zeroed s)) k.
Proof.
  intros Hs.
  apply (trace_result_same_cycle s j); [exact Hs | |].
  - apply trace_loop_clear; [exact Hs | exact test_bit_zeroed].
  - apply trace_loop_clear; [apply orbit_valid, Hs | exact test_bit_zeroed].
Qed.

Lemma trace_loop_same_cycle_witness :
  valid_state (seed_state 0) /\
  fst (trace_loop zeroed (orbit (seed_state 0) 1)) =
  fst (trace_loop zeroed (seed_state 0)).
Proof.
  assert (Hs : valid_state (seed_state 0)) by (repeat split).
  split; [exact Hs |].
  exact (proj1 (trace_loop_same_cycle (seed_state 0) 1 Hs)).
Defined.

(** X8. On a cache with consistent slots and sorted lengths,
    [update_tested_cycles] leaves in [saved_cycle_lengths] the seven largest
    of the stored lengths and the candidate: the candidate is inserted in
    sorted position, after the entries that are not smaller, and the eighth
    entry is dropped.  Equal lengths do not disturb the lengths. *)
Theorem update_tested_cycles_top_lengths (cycle_length : N) (g : globals) :
  scratch_ok g -> lengths_sorted g ->
  saved_cycle_lengths (snd (update_tested_cycles cycle_length g)) =
    take ARRAYS_TO_STORE (insert_desc cycle_length (saved_cycle_lengths g)).
Proof. apply update_tested_cycles_lengths_insert. Qed.

Lemma update_tested_cycles_top_lengths_witness :
  scratch_ok example_cache /\ lengths_sorted example_cache /\
  saved_cycle_lengths (snd (update_tested_cycles 7 example_cache)) =
    [42; 7; 0; 0; 0; 0; 0].
Proof.
  split; [exact example_cache_scratch_ok |].
  split; [exact example_cache_sorted |].
  exact (eq_trans (update_tested_cycles_top_lengths 7 example_cache
                     example_cache_scratch_ok example_cache_sorted) eq_refl).
Defined.

(** X9. After any sequence of calls from the initial state, each with a
    fingerprint that is not [NULL], the stored lengths are what sorted
    insertion and truncation to [ARRAYS_TO_STORE] entries make of the
    offered lengths, whatever the fingerprints are. *)
Theorem consider_all_top_lengths (calls : list (N * N)) :
  Forall (fun call => snd call <> NULL) calls ->
  saved_cycle_lengths (consider_all calls initial_globals) =
    fold_left (fun lengths call =>
                 take ARRAYS_TO_STORE (insert_desc (fst call) lengths))
      calls (replicate ARRAYS_TO_STORE 0).
Proof.
  intros Hcalls.
  apply (consider_all_lengths_from calls initial_globals);
    [exact initial_globals_wf | exact initial_globals_sorted_inv | exact Hcalls].
Qed.

Lemma consider_all_top_lengths_witness :
  Forall (fun call : N * N => snd call <> NULL) [(5, 11); (9, 12); (7, 13)] /\
  saved_cycle_lengths (consider_all [(5, 11); (9, 12); (7, 13)] initial_globals) =
    [9; 7; 5; 0; 0; 0; 0].
Proof.
  assert (H : Forall (fun call : N * N => snd call <> NULL)
                [(5, 11); (9, 12); (7, 13)])
    by (repeat constructor; discriminate).
  split; [exact H |].
  exact (eq_trans (consider_all_top_lengths _ H) eq_refl).
Defined.

(** X10. [update_tested_cycles] never changes [cycle_bit_array], never
    allocates and never writes into a block; it frees at most one block, and
    only the fingerprint that was in the last slot. *)
Theorem update_tested_cycles_frees_bottom_only (cycle_length : N) (g : globals) :
  cycle_bit_array (snd (update_tested_cycles cycle_length g)) = cycle_bit_array g /\
  (heap (snd (update_tested_cycles cycle_length g)) = heap g \/
   (array_get (tested_cycle_bit_arrays g) (ARRAYS_TO_STORE - 1) <> NULL /\
    heap (snd (update_tested_cycles cycle_length g)) =
      delete (array_get (tested_cycle_bit_arrays g) (ARRAYS_TO_STORE - 1)) (heap g))).
Proof.
  split; [apply update_tested_cycles_scratch | apply update_tested_cycles_frame_heap].
Qed.

(** X11. On a cache with consistent slots whose retained lengths strictly
    decrease with the rank, a candidate of positive length is inserted as a
    record in sorted position and the records are cut to [ARRAYS_TO_STORE];
    the block of the last record is freed exactly when the cache was full
    and the candidate is longer than that record, and no other block is
    touched. *)
Theorem update_tested_cycles_inserts_record (cycle_length : N) (g : globals) :
  scratch_ok g -> lengths_distinct g -> 0 < cycle_length ->
  cached_records (snd (update_tested_cycles cycle_length g)) =
    take ARRAYS_TO_STORE
      (insert_record (cycle_length, cycle_bit_array g) (cached_records g)) /\
  heap (snd (update_tested_cycles cycle_length g)) =
    if (saved_array_count g =? ARRAYS_TO_STORE)%nat &&
       (array_get (saved_cycle_lengths g) (ARRAYS_TO_STORE - 1) <? cycle_length)
    then delete (array_get (tested_cycle_bit_arrays g) (ARRAYS_TO_STORE - 1)) (heap g)
    else heap g.
Proof.
  intros Hok Hdist Hpos.
  destruct (update_tested_cycles_records cycle_length g Hok Hdist Hpos)
    as (Hrec & _ & Hheap).
  split; [exact Hrec | exact Hheap].
Qed.

Lemma update_tested_cycles_inserts_record_witness :
  scratch_ok example_cache /\ lengths_distinct example_cache /\ 0 < 50 /\
  cached_records (snd (update_tested_cycles 50 example_cache)) =
    [(50, 20); (42, 10)].
Proof.
  assert (Hpos : 0 < 50) by reflexivity.
  split; [exact example_cache_scratch_ok |].
  split; [exact example_cache_distinct |]. split; [exact Hpos |].
  exact (eq_trans (proj1 (update_tested_cycles_inserts_record 50 example_cache
                            example_cache_scratch_ok example_cache_distinct Hpos))
           eq_refl).
Defined.

(** X12. [test_seed_for_cycle] returns the length of the trajectory of the
    seed, whether it read the length from the cache or counted it: with an
    allocator that hands out fresh blocks, consistent slots, every pointer on
    a live block of its own and every retained record the fingerprint and
    length of a trajectory, the call either exits with status 1 (a failed
    allocation) or returns that length, and the same holds of the state it
    leaves. *)
Theorem test_seed_for_cycle_length (malloc : allocator) (seed : N) (g : globals) :
  fresh_allocator malloc -> scratch_ok g -> heap_wf g -> records_sound g ->
  test_seed_for_cycle malloc seed g = Exits 1 \/
  exists known g',
    test_seed_for_cycle malloc seed g =
      Returns (fst (trace_loop zeroed (seed_state seed)), known, g') /\
    scratch_ok g' /\ heap_wf g' /\ records_sound g'.
Proof.
  intros Hfresh Hok Hheap Hsound.
  pose proof (test_seed_for_cycle_sound malloc Hfresh seed g Hok Hheap Hsound) as H.
  destruct (test_seed_for_cycle malloc seed g) as [[[len known] g'] | status |].
  - destruct H as (Hlen & _ & Hrest). right. exists known, g'.
    split; [rewrite Hlen; reflexivity | exact Hrest].
  - left. rewrite H. reflexivity.
  - contradiction.
Qed.

Lemma test_seed_for_cycle_length_witness :
  fresh_allocator (bump_malloc zeroed) /\
  exists g printed,
    scan_seeds (bump_malloc zeroed) 3 first_globals = Continue (g, printed) /\
    (0 < saved_array_count g)%nat /\
    scratch_ok g /\ heap_wf g /\ records_sound g /\
    (test_seed_for_cycle (bump_malloc zeroed) 3 g = Exits 1 \/
     exists known g',
       test_seed_for_cycle (bump_malloc zeroed) 3 g =
         Returns (fst (trace_loop zeroed (seed_state 3)), known, g') /\
       scratch_ok g' /\ heap_wf g' /\ records_sound g').
Proof.
  pose proof (bump_malloc_fresh zeroed) as Hfresh.
  assert (Hpos : (0 < 3)%nat) by lia.
  split; [exact Hfresh |].
  destruct (scan_seeds_bump zeroed 3) as (g0 & g & printed & Hinit & Hscan & _).
  rewrite main_init_bump in Hinit. injection Hinit as <-.
  destruct (scan_seeds_reached (bump_malloc zeroed) 3 first_globals g printed
              Hfresh main_init_bump Hscan) as (Hok & Hheap & Hsound & Hcount).
  exists g, printed. split; [exact Hscan |]. split; [exact (Hcount Hpos) |].
  split; [exact Hok |]. split; [exact Hheap |]. split; [exact Hsound |].
  exact (test_seed_for_cycle_length (bump_malloc zeroed) 3 g
           Hfresh Hok Hheap Hsound).
Defined.

(** X13. Once a cycle is in the cache every seed on it is answered from the
    cache: if the call found the seed on a known cycle, or traced it and the
    fingerprint went into the cache (a new scratch array was allocated),
    then in the state it leaves every seed whose initial state lies on the
    trajectory of the seed returns the same length with
    [was_on_known_cycle] set and changes nothing. *)
Theorem retained_cycle_is_known (malloc : allocator) (seed : N) (g : globals) :
  fresh_allocator malloc -> scratch_ok g -> heap_wf g -> records_sound g ->
  test_seed_for_cycle malloc seed g = Exits 1 \/
  exists known g',
    test_seed_for_cycle malloc seed g =
      Returns (fst (trace_loop zeroed (seed_state seed)), known, g') /\
    (known = true \/ cycle_bit_array g' <> cycle_bit_array g ->
     forall seed' j, seed_state seed' = orbit (seed_state seed) j ->
       test_seed_for_cycle malloc seed' g' =
         Returns (fst (trace_loop zeroed (seed_state seed)), true, g')).
Proof.
  intros Hfresh Hok Hheap Hsound.
  pose proof (test_seed_for_cycle_sound malloc Hfresh seed g Hok Hheap Hsound) as H.
  pose proof (test_seed_for_cycle_retained malloc Hfresh seed g Hok Hheap Hsound)
    as Hret.
  destruct (test_seed_for_cycle malloc seed g) as [[[len known] g'] | status |].
  - destruct H as (Hlen & _ & Hok' & Hheap' & Hsound'). right. exists known, g'.
    split; [rewrite Hlen; reflexivity |].
    intros Hcached seed' j Hseed'.
    destruct (Hret Hcached) as (i & Hi & Hhit).
    pose proof (cached_hit_orbit g' (seed_state seed) i j Hsound'
                  (seed_state_valid seed) Hi Hhit) as Hhit'.
    rewrite <- Hseed' in Hhit'.
    rewrite (test_seed_for_cycle_hit malloc seed' g' i Hheap' Hsound' Hi Hhit').
    rewrite Hseed'.
    destruct (trace_result_same_cycle (seed_state seed) j _ _ _ _
                (seed_state_valid seed)
                (trace_loop_clear zeroed (seed_state seed)
                   (seed_state_valid seed) test_bit_zeroed)
                (trace_loop_clear zeroed (orbit (seed_state seed) j)
                   (orbit_valid _ j (seed_state_valid seed)) test_bit_zeroed))
      as [Hsame _].
    rewrite Hsame. reflexivity.
  - left. rewrite H. reflexivity.
  - contradiction.
Qed.

Lemma retained_cycle_is_known_witness :
  fresh_allocator (bump_malloc zeroed) /\
  exists g printed,
    scan_seeds (bump_malloc zeroed) 3 first_globals = Continue (g, printed) /\
    (0 < saved_array_count g)%nat /\
    scratch_ok g /\ heap_wf g /\ records_sound g /\
    (test_seed_for_cycle (bump_malloc zeroed) 3 g = Exits 1 \/
     exists known g',
       test_seed_for_cycle (bump_malloc zeroed) 3 g =
         Returns (fst (trace_loop zeroed (seed_state 3)), known, g') /\
       (known = true \/ cycle_bit_array g' <> cycle_bit_array g ->
        forall seed' j, seed_state seed' = orbit (seed_state 3) j ->
          test_seed_for_cycle (bump_malloc zeroed) seed' g' =
            Returns (fst (trace_loop zeroed (seed_state 3)), true, g'))).
Proof.
  pose proof (bump_malloc_fresh zeroed) as Hfresh.
  assert (Hpos : (0 < 3)%nat) by lia.
  split; [exact Hfresh |].
  destruct (scan_seeds_bump zeroed 3) as (g0 & g & printed & Hinit & Hscan & _).
  rewrite main_init_bump in Hinit. injection Hinit as <-.
  destruct (scan_seeds_reached (bump_malloc zeroed) 3 first_globals g printed
              Hfresh main_init_bump Hscan) as (Hok & Hheap & Hsound & Hcount).
  exists g, printed. split; [exact Hscan |]. split; [exact (Hcount Hpos) |].
  split; [exact Hok |]. split; [exact Hheap |]. split; [exact Hsound |].
  exact (retained_cycle_is_known (bump_malloc zeroed) 3 g
           Hfresh Hok Hheap Hsound).
Defined.

(** X14. The output of [main]: with an allocator that hands out fresh
    blocks [main] never reads or writes outside a live block; it either
    exits with status 1 or prints lines whose seeds are below [2^24] and
    strictly increase, each with the length of the trajectory of its seed,
    the first of them for seed 0.  It returns when no allocation fails, and
    it exits with status 1 when the first allocation fails. *)
Theorem main_output (malloc : allocator) :
  fresh_allocator malloc ->
  (main malloc = Exits 1 \/
   exists lines, main malloc = Returns lines /\ lines_ok (2 ^ 24) lines) /\
  (never_fails malloc ->
   exists lines, main malloc = Returns lines /\ lines_ok (2 ^ 24) lines) /\
  (fst (malloc ∅) = NULL -> main malloc = Exits 1).
Proof.
  intros Hfresh. pose proof (main_lines malloc Hfresh) as Hlines.
  split; [exact Hlines |]. split.
  - intros Hmalloc. destruct (main_returns malloc Hfresh Hmalloc) as [lines Hret].
    destruct Hlines as [Hexit | Hlines]; [congruence | exact Hlines].
  - intros Hnull. unfold main, main_init, malloc_block.
    change (heap (fold_left _ _ initial_globals)) with (∅ : gmap N bitarray).
    destruct (malloc ∅) as [p contents]. cbn [fst] in Hnull. subst p.
    reflexivity.
Qed.

Lemma main_output_witness :
  fresh_allocator (bump_malloc zeroed) /\ never_fails (bump_malloc zeroed) /\
  exists lines,
    main (bump_malloc zeroed) = Returns lines /\ lines_ok (2 ^ 24) lines.
Proof.
  pose proof (bump_malloc_fresh zeroed) as Hfresh.
  pose proof (bump_malloc_never_fails zeroed) as Hmalloc.
  split; [exact Hfresh |]. split; [exact Hmalloc |].
  destruct (main_output (bump_malloc zeroed) Hfresh) as (_ & Hret & _).
  exact (Hret Hmalloc).
Defined.

(** X15. The frees at the end of [main] are safe: after the scan of any
    number of seeds, with an allocator that hands out fresh blocks, every
    pointer passed to [free] addresses a live block and none is freed twice;
    afterwards the scratch array and every retained fingerprint are gone and
    every other block is as it was. *)
Theorem main_cleanup_frees_once (malloc : allocator) (n : nat)
    (g0 g : globals) (printed : list (N * N)) :
  fresh_allocator malloc ->
  main_init malloc = Returns g0 ->
  scan_seeds malloc n g0 = Continue (g, printed) ->
  exists g',
    main_cleanup g = Returns g' /\
    heap g' !! cycle_bit_array g = None /\
    (forall i, (i < saved_array_count g)%nat ->
       heap g' !! array_get (tested_cycle_bit_arrays g) i = None) /\
    (forall q, q <> cycle_bit_array g -> not_cached g q ->
       heap g' !! q = heap g !! q).
Proof.
  intros Hfresh Hinit Hscan.
  pose proof (scan_seeds_safe malloc Hfresh n) as Hsafe.
  rewrite Hinit, Hscan in Hsafe. destruct Hsafe as [Hok Hheap].
  apply main_cleanup_spec; assumption.
Qed.

Lemma main_cleanup_frees_once_witness :
  fresh_allocator (bump_malloc zeroed) /\
  main_init (bump_malloc zeroed) = Returns first_globals /\
  exists g printed g',
    scan_seeds (bump_malloc zeroed) 3 first_globals = Continue (g, printed) /\
    (0 < saved_array_count g)%nat /\
    main_cleanup g = Returns g' /\
    heap g' !! cycle_bit_array g = None /\
    heap g' !! array_get (tested_cycle_bit_arrays g) 0 = None.
Proof.
  pose proof (bump_malloc_fresh zeroed) as Hfresh.
  assert (Hpos : (0 < 3)%nat) by lia.
  split; [exact Hfresh |]. split; [exact main_init_bump |].
  destruct (scan_seeds_bump zeroed 3) as (g0 & g & printed & Hinit & Hscan & _).
  rewrite main_init_bump in Hinit. injection Hinit as <-.
  destruct (scan_seeds_reached (bump_malloc zeroed) 3 first_globals g printed
              Hfresh main_init_bump Hscan) as (_ & _ & _ & Hcount).
  destruct (main_cleanup_frees_once (bump_malloc zeroed) 3 first_globals
              g printed Hfresh main_init_bump Hscan)
    as (g' & Hrun & Hscratch & Hslots & _).
  exists g, printed, g'. split; [exact Hscan |]. split; [exact (Hcount Hpos) |].
  split; [exact Hrun |]. split; [exact Hscratch | exact (Hslots 0%nat (Hcount Hpos))].
Defined.

(** X16. The cache never holds a cycle twice: after the scan of any number
    of seeds, with an allocator that hands out fresh blocks, every retained
    record is the fingerprint and the length of a trajectory, and no key is
    marked in the fingerprints of two retained records. *)
Theorem scan_keeps_distinct_cycles (malloc : allocator) (n : nat)
    (g0 g : globals) (printed : list (N * N)) :
  fresh_allocator malloc ->
  main_init malloc = Returns g0 ->
  scan_seeds malloc n g0 = Continue (g, printed) ->
  records_sound g /\ records_disjoint g.
Proof.
  intros Hfresh Hinit Hscan.
  pose proof (scan_seeds_disjoint malloc Hfresh n) as H.
  rewrite Hinit, Hscan in H. exact H.
Qed.

Lemma scan_keeps_distinct_cycles_witness :
  fresh_allocator (bump_malloc zeroed) /\
  main_init (bump_malloc zeroed) = Returns first_globals /\
  exists g printed,
    scan_seeds (bump_malloc zeroed) 3 first_globals = Continue (g, printed) /\
    (0 < saved_array_count g)%nat /\
    records_sound g /\ records_disjoint g.
Proof.
  pose proof (bump_malloc_fresh zeroed) as Hfresh.
  assert (Hpos : (0 < 3)%nat) by lia.
  split; [exact Hfresh |]. split; [exact main_init_bump |].
  destruct (scan_seeds_bump zeroed 3) as (g0 & g & printed & Hinit & Hscan & _).
  rewrite main_init_bump in Hinit. injection Hinit as <-.
  destruct (scan_seeds_reached (bump_malloc zeroed) 3 first_globals g printed
              Hfresh main_init_bump Hscan) as (_ & _ & _ & Hcount).
  exists g, printed. split; [exact Hscan |]. split; [exact (Hcount Hpos) |].
  exact (scan_keeps_distinct_cycles (bump_malloc zeroed) 3 first_globals
           g printed Hfresh main_init_bump Hscan).
Defined.

(** X17. The output of [main] covers the generator: with an allocator that
    hands out fresh blocks, if [main] returns, then for every seed below
    [2^24] a line with a seed that is not larger, on whose trajectory the
    seed lies, was printed with the length of the trajectory of the seed;
    and every state of four bytes lies on the trajectory of the seed of a
    printed line, which shows the length of its cycle. *)
Theorem main_output_complete (malloc : allocator) :
  fresh_allocator malloc ->
  main malloc = Exits 1 \/
  exists lines,
    main malloc = Returns lines /\
    (forall seed, seed < 2 ^ 24 ->
       exists line j,
         In line lines /\ fst line <= seed /\
         seed_state seed = orbit (seed_state (fst line)) j /\
         snd line = fst (trace_loop zeroed (seed_state seed))) /\
    (forall s, valid_state s ->
       exists line j,
         In line lines /\ s = orbit (seed_state (fst line)) j /\
         snd line = fst (trace_loop zeroed s)).
Proof.
  intros Hfresh.
  destruct (main_covers malloc Hfresh) as [Hexit | (lines & Hret & Hlines & Hcov)];
    [left; exact Hexit | right].
  exists lines. split; [exact Hret |].
  destruct Hlines as (Hall & _). rewrite List.Forall_forall in Hall.
  assert (Hlen : forall line j s,
            In line lines -> s = orbit (seed_state (fst line)) j ->
            snd line = fst (trace_loop zeroed s)).
  { intros line j s Hin ->. destruct (Hall line Hin) as [_ ->].
    symmetry. apply trace_length_orbit, seed_state_valid. }
  split.
  - intros seed Hseed. destruct (Hcov seed Hseed) as (line & j & Hin & Hle & Hreach).
    exists line, j. split; [exact Hin |]. split; [exact Hle |].
    split; [exact Hreach | exact (Hlen line j _ Hin Hreach)].
  - intros s Hs.
    destruct (orbit_seed_state s Hs) as (m & seed & Hseed & Hm).
    destruct (Hcov seed Hseed) as (line & j & Hin & _ & Hreach).
    destruct (orbit_periodic s Hs) as (len & Hlen0 & Hp).
    destruct (orbit_back s m len Hp Hlen0) as [m' Hback].
    assert (Hs' : s = orbit (seed_state (fst line)) (m' + j)).
    { rewrite orbit_add, <- Hreach, <- Hm. symmetry. exact Hback. }
    exists line, (m' + j). split; [exact Hin |].
    split; [exact Hs' | exact (Hlen line _ _ Hin Hs')].
Qed.

Lemma main_output_complete_witness :
  fresh_allocator (bump_malloc zeroed) /\
  exists lines,
    main (bump_malloc zeroed) = Returns lines /\
    forall s, valid_state s ->
      exists line j,
        In line lines /\ s = orbit (seed_state (fst line)) j /\
        snd line = fst (trace_loop zeroed s).
Proof.
  pose proof (bump_malloc_fresh zeroed) as Hfresh.
  split; [exact Hfresh |].
  destruct (main_returns (bump_malloc zeroed) Hfresh (bump_malloc_never_fails zeroed))
    as [lines Hret].
  destruct (main_output_complete (bump_malloc zeroed) Hfresh)
    as [Hexit | (lines' & Hret' & _ & Hall)].
  - rewrite Hret in Hexit. discriminate Hexit.
  - exists lines'. split; [exact Hret' | exact Hall].
Defined.

(** X18. Without equal lengths no block is lost: if every live block is the
    scratch array or a retained fingerprint, the slots are consistent, the
    retained lengths strictly decrease with the rank and the traced length
    is positive, then after the part of [test_seed_for_cycle] that follows
    the loop (the cache update and the allocation of a new scratch array)
    every live block is again the scratch array or a retained fingerprint,
    unless the allocation failed and the process exits. *)
Theorem finish_seed_no_leak (malloc : allocator) (cycle_length : N) (g : globals) :
  scratch_ok g -> lengths_distinct g -> 0 < cycle_length -> no_leak g ->
  finish_seed malloc cycle_length g = Exits 1 \/
  exists g',
    finish_seed malloc cycle_length g = Returns (cycle_length, false, g') /\
    no_leak g'.
Proof.
  intros Hok Hdist Hpos Hleak.
  pose proof (finish_seed_result malloc cycle_length g) as Hres.
  pose proof (finish_seed_no_leak_cases malloc cycle_length g Hok Hdist Hpos Hleak)
    as Hcases.
  destruct (finish_seed malloc cycle_length g) as [[[len known] g'] | status |].
  - destruct Hres as [-> ->]. right. exists g'. split; [reflexivity | exact Hcases].
  - left. rewrite Hres. reflexivity.
  - contradiction.
Qed.

Lemma finish_seed_no_leak_witness :
  scratch_ok example_cache /\ lengths_distinct example_cache /\ 0 < 50 /\
  no_leak example_cache /\
  exists g',
    finish_seed stray_malloc 50 example_cache = Returns (50, false, g') /\
    no_leak g'.
Proof.
  assert (Hpos : 0 < 50) by reflexivity.
  split; [exact example_cache_scratch_ok |].
  split; [exact example_cache_distinct |]. split; [exact Hpos |].
  split; [exact example_cache_no_leak |].
  destruct (finish_seed_no_leak stray_malloc 50 example_cache
              example_cache_scratch_ok example_cache_distinct Hpos
              example_cache_no_leak) as [Hexit | Hret].
  - rewrite finish_seed_example in Hexit. discriminate Hexit.
  - exact Hret.
Defined.
